(** * PrivateQA: the question ledgers, the message box and the 128-bit
    message packing

    A shallow embedding of four parts of the repository:

    - [WhisperEncryption]: [messageToNumber], [numberToMessage],
      [splitMessage] and [validateMessage] of
      [frontend/src/utils/whisperEncryption.ts], which pack a text into the
      integer that is handed to the encryption engine and unpack it again;
    - [PrivateQA]: the Solidity contract [PrivateQA] (sessions, questions,
      access grants), with its [require] checks, its checked [uint256]
      arithmetic and the calls it makes to the encryption engine;
    - [WhisperBox]: the Solidity contract [WhisperBox] (profiles with a
      generated id, messages sent to an id, an inbox per recipient);
    - [AnonAsk]: the Solidity contract [AnonAsk] (sessions and questions
      with public answers, approvals and upvotes). *)

From Stdlib Require Import ZArith List Lia Bool Sorted.
From stdpp Require Import gmap strings list.
Import ListNotations.

(* ===================================================================== *)
(** * Part 1: text packing ([whisperEncryption.ts])                       *)
(* ===================================================================== *)

Module WhisperEncryption.
Local Open Scope Z_scope.

(** A JavaScript string is a sequence of UTF-16 code units; [length] of the
    list is the string's [.length]. *)
Definition jsstring := list Z.

Definition is_code_unit (u : Z) : bool := (0 <=? u) && (u <? 0x10000).
Definition is_high_surrogate (u : Z) : bool := (0xD800 <=? u) && (u <=? 0xDBFF).
Definition is_low_surrogate (u : Z) : bool := (0xDC00 <=? u) && (u <=? 0xDFFF).

(** ** The platform's [TextEncoder] (WHATWG Encoding, UTF-8 encoder)

    The string is first converted to scalar values: a surrogate pair is
    one code point, a lone surrogate becomes U+FFFD. *)
Fixpoint to_code_points (s : jsstring) : list Z :=
  match s with
  | [] => []
  | u :: rest =>
      if is_high_surrogate u then
        match rest with
        | v :: rest' =>
            if is_low_surrogate v
            then (0x10000 + (u - 0xD800) * 0x400 + (v - 0xDC00)) :: to_code_points rest'
            else 0xFFFD :: to_code_points rest
        | [] => [0xFFFD]
        end
      else if is_low_surrogate u then 0xFFFD :: to_code_points rest
      else u :: to_code_points rest
  end.

Definition utf8_encode_code_point (cp : Z) : list Z :=
  if cp <? 0x80 then [cp]
  else if cp <? 0x800 then
    [Z.shiftr cp 6 + 0xC0; Z.lor 0x80 (Z.land cp 0x3F)]
  else if cp <? 0x10000 then
    [Z.shiftr cp 12 + 0xE0;
     Z.lor 0x80 (Z.land (Z.shiftr cp 6) 0x3F);
     Z.lor 0x80 (Z.land cp 0x3F)]
  else
    [Z.shiftr cp 18 + 0xF0;
     Z.lor 0x80 (Z.land (Z.shiftr cp 12) 0x3F);
     Z.lor 0x80 (Z.land (Z.shiftr cp 6) 0x3F);
     Z.lor 0x80 (Z.land cp 0x3F)].

Definition utf8_encode (cps : list Z) : list Z :=
  flat_map utf8_encode_code_point cps.

Definition TextEncoder_encode (s : jsstring) : list Z :=
  utf8_encode (to_code_points s).

(** ** The platform's [TextDecoder] (WHATWG Encoding, UTF-8 decoder,
    replacement error mode, byte order mark not ignored) *)
Record decoder := {
  code_point : Z;
  bytes_seen : Z;
  bytes_needed : Z;
  lower_boundary : Z;
  upper_boundary : Z
}.

Definition decoder_init : decoder :=
  {| code_point := 0; bytes_seen := 0; bytes_needed := 0;
     lower_boundary := 0x80; upper_boundary := 0xBF |}.

(** A byte read while no sequence is open. *)
Definition lead_byte (b : Z) : decoder * list Z :=
  if b <=? 0x7F then (decoder_init, [b])
  else if (0xC2 <=? b) && (b <=? 0xDF) then
    ({| code_point := Z.land b 0x1F; bytes_seen := 0; bytes_needed := 1;
        lower_boundary := 0x80; upper_boundary := 0xBF |}, [])
  else if (0xE0 <=? b) && (b <=? 0xEF) then
    ({| code_point := Z.land b 0xF; bytes_seen := 0; bytes_needed := 2;
        lower_boundary := if b =? 0xE0 then 0xA0 else 0x80;
        upper_boundary := if b =? 0xED then 0x9F else 0xBF |}, [])
  else if (0xF0 <=? b) && (b <=? 0xF4) then
    ({| code_point := Z.land b 0x7; bytes_seen := 0; bytes_needed := 3;
        lower_boundary := if b =? 0xF0 then 0x90 else 0x80;
        upper_boundary := if b =? 0xF4 then 0x8F else 0xBF |}, [])
  else (decoder_init, [0xFFFD]).

(** One step of the decoder: the new state and the code points emitted.
    A byte that cannot continue the open sequence ends it with U+FFFD and
    is read again as a lead byte. *)
Definition decoder_step (d : decoder) (b : Z) : decoder * list Z :=
  if bytes_needed d =? 0 then lead_byte b
  else if negb ((lower_boundary d <=? b) && (b <=? upper_boundary d)) then
    let '(d', out) := lead_byte b in (d', 0xFFFD :: out)
  else
    let cp := Z.lor (Z.shiftl (code_point d) 6) (Z.land b 0x3F) in
    if bytes_seen d + 1 =? bytes_needed d then (decoder_init, [cp])
    else ({| code_point := cp; bytes_seen := bytes_seen d + 1;
             bytes_needed := bytes_needed d;
             lower_boundary := 0x80; upper_boundary := 0xBF |}, []).

Fixpoint utf8_decode_from (d : decoder) (bytes : list Z) : list Z :=
  match bytes with
  | [] => if bytes_needed d =? 0 then [] else [0xFFFD]
  | b :: rest =>
      let '(d', out) := decoder_step d b in out ++ utf8_decode_from d' rest
  end.

Definition utf8_decode (bytes : list Z) : list Z :=
  utf8_decode_from decoder_init bytes.

(** A leading U+FEFF is dropped ([ignoreBOM] is false by default). *)
Definition strip_bom (cps : list Z) : list Z :=
  match cps with
  | cp :: rest => if cp =? 0xFEFF then rest else cps
  | [] => []
  end.

Definition utf16_of_code_point (cp : Z) : list Z :=
  if cp <? 0x10000 then [cp]
  else [0xD800 + Z.shiftr (cp - 0x10000) 10;
        0xDC00 + Z.land (cp - 0x10000) 0x3FF].

Definition TextDecoder_decode (bytes : list Z) : jsstring :=
  flat_map utf16_of_code_point (strip_bom (utf8_decode bytes)).

(** ** [messageToNumber] *)

(** The loop [number |= BigInt(bytes[i]) << BigInt(i * 8)]. *)
Fixpoint pack_loop (bytes : list Z) (i : Z) (number : Z) : Z :=
  match bytes with
  | [] => number
  | b :: rest => pack_loop rest (i + 1) (Z.lor number (Z.shiftl b (i * 8)))
  end.

Inductive thrown := Error (message : string).

Definition messageToNumber (message : jsstring) : thrown + Z :=
  if (16 <? Z.of_nat (length message))
  then inl (Error "Message too long. Maximum 16 characters.")
  else
    let bytes := TextEncoder_encode message in
    inr (pack_loop bytes 0 0).

(** ** [numberToMessage] *)

(** The loop [for (let i = 0; i < 16; i++)] with its [break] on a zero
    byte; [todo] counts the iterations left. *)
Fixpoint unpack_loop (number : Z) (i : Z) (todo : nat) : list Z :=
  match todo with
  | O => []
  | S todo' =>
      let byte := Z.land (Z.shiftr number (i * 8)) 0xFF in
      if byte =? 0 then [] else byte :: unpack_loop number (i + 1) todo'
  end.

Definition numberToMessage (number : Z) : jsstring :=
  TextDecoder_decode (unpack_loop number 0 16).

(** Encoding followed by decoding, [None] when the encoder throws. *)
Definition round_trip (message : jsstring) : option jsstring :=
  match messageToNumber message with
  | inr number => Some (numberToMessage number)
  | inl _ => None
  end.

(** ** Notions used in the statements *)

(** A Unicode scalar value: a code point that is not a surrogate. *)
Definition is_scalar (cp : Z) : bool :=
  (0 <=? cp) && (cp <? 0x110000) && negb ((0xD800 <=? cp) && (cp <=? 0xDFFF)).

(** Well-formed UTF-16: code units in range, surrogates only in pairs. *)
Fixpoint well_formed (s : jsstring) : bool :=
  match s with
  | [] => true
  | u :: rest =>
      if is_high_surrogate u then
        match rest with
        | v :: rest' => is_low_surrogate v && well_formed rest'
        | [] => false
        end
      else is_code_unit u && negb (is_low_surrogate u) && well_formed rest
  end.

(** The integer whose base-256 digits, lowest first, are the bytes. *)
Fixpoint little_endian (bytes : list Z) : Z :=
  match bytes with
  | [] => 0
  | b :: rest => Z.lor b (Z.shiftl (little_endian rest) 8)
  end.

(** Code units of an ASCII text given as a Rocq string. *)
Definition of_ascii (s : string) : jsstring :=
  map (fun c => Z.of_nat (Ascii.nat_of_ascii c)) (String.list_ascii_of_string s).

(** ** [splitMessage] *)

(** An index argument of [String.prototype.slice]: a negative one counts
    from the end, and both are clamped to the string. *)
Definition relative_index (len i : Z) : Z :=
  if i <? 0 then Z.max (len + i) 0 else Z.min i len.

Definition slice (s : jsstring) (start finish : Z) : jsstring :=
  let len := Z.of_nat (length s) in
  let from := relative_index len start in
  let to := relative_index len finish in
  take (Z.to_nat (to - from)) (drop (Z.to_nat from) s).

(** The loop [for (let i = 0; i < message.length; i += chunkSize)].  It
    need not end, so the model counts steps: [None] when [fuel] steps were
    not enough. *)
Fixpoint splitMessage_loop (fuel : nat) (message : jsstring) (chunkSize i : Z)
    (chunks : list jsstring) : option (list jsstring) :=
  match fuel with
  | O => None
  | S fuel' =>
      if i <? Z.of_nat (length message)
      then splitMessage_loop fuel' message chunkSize (i + chunkSize)
             (chunks ++ [slice message i (i + chunkSize)])
      else Some chunks
  end.

Definition splitMessage (fuel : nat) (message : jsstring) (chunkSize : Z)
    : option (list jsstring) :=
  splitMessage_loop fuel message chunkSize 0 [].

(** [validateMessage], with its default [maxLength = 280] given by the
    caller. *)
Definition validateMessage (message : jsstring) (maxLength : Z) : bool :=
  (0 <? Z.of_nat (length message)) && (Z.of_nat (length message) <=? maxLength).

End WhisperEncryption.

(* ===================================================================== *)
(** * Part 2: the [PrivateQA] contract                                    *)
(* ===================================================================== *)

Module PrivateQA.
Local Open Scope Z_scope.

Definition address := Z.
(** Ciphertext handles are opaque to the contract. *)
Definition euint128 := Z.
Definition externalEuint128 := Z.
Definition bytes := list Byte.byte.

Definition MAX_UINT256 : Z := 2 ^ 256 - 1.

Module Session.
Record t := mk {
  id : Z;
  host : address;
  topic : string;
  description : string;
  createdAt : Z;
  expiresAt : Z;
  isActive : bool;
  questionCount : Z;
  answeredCount : Z
}.
Definition set_isActive (b : bool) (x : t) : t :=
  mk (id x) (host x) (topic x) (description x) (createdAt x) (expiresAt x)
     b (questionCount x) (answeredCount x).
Definition set_questionCount (n : Z) (x : t) : t :=
  mk (id x) (host x) (topic x) (description x) (createdAt x) (expiresAt x)
     (isActive x) n (answeredCount x).
Definition set_answeredCount (n : Z) (x : t) : t :=
  mk (id x) (host x) (topic x) (description x) (createdAt x) (expiresAt x)
     (isActive x) (questionCount x) n.
End Session.

Module Question.
Record t := mk {
  id : Z;
  sessionId : Z;
  asker : address;
  timestamp : Z;
  isAnswered : bool
}.
Definition set_isAnswered (b : bool) (x : t) : t :=
  mk (id x) (sessionId x) (asker x) (timestamp x) b.
End Question.

(** A Solidity mapping reads the zero value at a key never written. *)
Class Zero (V : Type) := zero : V.
Global Instance Z_zero : Zero Z := 0.
Global Instance list_zero {A} : Zero (list A) := [].
Global Instance Session_zero : Zero Session.t :=
  Session.mk 0 0 "" "" 0 0 false 0 0.
Global Instance Question_zero : Zero Question.t :=
  Question.mk 0 0 0 0 false.

Definition at_key {V} `{Zero V} (m : gmap Z V) (k : Z) : V :=
  default zero (m !! k).
Notation "m .[ k ]" := (at_key m k) (at level 1, format "m .[ k ]").

Inductive Event :=
| SessionCreated (sessionId : Z) (host : address) (topic : string) (expiresAt : Z)
| QuestionSubmitted (questionId sessionId : Z) (asker : address) (timestamp : Z)
| QuestionAnswered (questionId sessionId : Z)
| SessionClosed (sessionId : Z).

(** The contract's storage, the engine's permission list ([acl]: who may
    decrypt which handle) and the log of emitted events. *)
Record State := mkState {
  sessions : gmap Z Session.t;
  questions : gmap Z Question.t;
  encryptedQuestions : gmap Z euint128;
  encryptedAnswers : gmap Z euint128;
  sessionQuestions : gmap Z (list Z);
  hostSessions : gmap Z (list Z);
  userQuestions : gmap Z (list Z);
  sessionCount : Z;
  questionCount : Z;
  acl : list (euint128 * address);
  events : list Event
}.

Definition initial : State :=
  mkState ∅ ∅ ∅ ∅ ∅ ∅ ∅ 0 0 [] [].

Definition upd_sessions (f : gmap Z Session.t -> gmap Z Session.t) (s : State) : State :=
  mkState (f (sessions s)) (questions s) (encryptedQuestions s) (encryptedAnswers s)
          (sessionQuestions s) (hostSessions s) (userQuestions s)
          (sessionCount s) (questionCount s) (acl s) (events s).
Definition upd_questions (f : gmap Z Question.t -> gmap Z Question.t) (s : State) : State :=
  mkState (sessions s) (f (questions s)) (encryptedQuestions s) (encryptedAnswers s)
          (sessionQuestions s) (hostSessions s) (userQuestions s)
          (sessionCount s) (questionCount s) (acl s) (events s).
Definition upd_encryptedQuestions (f : gmap Z euint128 -> gmap Z euint128) (s : State) : State :=
  mkState (sessions s) (questions s) (f (encryptedQuestions s)) (encryptedAnswers s)
          (sessionQuestions s) (hostSessions s) (userQuestions s)
          (sessionCount s) (questionCount s) (acl s) (events s).
Definition upd_encryptedAnswers (f : gmap Z euint128 -> gmap Z euint128) (s : State) : State :=
  mkState (sessions s) (questions s) (encryptedQuestions s) (f (encryptedAnswers s))
          (sessionQuestions s) (hostSessions s) (userQuestions s)
          (sessionCount s) (questionCount s) (acl s) (events s).
Definition upd_sessionQuestions (f : gmap Z (list Z) -> gmap Z (list Z)) (s : State) : State :=
  mkState (sessions s) (questions s) (encryptedQuestions s) (encryptedAnswers s)
          (f (sessionQuestions s)) (hostSessions s) (userQuestions s)
          (sessionCount s) (questionCount s) (acl s) (events s).
Definition upd_hostSessions (f : gmap Z (list Z) -> gmap Z (list Z)) (s : State) : State :=
  mkState (sessions s) (questions s) (encryptedQuestions s) (encryptedAnswers s)
          (sessionQuestions s) (f (hostSessions s)) (userQuestions s)
          (sessionCount s) (questionCount s) (acl s) (events s).
Definition upd_userQuestions (f : gmap Z (list Z) -> gmap Z (list Z)) (s : State) : State :=
  mkState (sessions s) (questions s) (encryptedQuestions s) (encryptedAnswers s)
          (sessionQuestions s) (hostSessions s) (f (userQuestions s))
          (sessionCount s) (questionCount s) (acl s) (events s).
Definition set_sessionCount (n : Z) (s : State) : State :=
  mkState (sessions s) (questions s) (encryptedQuestions s) (encryptedAnswers s)
          (sessionQuestions s) (hostSessions s) (userQuestions s)
          n (questionCount s) (acl s) (events s).
Definition set_questionCount (n : Z) (s : State) : State :=
  mkState (sessions s) (questions s) (encryptedQuestions s) (encryptedAnswers s)
          (sessionQuestions s) (hostSessions s) (userQuestions s)
          (sessionCount s) n (acl s) (events s).
Definition upd_acl (f : list (euint128 * address) -> list (euint128 * address)) (s : State) : State :=
  mkState (sessions s) (questions s) (encryptedQuestions s) (encryptedAnswers s)
          (sessionQuestions s) (hostSessions s) (userQuestions s)
          (sessionCount s) (questionCount s) (f (acl s)) (events s).
Definition upd_events (f : list Event -> list Event) (s : State) : State :=
  mkState (sessions s) (questions s) (encryptedQuestions s) (encryptedAnswers s)
          (sessionQuestions s) (hostSessions s) (userQuestions s)
          (sessionCount s) (questionCount s) (acl s) (f (events s)).

(** ** Execution of a call

    A call runs statement by statement on the state.  It ends normally
    with a value, or it stops: at a failed [require] ([Revert] with the
    reason string), at an overflowing checked operation ([Panic] 0x11), or
    inside the encryption engine ([EngineRevert]).  [Fail] keeps the state
    reached when the call stopped; [call] below is the transaction, which
    discards it. *)
Inductive Failure :=
| Revert (reason : string)
| Panic (code : Z)
| EngineRevert.

Inductive Outcome (A : Type) :=
| Ok (a : A) (s : State)
| Fail (f : Failure) (s : State).
Arguments Ok {A} a s.
Arguments Fail {A} f s.

Definition M (A : Type) : Type := State -> Outcome A.

Global Instance M_ret : MRet M := λ A a s, Ok a s.
Global Instance M_bind : MBind M := λ A B f m s,
  match m s with
  | Ok a s' => f a s'
  | Fail e s' => Fail e s'
  end.

Definition require (c : bool) (reason : string) : M unit :=
  λ s, if c then Ok tt s else Fail (Revert reason) s.
Definition gets {A} (f : State -> A) : M A := λ s, Ok (f s) s.
Definition modify (f : State -> State) : M unit := λ s, Ok tt (f s).
Definition emit (e : Event) : M unit := modify (upd_events (λ l, l ++ [e])).

(** Solidity 0.8 arithmetic on [uint256]: an overflow stops the call. *)
Definition checked_add (a b : Z) : M Z :=
  λ s, if a + b <=? MAX_UINT256 then Ok (a + b) s else Fail (Panic 0x11) s.

(** The transaction: a call that stops leaves the state as it was. *)
Definition call {A} (m : M A) (s : State) : (Failure + A) * State :=
  match m s with
  | Ok a s' => (inr a, s')
  | Fail f _ => (inl f, s)
  end.

Definition succeeds {A} (r : Outcome A) : Prop := ∃ a s', r = Ok a s'.
Definition fails {A} (r : Outcome A) : Prop := ∃ f s', r = Fail f s'.
(** Stopped at a [require], before anything was written. *)
Definition rejected {A} (r : Outcome A) (s : State) : Prop :=
  ∃ reason, r = Fail (Revert reason) s.

Record Env := mkEnv {
  msg_sender : address;
  block_timestamp : Z
}.

(** The encryption engine, outside the repository: [fromExternal] checks
    an encrypted input against its proof and returns the ciphertext handle,
    or makes the call stop; [this] is the contract's own address. *)
Class FHEVM := {
  fromExternal : externalEuint128 -> bytes -> option euint128;
  this : address
}.

Section Contract.
Context `{FHEVM}.

Definition FHE_fromExternal (input : externalEuint128) (inputProof : bytes) : M euint128 :=
  λ s, match fromExternal input inputProof with
       | Some c => Ok c s
       | None => Fail EngineRevert s
       end.
Definition FHE_allow (c : euint128) (a : address) : M unit :=
  modify (upd_acl (cons (c, a))).
Definition FHE_allowThis (c : euint128) : M unit := FHE_allow c this.

(** *** Modifiers *)
Definition onlyHost (env : Env) (sessionId : Z) : M unit :=
  h ← gets (λ s, Session.host (sessions s).[sessionId]);
  require (bool_decide (h = msg_sender env)) "Not session host".

Definition sessionExists (sessionId : Z) : M unit :=
  n ← gets sessionCount;
  require ((0 <? sessionId) && (sessionId <=? n)) "Session does not exist".

Definition sessionActive (env : Env) (sessionId : Z) : M unit :=
  x ← gets (λ s, (sessions s).[sessionId]);
  require (Session.isActive x) "Session not active";;
  require (block_timestamp env <? Session.expiresAt x) "Session expired".

Definition validQuestionId (questionId : Z) : M unit :=
  n ← gets questionCount;
  require ((0 <? questionId) && (questionId <=? n)) "Invalid question ID".

(** *** [createSession] *)
Definition createSession (env : Env) (topic description : string) (duration : Z) : M Z :=
  require (0 <? Z.of_nat (String.length topic)) "Topic cannot be empty";;
  require (0 <? duration) "Duration must be positive";;
  n ← gets sessionCount;
  n' ← checked_add n 1;
  modify (set_sessionCount n');;
  expiresAt ← checked_add (block_timestamp env) duration;
  sc ← gets sessionCount;
  modify (upd_sessions
    <[sc := Session.mk sc (msg_sender env) topic description
              (block_timestamp env) expiresAt true 0 0]>);;
  modify (upd_hostSessions
    (λ m, <[msg_sender env := m.[msg_sender env] ++ [sc]]> m));;
  emit (SessionCreated sc (msg_sender env) topic expiresAt);;
  gets sessionCount.

(** *** [submitQuestion] *)
Definition submitQuestion (env : Env) (sessionId : Z)
    (encryptedQuestion : externalEuint128) (inputProof : bytes) : M Z :=
  sessionExists sessionId;;
  sessionActive env sessionId;;
  n ← gets questionCount;
  n' ← checked_add n 1;
  modify (set_questionCount n');;
  question ← FHE_fromExternal encryptedQuestion inputProof;
  qc ← gets questionCount;
  modify (upd_encryptedQuestions <[qc := question]>);;
  FHE_allowThis question;;
  h ← gets (λ s, Session.host (sessions s).[sessionId]);
  FHE_allow question h;;
  modify (upd_questions
    <[qc := Question.mk qc sessionId (msg_sender env) (block_timestamp env) false]>);;
  modify (upd_sessionQuestions (λ m, <[sessionId := m.[sessionId] ++ [qc]]> m));;
  modify (upd_userQuestions
    (λ m, <[msg_sender env := m.[msg_sender env] ++ [qc]]> m));;
  x ← gets (λ s, (sessions s).[sessionId]);
  c ← checked_add (Session.questionCount x) 1;
  modify (upd_sessions (λ m, <[sessionId := Session.set_questionCount c m.[sessionId]]> m));;
  emit (QuestionSubmitted qc sessionId (msg_sender env) (block_timestamp env));;
  gets questionCount.

(** *** [requestQuestionAccess] and [getEncryptedQuestion] *)
Definition requestQuestionAccess (env : Env) (questionId : Z) : M unit :=
  validQuestionId questionId;;
  sessionId ← gets (λ s, Question.sessionId (questions s).[questionId]);
  h ← gets (λ s, Session.host (sessions s).[sessionId]);
  require (bool_decide (h = msg_sender env)) "Not session host";;
  c ← gets (λ s, (encryptedQuestions s).[questionId]);
  FHE_allow c (msg_sender env).

Definition getEncryptedQuestion (env : Env) (questionId : Z) : M euint128 :=
  validQuestionId questionId;;
  sessionId ← gets (λ s, Question.sessionId (questions s).[questionId]);
  h ← gets (λ s, Session.host (sessions s).[sessionId]);
  require (bool_decide (h = msg_sender env)) "Not session host";;
  gets (λ s, (encryptedQuestions s).[questionId]).

(** *** [answerQuestion] *)
Definition answerQuestion (env : Env) (questionId : Z)
    (encryptedAnswer : externalEuint128) (inputProof : bytes) : M unit :=
  validQuestionId questionId;;
  sessionId ← gets (λ s, Question.sessionId (questions s).[questionId]);
  h ← gets (λ s, Session.host (sessions s).[sessionId]);
  require (bool_decide (h = msg_sender env)) "Not session host";;
  q ← gets (λ s, (questions s).[questionId]);
  require (negb (Question.isAnswered q)) "Already answered";;
  answer ← FHE_fromExternal encryptedAnswer inputProof;
  modify (upd_encryptedAnswers <[questionId := answer]>);;
  FHE_allowThis answer;;
  a ← gets (λ s, Question.asker (questions s).[questionId]);
  FHE_allow answer a;;
  modify (upd_questions (λ m, <[questionId := Question.set_isAnswered true m.[questionId]]> m));;
  x ← gets (λ s, (sessions s).[sessionId]);
  c ← checked_add (Session.answeredCount x) 1;
  modify (upd_sessions (λ m, <[sessionId := Session.set_answeredCount c m.[sessionId]]> m));;
  emit (QuestionAnswered questionId sessionId).

(** *** [requestAnswerAccess] and [getEncryptedAnswer] *)
Definition requestAnswerAccess (env : Env) (questionId : Z) : M unit :=
  validQuestionId questionId;;
  q ← gets (λ s, (questions s).[questionId]);
  require (bool_decide (Question.asker q = msg_sender env)) "Not question asker";;
  require (Question.isAnswered q) "Question not answered yet";;
  c ← gets (λ s, (encryptedAnswers s).[questionId]);
  FHE_allow c (msg_sender env).

Definition getEncryptedAnswer (env : Env) (questionId : Z) : M euint128 :=
  validQuestionId questionId;;
  q ← gets (λ s, (questions s).[questionId]);
  require (bool_decide (Question.asker q = msg_sender env)) "Not question asker";;
  require (Question.isAnswered q) "Question not answered yet";;
  gets (λ s, (encryptedAnswers s).[questionId]).

(** *** [closeSession] *)
Definition closeSession (env : Env) (sessionId : Z) : M unit :=
  sessionExists sessionId;;
  onlyHost env sessionId;;
  x ← gets (λ s, (sessions s).[sessionId]);
  require (Session.isActive x) "Session already closed";;
  modify (upd_sessions (λ m, <[sessionId := Session.set_isActive false m.[sessionId]]> m));;
  emit (SessionClosed sessionId).

(** ** Histories *)

(** The state-changing entry points. *)
Inductive Call :=
| CreateSession (topic description : string) (duration : Z)
| SubmitQuestion (sessionId : Z) (encryptedQuestion : externalEuint128) (inputProof : bytes)
| RequestQuestionAccess (questionId : Z)
| AnswerQuestion (questionId : Z) (encryptedAnswer : externalEuint128) (inputProof : bytes)
| RequestAnswerAccess (questionId : Z)
| CloseSession (sessionId : Z).

Definition exec (env : Env) (c : Call) : M unit :=
  match c with
  | CreateSession topic description duration =>
      createSession env topic description duration;; mret tt
  | SubmitQuestion sessionId e p => submitQuestion env sessionId e p;; mret tt
  | RequestQuestionAccess questionId => requestQuestionAccess env questionId
  | AnswerQuestion questionId e p => answerQuestion env questionId e p
  | RequestAnswerAccess questionId => requestAnswerAccess env questionId
  | CloseSession sessionId => closeSession env sessionId
  end.

(** The state after a transaction, stopped or not. *)
Definition step (s : State) (tx : Env * Call) : State :=
  snd (call (exec (fst tx) (snd tx)) s).

(** The state after a history of transactions, oldest first. *)
Definition run (txs : list (Env * Call)) (s : State) : State :=
  fold_left step txs s.

Definition reachable (s : State) : Prop := ∃ txs, s = run txs initial.

End Contract.

(** ** Notions used in the statements *)

Definition session_exists (s : State) (sessionId : Z) : Prop :=
  0 < sessionId ≤ sessionCount s.
Definition question_exists (s : State) (questionId : Z) : Prop :=
  0 < questionId ≤ questionCount s.

(** How many of the listed questions are answered. *)
Definition answered_in (s : State) (l : list Z) : nat :=
  length (List.filter (λ q, Question.isAnswered (questions s).[q]) l).

(** The storage is consistent: every question belongs to an existing
    session, a session's question index lists exactly its questions, once
    each, its counters count them, and only existing questions are
    answered. *)
Record consistent (s : State) : Prop := {
  counts_nonneg : 0 ≤ sessionCount s ∧ 0 ≤ questionCount s;
  question_session : ∀ q,
    question_exists s q → session_exists s (Question.sessionId (questions s).[q]);
  index_exact : ∀ sid q,
    q ∈ (sessionQuestions s).[sid] ↔
    question_exists s q ∧ Question.sessionId (questions s).[q] = sid;
  index_nodup : ∀ sid, NoDup (sessionQuestions s).[sid];
  counters_exact : ∀ sid,
    session_exists s sid →
    Session.questionCount (sessions s).[sid]
      = Z.of_nat (length (sessionQuestions s).[sid]) ∧
    Session.answeredCount (sessions s).[sid]
      = Z.of_nat (answered_in s (sessionQuestions s).[sid]);
  answered_exists : ∀ q,
    Question.isAnswered (questions s).[q] = true → question_exists s q
}.

(** Two engines to run the contract with: one accepts every input and
    uses the input as the handle, one accepts none. *)
Definition accepting_engine : FHEVM :=
  {| fromExternal := λ input _, Some input; this := 0xC0DE |}.
Definition rejecting_engine : FHEVM :=
  {| fromExternal := λ _ _, None; this := 0xC0DE |}.

Definition alice : address := 0xA11CE.
Definition bob : address := 0xB0B.

(** The scenario of the specification: a host opens a session for an
    hour, a user submits a question, the host answers it. *)
Definition host_env : Env := mkEnv alice 1000.
Definition asker_env : Env := mkEnv bob 1001.
Definition session_opened : list (Env * Call) :=
  [(host_env, CreateSession "AMA" "desc" 3600)].
Definition question_asked : list (Env * Call) :=
  session_opened ++ [(asker_env, SubmitQuestion 1 77 [])].
Definition question_answered : list (Env * Call) :=
  question_asked ++ [(host_env, AnswerQuestion 1 88 [])].

(** ** Read accessors *)

Definition getSessionQuestions (sessionId : Z) : M (list Z) :=
  sessionExists sessionId;;
  gets (λ s, (sessionQuestions s).[sessionId]).

Definition getUserQuestions (user : address) : M (list Z) :=
  gets (λ s, (userQuestions s).[user]).

Definition getHostSessions (host : address) : M (list Z) :=
  gets (λ s, (hostSessions s).[host]).

Definition getSession (sessionId : Z) : M Session.t :=
  sessionExists sessionId;;
  gets (λ s, (sessions s).[sessionId]).

Definition getQuestion (questionId : Z) : M Question.t :=
  validQuestionId questionId;;
  gets (λ s, (questions s).[questionId]).

Definition isSessionExpired (env : Env) (sessionId : Z) : M bool :=
  sessionExists sessionId;;
  gets (λ s, block_timestamp env >=? Session.expiresAt (sessions s).[sessionId]).

(** The loop [for (uint256 i = 1; i <= sessionCount; i++)] of
    [getActiveSessionsCount]: [todo] counts the iterations left, [i] and
    [count] are the loop's variables; both increments are checked. *)
Fixpoint activeSessions_loop (env : Env) (todo : nat) (i count : Z) : M Z :=
  match todo with
  | O => mret count
  | S todo' =>
      x ← gets (λ s, (sessions s).[i]);
      count' ← (if Session.isActive x && (block_timestamp env <? Session.expiresAt x)
                then checked_add count 1 else mret count);
      i' ← checked_add i 1;
      activeSessions_loop env todo' i' count'
  end.

Definition getActiveSessionsCount (env : Env) : M Z :=
  n ← gets sessionCount;
  activeSessions_loop env (Z.to_nat n) 1 0.

(** ** More notions used in the statements *)

(** What identifies a session: everything but its flag and counters. *)
Definition same_identity (x y : Session.t) : Prop :=
  Session.id x = Session.id y ∧ Session.host x = Session.host y ∧
  Session.topic x = Session.topic y ∧
  Session.description x = Session.description y ∧
  Session.createdAt x = Session.createdAt y ∧
  Session.expiresAt x = Session.expiresAt y.

(** A session takes questions at a given time. *)
Definition accepting (now : Z) (x : Session.t) : bool :=
  Session.isActive x && (now <? Session.expiresAt x).

(** The ids [first, first + 1, ...], [n] of them. *)
Fixpoint ids_from (first : Z) (n : nat) : list Z :=
  match n with
  | O => []
  | S n' => first :: ids_from (first + 1) n'
  end.

Definition is_SessionCreated (e : Event) : bool :=
  match e with SessionCreated _ _ _ _ => true | _ => false end.
Definition is_QuestionSubmitted (e : Event) : bool :=
  match e with QuestionSubmitted _ _ _ _ => true | _ => false end.

(** The later state [s'] only adds to [s]: the sessions and questions of
    [s] are still there with what identifies them, a closed session is
    still closed and an answered question still answered, stored handles
    are the same, counters have not gone down, and the indexes, the
    permission list and the event log have only grown. *)
Record extends (s s' : State) : Prop := {
  ext_sessionCount : sessionCount s ≤ sessionCount s';
  ext_questionCount : questionCount s ≤ questionCount s';
  ext_session : ∀ sid, session_exists s sid →
    same_identity (sessions s).[sid] (sessions s').[sid] ∧
    (Session.isActive (sessions s).[sid] = false →
       Session.isActive (sessions s').[sid] = false) ∧
    Session.questionCount (sessions s).[sid]
      ≤ Session.questionCount (sessions s').[sid] ∧
    Session.answeredCount (sessions s).[sid]
      ≤ Session.answeredCount (sessions s').[sid];
  ext_question : ∀ q, question_exists s q →
    Question.id (questions s').[q] = Question.id (questions s).[q] ∧
    Question.sessionId (questions s').[q] = Question.sessionId (questions s).[q] ∧
    Question.asker (questions s').[q] = Question.asker (questions s).[q] ∧
    Question.timestamp (questions s').[q] = Question.timestamp (questions s).[q] ∧
    (Question.isAnswered (questions s).[q] = true →
       Question.isAnswered (questions s').[q] = true ∧
       (encryptedAnswers s').[q] = (encryptedAnswers s).[q]) ∧
    (encryptedQuestions s').[q] = (encryptedQuestions s).[q];
  ext_acl : ∀ grant, grant ∈ acl s → grant ∈ acl s';
  ext_events : events s `prefix_of` events s';
  ext_sessionQuestions : ∀ sid,
    (sessionQuestions s).[sid] `prefix_of` (sessionQuestions s').[sid];
  ext_hostSessions : ∀ h,
    (hostSessions s).[h] `prefix_of` (hostSessions s').[h];
  ext_userQuestions : ∀ a,
    (userQuestions s).[a] `prefix_of` (userQuestions s').[a]
}.

(** Why an address may decrypt a handle: it is the contract itself, or
    the host of the session of the question stored under the handle, or
    the asker of the answered question whose answer is stored under it. *)
Definition justified `{FHEVM} (s : State) (c : euint128) (a : address) : Prop :=
  a = this ∨
  ∃ q, question_exists s q ∧
    ((c = (encryptedQuestions s).[q] ∧
      a = Session.host (sessions s).[Question.sessionId (questions s).[q]]) ∨
     (Question.isAnswered (questions s).[q] = true ∧
      c = (encryptedAnswers s).[q] ∧ a = Question.asker (questions s).[q])).

(** The books are kept: what the indexes, the permission list and the
    event log say agrees with the sessions and questions stored. *)
Record coherent `{FHEVM} (s : State) : Prop := {
  coherent_consistent : consistent s;
  session_shape : ∀ sid, session_exists s sid →
    Session.id (sessions s).[sid] = sid ∧
    Session.topic (sessions s).[sid] ≠ "" ∧
    Session.createdAt (sessions s).[sid] < Session.expiresAt (sessions s).[sid] ∧
    Session.expiresAt (sessions s).[sid] ≤ MAX_UINT256;
  question_shape : ∀ q, question_exists s q →
    Question.id (questions s).[q] = q;
  host_index_exact : ∀ h sid,
    sid ∈ (hostSessions s).[h] ↔
    session_exists s sid ∧ Session.host (sessions s).[sid] = h;
  host_index_sorted : ∀ h, StronglySorted Z.lt (hostSessions s).[h];
  user_index_exact : ∀ a q,
    q ∈ (userQuestions s).[a] ↔
    question_exists s q ∧ Question.asker (questions s).[q] = a;
  user_index_sorted : ∀ a, StronglySorted Z.lt (userQuestions s).[a];
  session_index_sorted : ∀ sid, StronglySorted Z.lt (sessionQuestions s).[sid];
  grants_justified : ∀ c a, (c, a) ∈ acl s → justified s c a;
  grants_complete : ∀ q, question_exists s q →
    ((encryptedQuestions s).[q], this) ∈ acl s ∧
    ((encryptedQuestions s).[q],
     Session.host (sessions s).[Question.sessionId (questions s).[q]]) ∈ acl s ∧
    (Question.isAnswered (questions s).[q] = true →
       ((encryptedAnswers s).[q], this) ∈ acl s ∧
       ((encryptedAnswers s).[q], Question.asker (questions s).[q]) ∈ acl s);
  events_counted :
    Z.of_nat (length (List.filter is_SessionCreated (events s))) = sessionCount s ∧
    Z.of_nat (length (List.filter is_QuestionSubmitted (events s))) = questionCount s
}.

End PrivateQA.

(* ===================================================================== *)
(** * Part 2b: the [WhisperBox] contract                                  *)
(* ===================================================================== *)

(** The contract the text packing is written for: profiles with a
    generated id, messages sent to an id, an inbox per recipient.  It is
    run by the same kind of machine as [PrivateQA]: calls stop at a failed
    [require], at an overflowing checked operation, at an array index out
    of range ([Panic] 0x32) or inside the encryption engine. *)
Module WhisperBox.
Import WhisperEncryption PrivateQA.
Local Open Scope Z_scope.

(** Solidity [string] and [bytes memory] values are lists of bytes. *)
Definition bytes_of (s : string) : list Z := of_ascii s.

Module UserProfile.
Record t := mk {
  userAddress : address;
  userId : list Z;
  username : list Z;
  messageCount : Z;
  createdAt : Z;
  isActive : bool
}.
Definition set_messageCount (n : Z) (x : t) : t :=
  mk (userAddress x) (userId x) (username x) n (createdAt x) (isActive x).
End UserProfile.

Module Message.
Record t := mk {
  id : Z;
  recipient : address;
  timestamp : Z;
  isRead : bool
}.
Definition set_isRead (b : bool) (x : t) : t :=
  mk (id x) (recipient x) (timestamp x) b.
End Message.

Global Instance UserProfile_zero : Zero UserProfile.t :=
  UserProfile.mk 0 [] [] 0 0 false.
Global Instance Message_zero : Zero Message.t :=
  Message.mk 0 0 0 false.

(** The mapping [userIdToAddress], keyed by strings. *)
Definition at_id (m : gmap (list Z) address) (userId : list Z) : address :=
  default 0 (m !! userId).

Inductive Event :=
| ProfileCreated (user : address) (username : list Z) (timestamp : Z)
| MessageSent (messageId : Z) (recipient : address) (timestamp : Z)
| MessageRead (messageId : Z) (reader : address) (timestamp : Z).

Record State := mkState {
  profiles : gmap Z UserProfile.t;
  userIdToAddress : gmap (list Z) address;
  userMessages : gmap Z (list Z);
  messages : gmap Z Message.t;
  encryptedMessages : gmap Z euint128;
  messageCounter : Z;
  nonce : Z;
  acl : list (euint128 * address);
  events : list Event
}.

(** The state the constructor leaves: [messageCounter = 1; nonce = 0]. *)
Definition initial : State := mkState ∅ ∅ ∅ ∅ ∅ 1 0 [] [].

Definition upd_profiles (f : gmap Z UserProfile.t -> gmap Z UserProfile.t) (s : State) : State :=
  mkState (f (profiles s)) (userIdToAddress s) (userMessages s) (messages s)
          (encryptedMessages s) (messageCounter s) (nonce s) (acl s) (events s).
Definition upd_userIdToAddress (f : gmap (list Z) address -> gmap (list Z) address) (s : State) : State :=
  mkState (profiles s) (f (userIdToAddress s)) (userMessages s) (messages s)
          (encryptedMessages s) (messageCounter s) (nonce s) (acl s) (events s).
Definition upd_userMessages (f : gmap Z (list Z) -> gmap Z (list Z)) (s : State) : State :=
  mkState (profiles s) (userIdToAddress s) (f (userMessages s)) (messages s)
          (encryptedMessages s) (messageCounter s) (nonce s) (acl s) (events s).
Definition upd_messages (f : gmap Z Message.t -> gmap Z Message.t) (s : State) : State :=
  mkState (profiles s) (userIdToAddress s) (userMessages s) (f (messages s))
          (encryptedMessages s) (messageCounter s) (nonce s) (acl s) (events s).
Definition upd_encryptedMessages (f : gmap Z euint128 -> gmap Z euint128) (s : State) : State :=
  mkState (profiles s) (userIdToAddress s) (userMessages s) (messages s)
          (f (encryptedMessages s)) (messageCounter s) (nonce s) (acl s) (events s).
Definition set_messageCounter (n : Z) (s : State) : State :=
  mkState (profiles s) (userIdToAddress s) (userMessages s) (messages s)
          (encryptedMessages s) n (nonce s) (acl s) (events s).
Definition set_nonce (n : Z) (s : State) : State :=
  mkState (profiles s) (userIdToAddress s) (userMessages s) (messages s)
          (encryptedMessages s) (messageCounter s) n (acl s) (events s).
Definition upd_acl (f : list (euint128 * address) -> list (euint128 * address)) (s : State) : State :=
  mkState (profiles s) (userIdToAddress s) (userMessages s) (messages s)
          (encryptedMessages s) (messageCounter s) (nonce s) (f (acl s)) (events s).
Definition upd_events (f : list Event -> list Event) (s : State) : State :=
  mkState (profiles s) (userIdToAddress s) (userMessages s) (messages s)
          (encryptedMessages s) (messageCounter s) (nonce s) (acl s) (f (events s)).

(** ** Execution of a call *)

Inductive Outcome (A : Type) :=
| Ok (a : A) (s : State)
| Fail (f : Failure) (s : State).
Arguments Ok {A} a s.
Arguments Fail {A} f s.

Definition M (A : Type) : Type := State -> Outcome A.

Global Instance M_ret : MRet M := λ A a s, Ok a s.
Global Instance M_bind : MBind M := λ A B f m s,
  match m s with
  | Ok a s' => f a s'
  | Fail e s' => Fail e s'
  end.

Definition require (c : bool) (reason : string) : M unit :=
  λ s, if c then Ok tt s else Fail (Revert reason) s.
Definition gets {A} (f : State -> A) : M A := λ s, Ok (f s) s.
Definition modify (f : State -> State) : M unit := λ s, Ok tt (f s).
Definition emit (e : Event) : M unit := modify (upd_events (λ l, l ++ [e])).
Definition checked_add (a b : Z) : M Z :=
  λ s, if a + b <=? MAX_UINT256 then Ok (a + b) s else Fail (Panic 0x11) s.

(** An array access: an index out of range stops the call. *)
Definition in_range {A} (x : option A) : M A :=
  λ s, match x with Some a => Ok a s | None => Fail (Panic 0x32) s end.

Definition call {A} (m : M A) (s : State) : (Failure + A) * State :=
  match m s with
  | Ok a s' => (inr a, s')
  | Fail f _ => (inl f, s)
  end.

Definition succeeds {A} (r : Outcome A) : Prop := ∃ a s', r = Ok a s'.
Definition rejected {A} (r : Outcome A) (s : State) : Prop :=
  ∃ reason, r = Fail (Revert reason) s.

(** ** Memory arrays *)

(** [a[i]] and [a[i] = x] on a memory array; [None] when [i] is out of
    range. *)
Definition index {A} (a : list A) (i : Z) : option A :=
  if (0 <=? i) && (i <? Z.of_nat (length a)) then a !! Z.to_nat i else None.
Definition store {A} (a : list A) (i : Z) (x : A) : option (list A) :=
  if (0 <=? i) && (i <? Z.of_nat (length a))
  then Some (<[Z.to_nat i := x]> a) else None.

(** ** [toHexString] *)

Definition hexChars : list Z := bytes_of "0123456789abcdef".

(** The loop [for (uint i = 0; i < data.length; i++)]: [todo] counts the
    iterations left; [data[i] >> 4] and [data[i] & 0x0f] on a byte. *)
Fixpoint toHexString_loop (todo : nat) (data : list Z) (i : Z) (str : list Z)
    : option (list Z) :=
  match todo with
  | O => Some str
  | S todo' =>
      d ← index data i;
      hi ← index hexChars (Z.shiftr d 4);
      str1 ← store str (i * 2) hi;
      lo ← index hexChars (Z.land d 0x0f);
      str2 ← store str1 (i * 2 + 1) lo;
      toHexString_loop todo' data (i + 1) str2
  end.

Definition toHexString (data : list Z) : option (list Z) :=
  let str := replicate (length data * 2) 0 in
  toHexString_loop (length data) data 0 str.

(** ** The hash *)

(** [keccak256(abi.encodePacked(msg.sender, block.timestamp, nonce))],
    outside the repository: the [bytes32] it returns, read as a number
    with the first byte highest. *)
Class Keccak256 := keccak256 : address -> Z -> Z -> Z.

(** [hash[i]] on a [bytes32]. *)
Definition bytes32_at (hash : Z) (i : Z) : option Z :=
  if (0 <=? i) && (i <? 32)
  then Some (Z.land (Z.shiftr hash (8 * (31 - i))) 0xFF) else None.

(** The loop [for (uint i = 0; i < 4; i++) hashBytes[i] = hash[i]]. *)
Fixpoint hashBytes_loop (todo : nat) (hash : Z) (i : Z) (hashBytes : list Z)
    : option (list Z) :=
  match todo with
  | O => Some hashBytes
  | S todo' =>
      b ← bytes32_at hash i;
      hashBytes' ← store hashBytes i b;
      hashBytes_loop todo' hash (i + 1) hashBytes'
  end.

Section Contract.
Context `{FHEVM} `{Keccak256}.

Definition FHE_fromExternal (input : externalEuint128) (inputProof : bytes) : M euint128 :=
  λ s, match fromExternal input inputProof with
       | Some c => Ok c s
       | None => Fail EngineRevert s
       end.
Definition FHE_allow (c : euint128) (a : address) : M unit :=
  modify (upd_acl (cons (c, a))).
Definition FHE_allowThis (c : euint128) : M unit := FHE_allow c this.

(** *** Modifiers *)
Definition profileExists (user : address) : M unit :=
  x ← gets (λ s, (profiles s).[user]);
  require (UserProfile.isActive x) "Profile does not exist".

Definition messageExists (messageId : Z) : M unit :=
  n ← gets messageCounter;
  require ((0 <? messageId) && (messageId <? n)) "Message does not exist".

Definition onlyRecipient (env : Env) (messageId : Z) : M unit :=
  r ← gets (λ s, Message.recipient (messages s).[messageId]);
  require (bool_decide (r = msg_sender env)) "Not the recipient".

(** *** [generateUserId] and [createProfile] *)
Definition generateUserId (env : Env) : M (list Z) :=
  n ← gets nonce;
  n' ← checked_add n 1;
  modify (set_nonce n');;
  n ← gets nonce;
  let hash := keccak256 (msg_sender env) (block_timestamp env) n in
  hashBytes ← in_range (hashBytes_loop 4 hash 0 (replicate 4 0));
  in_range (toHexString hashBytes).

Definition createProfile (env : Env) : M unit :=
  x ← gets (λ s, (profiles s).[msg_sender env]);
  require (negb (UserProfile.isActive x)) "Profile already exists";;
  userId ← generateUserId env;
  let username := bytes_of "user_" ++ userId in
  modify (upd_profiles
    <[msg_sender env := UserProfile.mk (msg_sender env) userId username 0
                          (block_timestamp env) true]>);;
  modify (upd_userIdToAddress <[userId := msg_sender env]>);;
  emit (ProfileCreated (msg_sender env) username (block_timestamp env)).

(** *** [sendAnonymousMessage] *)
Definition sendAnonymousMessage (env : Env) (recipientUserId : list Z)
    (encryptedContent : externalEuint128) (inputProof : bytes) : M Z :=
  recipient ← gets (λ s, at_id (userIdToAddress s) recipientUserId);
  require (negb (bool_decide (recipient = 0))) "User ID does not exist";;
  x ← gets (λ s, (profiles s).[recipient]);
  require (UserProfile.isActive x) "Profile does not exist";;
  messageId ← gets messageCounter;
  n' ← checked_add messageId 1;
  modify (set_messageCounter n');;
  modify (upd_messages
    <[messageId := Message.mk messageId recipient (block_timestamp env) false]>);;
  content ← FHE_fromExternal encryptedContent inputProof;
  modify (upd_encryptedMessages <[messageId := content]>);;
  FHE_allow content recipient;;
  FHE_allowThis content;;
  modify (upd_userMessages (λ m, <[recipient := m.[recipient] ++ [messageId]]> m));;
  x ← gets (λ s, (profiles s).[recipient]);
  c ← checked_add (UserProfile.messageCount x) 1;
  modify (upd_profiles (λ m, <[recipient := UserProfile.set_messageCount c m.[recipient]]> m));;
  emit (MessageSent messageId recipient (block_timestamp env));;
  mret messageId.

(** *** Reading messages *)
Definition getMyMessages (env : Env) : M (list Z) :=
  gets (λ s, (userMessages s).[msg_sender env]).

Definition getMessage (env : Env) (messageId : Z) : M Message.t :=
  messageExists messageId;;
  onlyRecipient env messageId;;
  gets (λ s, (messages s).[messageId]).

Definition getEncryptedMessage (env : Env) (messageId : Z) : M euint128 :=
  messageExists messageId;;
  onlyRecipient env messageId;;
  gets (λ s, (encryptedMessages s).[messageId]).

Definition requestMessageAccess (env : Env) (messageId : Z) : M unit :=
  messageExists messageId;;
  onlyRecipient env messageId;;
  content ← gets (λ s, (encryptedMessages s).[messageId]);
  FHE_allow content (msg_sender env).

Definition markAsRead (env : Env) (messageId : Z) : M unit :=
  messageExists messageId;;
  onlyRecipient env messageId;;
  x ← gets (λ s, (messages s).[messageId]);
  require (negb (Message.isRead x)) "Message already read";;
  modify (upd_messages (λ m, <[messageId := Message.set_isRead true m.[messageId]]> m));;
  emit (MessageRead messageId (msg_sender env) (block_timestamp env)).

(** *** Reading profiles *)
Definition getProfile (user : address) : M UserProfile.t :=
  profileExists user;;
  gets (λ s, (profiles s).[user]).

Definition getProfileByUserId (userId : list Z) : M UserProfile.t :=
  user ← gets (λ s, at_id (userIdToAddress s) userId);
  require (negb (bool_decide (user = 0))) "User ID does not exist";;
  x ← gets (λ s, (profiles s).[user]);
  require (UserProfile.isActive x) "Profile does not exist";;
  gets (λ s, (profiles s).[user]).

Definition getAddressFromUserId (userId : list Z) : M address :=
  user ← gets (λ s, at_id (userIdToAddress s) userId);
  require (negb (bool_decide (user = 0))) "User ID does not exist";;
  mret user.

(** *** [getUnreadCount] *)

(** The loop [for (uint256 i = 0; i < messageIds.length; i++)]: [todo]
    counts the iterations left. *)
Fixpoint getUnreadCount_loop (todo : nat) (messageIds : list Z) (i unreadCount : Z)
    : M Z :=
  match todo with
  | O => mret unreadCount
  | S todo' =>
      messageId ← in_range (index messageIds i);
      x ← gets (λ s, (messages s).[messageId]);
      unreadCount' ← (if negb (Message.isRead x)
                      then checked_add unreadCount 1 else mret unreadCount);
      i' ← checked_add i 1;
      getUnreadCount_loop todo' messageIds i' unreadCount'
  end.

Definition getUnreadCount (env : Env) : M Z :=
  messageIds ← gets (λ s, (userMessages s).[msg_sender env]);
  getUnreadCount_loop (length messageIds) messageIds 0 0.

(** *** [getMessagesPaginated] *)

(** The loop [for (uint256 i = 0; i < resultSize; i++)]. *)
Fixpoint getMessagesPaginated_loop (todo : nat) (allMessages : list Z)
    (offset i : Z) (result : list Z) : M (list Z) :=
  match todo with
  | O => mret result
  | S todo' =>
      j ← checked_add offset i;
      x ← in_range (index allMessages j);
      result' ← in_range (store result i x);
      i' ← checked_add i 1;
      getMessagesPaginated_loop todo' allMessages offset i' result'
  end.

Definition getMessagesPaginated (env : Env) (offset limit : Z) : M (list Z) :=
  allMessages ← gets (λ s, (userMessages s).[msg_sender env]);
  let len := Z.of_nat (length allMessages) in
  if offset >=? len then mret []
  else
    let remaining := len - offset in
    let resultSize := if remaining <? limit then remaining else limit in
    let result := replicate (Z.to_nat resultSize) 0 in
    getMessagesPaginated_loop (Z.to_nat resultSize) allMessages offset 0 result.

(** ** Histories *)

Inductive Call :=
| CreateProfile
| SendAnonymousMessage (recipientUserId : list Z)
    (encryptedContent : externalEuint128) (inputProof : bytes)
| RequestMessageAccess (messageId : Z)
| MarkAsRead (messageId : Z).

Definition exec (env : Env) (c : Call) : M unit :=
  match c with
  | CreateProfile => createProfile env
  | SendAnonymousMessage recipientUserId e p =>
      sendAnonymousMessage env recipientUserId e p;; mret tt
  | RequestMessageAccess messageId => requestMessageAccess env messageId
  | MarkAsRead messageId => markAsRead env messageId
  end.

Definition step (s : State) (tx : Env * Call) : State :=
  snd (call (exec (fst tx) (snd tx)) s).

Definition run (txs : list (Env * Call)) (s : State) : State :=
  fold_left step txs s.

Definition reachable (s : State) : Prop := ∃ txs, s = run txs initial.

End Contract.

(** ** Notions used in the statements *)

Definition message_exists (s : State) (messageId : Z) : Prop :=
  0 < messageId < messageCounter s.

Definition is_byte (b : Z) : Prop := 0 ≤ b < 256.

(** A lower-case hexadecimal digit, as a character code. *)
Definition is_hex_digit (c : Z) : Prop :=
  0x30 ≤ c ≤ 0x39 ∨ 0x61 ≤ c ≤ 0x66.

(** The digit for a value below 16, and the value of a digit. *)
Definition hex_digit (v : Z) : Z := if v <? 10 then 0x30 + v else 0x61 + (v - 10).

Definition hex_value (c : Z) : Z :=
  if c <=? 0x39 then c - 0x30 else c - 0x61 + 10.

(** The ids of a list whose messages are unread. *)
Definition unread (s : State) (l : list Z) : list Z :=
  List.filter (λ messageId, negb (Message.isRead (messages s).[messageId])) l.

(** An engine for the scenarios: the hash of a profile's data is read
    off the nonce. *)
Definition counting_hash : Keccak256 := λ _ _ n, Z.shiftl (0xab00 + n) 224.

(** A scenario: Alice creates her profile and gets the id ["0000ab01"],
    Bob sends her a message, she marks it as read. *)
Definition alice_id : list Z := bytes_of "0000ab01".
Definition profile_created : list (Env * Call) :=
  [(host_env, CreateProfile)].
Definition message_sent : list (Env * Call) :=
  profile_created ++ [(asker_env, SendAnonymousMessage alice_id 55 [])].
Definition message_read : list (Env * Call) :=
  message_sent ++ [(host_env, MarkAsRead 1)].

(** The later state [s'] only adds to [s]: no profile is lost or
    rewritten, no message changes but for being read, no permission is
    taken back, and the inboxes and the event log only grow at their end. *)
Record keeps (s s' : State) : Prop := {
  keeps_counter : messageCounter s ≤ messageCounter s';
  keeps_profile : ∀ a, UserProfile.isActive (profiles s).[a] = true →
    UserProfile.isActive (profiles s').[a] = true ∧
    UserProfile.userAddress (profiles s').[a] = UserProfile.userAddress (profiles s).[a] ∧
    UserProfile.userId (profiles s').[a] = UserProfile.userId (profiles s).[a] ∧
    UserProfile.username (profiles s').[a] = UserProfile.username (profiles s).[a] ∧
    UserProfile.createdAt (profiles s').[a] = UserProfile.createdAt (profiles s).[a];
  keeps_message : ∀ messageId, message_exists s messageId →
    Message.id (messages s').[messageId] = Message.id (messages s).[messageId] ∧
    Message.recipient (messages s').[messageId]
      = Message.recipient (messages s).[messageId] ∧
    Message.timestamp (messages s').[messageId]
      = Message.timestamp (messages s).[messageId] ∧
    (Message.isRead (messages s).[messageId] = true →
       Message.isRead (messages s').[messageId] = true) ∧
    (encryptedMessages s').[messageId] = (encryptedMessages s).[messageId];
  keeps_acl : ∀ grant, grant ∈ acl s → grant ∈ acl s';
  keeps_events : events s `prefix_of` events s';
  keeps_inbox : ∀ a, (userMessages s).[a] `prefix_of` (userMessages s').[a]
}.

(** The books are kept: what the inboxes, the directory of ids and the
    permission list say agrees with the profiles and messages stored. *)
Record tidy `{FHEVM} (s : State) : Prop := {
  counter_range : 1 ≤ messageCounter s ≤ MAX_UINT256;
  message_shape : ∀ messageId, message_exists s messageId →
    Message.id (messages s).[messageId] = messageId ∧
    UserProfile.isActive (profiles s).[Message.recipient (messages s).[messageId]]
      = true;
  inbox_exact : ∀ a messageId,
    messageId ∈ (userMessages s).[a] ↔
    message_exists s messageId ∧ Message.recipient (messages s).[messageId] = a;
  inbox_sorted : ∀ a, StronglySorted Z.lt (userMessages s).[a];
  inbox_count : ∀ a,
    UserProfile.messageCount (profiles s).[a]
      = Z.of_nat (length (userMessages s).[a]);
  directory_active : ∀ userId,
    at_id (userIdToAddress s) userId ≠ 0 →
    UserProfile.isActive (profiles s).[at_id (userIdToAddress s) userId] = true ∧
    UserProfile.userId (profiles s).[at_id (userIdToAddress s) userId] = userId;
  profile_shape : ∀ a, UserProfile.isActive (profiles s).[a] = true →
    UserProfile.userAddress (profiles s).[a] = a ∧
    UserProfile.username (profiles s).[a]
      = bytes_of "user_" ++ UserProfile.userId (profiles s).[a] ∧
    length (UserProfile.userId (profiles s).[a]) = 8%nat ∧
    Forall is_hex_digit (UserProfile.userId (profiles s).[a]);
  permissions_justified : ∀ c a, (c, a) ∈ acl s →
    a = this ∨
    ∃ messageId, message_exists s messageId ∧
      c = (encryptedMessages s).[messageId] ∧
      a = Message.recipient (messages s).[messageId];
  permissions_complete : ∀ messageId, message_exists s messageId →
    ((encryptedMessages s).[messageId], this) ∈ acl s ∧
    ((encryptedMessages s).[messageId],
     Message.recipient (messages s).[messageId]) ∈ acl s
}.

End WhisperBox.

(* ===================================================================== *)
(** * Part 2c: the [AnonAsk] contract                                     *)
(* ===================================================================== *)

(** The contract with public answers: sessions as in [PrivateQA] (the
    [Session] struct is the same), questions without an asker that the
    host answers in plain text or approves, and that anybody may upvote
    once. *)
Module AnonAsk.
Import PrivateQA.
Local Open Scope Z_scope.

Module Question.
Record t := mk {
  id : Z;
  sessionId : Z;
  timestamp : Z;
  isAnswered : bool;
  isApproved : bool;
  answer : string;
  upvotes : Z
}.
Definition set_answer (a : string) (x : t) : t :=
  mk (id x) (sessionId x) (timestamp x) (isAnswered x) (isApproved x) a (upvotes x).
Definition set_isAnswered (b : bool) (x : t) : t :=
  mk (id x) (sessionId x) (timestamp x) b (isApproved x) (answer x) (upvotes x).
Definition set_isApproved (b : bool) (x : t) : t :=
  mk (id x) (sessionId x) (timestamp x) (isAnswered x) b (answer x) (upvotes x).
Definition set_upvotes (n : Z) (x : t) : t :=
  mk (id x) (sessionId x) (timestamp x) (isAnswered x) (isApproved x) (answer x) n.
End Question.

Global Instance Question_zero : Zero Question.t :=
  Question.mk 0 0 0 false false "" 0.

(** The mapping [hasUpvoted], keyed by question and address. *)
Definition voted (m : gmap (Z * Z) bool) (questionId : Z) (a : address) : bool :=
  default false (m !! (questionId, a)).

Inductive Event :=
| SessionCreated (sessionId : Z) (host : address) (topic : string) (expiresAt : Z)
| QuestionSubmitted (questionId sessionId : Z) (timestamp : Z)
| QuestionAnswered (questionId sessionId : Z) (answer : string)
| QuestionApproved (questionId : Z)
| QuestionUpvoted (questionId : Z) (newUpvoteCount : Z)
| SessionClosed (sessionId : Z).

Record State := mkState {
  sessions : gmap Z Session.t;
  questions : gmap Z Question.t;
  encryptedQuestions : gmap Z euint128;
  sessionQuestions : gmap Z (list Z);
  hostSessions : gmap Z (list Z);
  hasUpvoted : gmap (Z * Z) bool;
  sessionCount : Z;
  questionCount : Z;
  acl : list (euint128 * address);
  events : list Event
}.

Definition initial : State := mkState ∅ ∅ ∅ ∅ ∅ ∅ 0 0 [] [].

Definition upd_sessions (f : gmap Z Session.t -> gmap Z Session.t) (s : State) : State :=
  mkState (f (sessions s)) (questions s) (encryptedQuestions s) (sessionQuestions s)
          (hostSessions s) (hasUpvoted s) (sessionCount s) (questionCount s)
          (acl s) (events s).
Definition upd_questions (f : gmap Z Question.t -> gmap Z Question.t) (s : State) : State :=
  mkState (sessions s) (f (questions s)) (encryptedQuestions s) (sessionQuestions s)
          (hostSessions s) (hasUpvoted s) (sessionCount s) (questionCount s)
          (acl s) (events s).
Definition upd_encryptedQuestions (f : gmap Z euint128 -> gmap Z euint128) (s : State) : State :=
  mkState (sessions s) (questions s) (f (encryptedQuestions s)) (sessionQuestions s)
          (hostSessions s) (hasUpvoted s) (sessionCount s) (questionCount s)
          (acl s) (events s).
Definition upd_sessionQuestions (f : gmap Z (list Z) -> gmap Z (list Z)) (s : State) : State :=
  mkState (sessions s) (questions s) (encryptedQuestions s) (f (sessionQuestions s))
          (hostSessions s) (hasUpvoted s) (sessionCount s) (questionCount s)
          (acl s) (events s).
Definition upd_hostSessions (f : gmap Z (list Z) -> gmap Z (list Z)) (s : State) : State :=
  mkState (sessions s) (questions s) (encryptedQuestions s) (sessionQuestions s)
          (f (hostSessions s)) (hasUpvoted s) (sessionCount s) (questionCount s)
          (acl s) (events s).
Definition upd_hasUpvoted (f : gmap (Z * Z) bool -> gmap (Z * Z) bool) (s : State) : State :=
  mkState (sessions s) (questions s) (encryptedQuestions s) (sessionQuestions s)
          (hostSessions s) (f (hasUpvoted s)) (sessionCount s) (questionCount s)
          (acl s) (events s).
Definition set_sessionCount (n : Z) (s : State) : State :=
  mkState (sessions s) (questions s) (encryptedQuestions s) (sessionQuestions s)
          (hostSessions s) (hasUpvoted s) n (questionCount s) (acl s) (events s).
Definition set_questionCount (n : Z) (s : State) : State :=
  mkState (sessions s) (questions s) (encryptedQuestions s) (sessionQuestions s)
          (hostSessions s) (hasUpvoted s) (sessionCount s) n (acl s) (events s).
Definition upd_acl (f : list (euint128 * address) -> list (euint128 * address)) (s : State) : State :=
  mkState (sessions s) (questions s) (encryptedQuestions s) (sessionQuestions s)
          (hostSessions s) (hasUpvoted s) (sessionCount s) (questionCount s)
          (f (acl s)) (events s).
Definition upd_events (f : list Event -> list Event) (s : State) : State :=
  mkState (sessions s) (questions s) (encryptedQuestions s) (sessionQuestions s)
          (hostSessions s) (hasUpvoted s) (sessionCount s) (questionCount s)
          (acl s) (f (events s)).

(** ** Execution of a call *)

Inductive Outcome (A : Type) :=
| Ok (a : A) (s : State)
| Fail (f : Failure) (s : State).
Arguments Ok {A} a s.
Arguments Fail {A} f s.

Definition M (A : Type) : Type := State -> Outcome A.

Global Instance M_ret : MRet M := λ A a s, Ok a s.
Global Instance M_bind : MBind M := λ A B f m s,
  match m s with
  | Ok a s' => f a s'
  | Fail e s' => Fail e s'
  end.

Definition require (c : bool) (reason : string) : M unit :=
  λ s, if c then Ok tt s else Fail (Revert reason) s.
Definition gets {A} (f : State -> A) : M A := λ s, Ok (f s) s.
Definition modify (f : State -> State) : M unit := λ s, Ok tt (f s).
Definition emit (e : Event) : M unit := modify (upd_events (λ l, l ++ [e])).
Definition checked_add (a b : Z) : M Z :=
  λ s, if a + b <=? MAX_UINT256 then Ok (a + b) s else Fail (Panic 0x11) s.

Definition call {A} (m : M A) (s : State) : (Failure + A) * State :=
  match m s with
  | Ok a s' => (inr a, s')
  | Fail f _ => (inl f, s)
  end.

Definition succeeds {A} (r : Outcome A) : Prop := ∃ a s', r = Ok a s'.
Definition rejected {A} (r : Outcome A) (s : State) : Prop :=
  ∃ reason, r = Fail (Revert reason) s.

Section Contract.
Context `{FHEVM}.

Definition FHE_fromExternal (input : externalEuint128) (inputProof : bytes) : M euint128 :=
  λ s, match fromExternal input inputProof with
       | Some c => Ok c s
       | None => Fail EngineRevert s
       end.
Definition FHE_allow (c : euint128) (a : address) : M unit :=
  modify (upd_acl (cons (c, a))).
Definition FHE_allowThis (c : euint128) : M unit := FHE_allow c this.

(** *** Modifiers and the checks written out in the functions *)
Definition onlyHost (env : Env) (sessionId : Z) : M unit :=
  h ← gets (λ s, Session.host (sessions s).[sessionId]);
  require (bool_decide (h = msg_sender env)) "Not session host".

Definition sessionExists (sessionId : Z) : M unit :=
  n ← gets sessionCount;
  require ((0 <? sessionId) && (sessionId <=? n)) "Session does not exist".

Definition sessionActive (env : Env) (sessionId : Z) : M unit :=
  x ← gets (λ s, (sessions s).[sessionId]);
  require (Session.isActive x) "Session not active";;
  require (block_timestamp env <? Session.expiresAt x) "Session expired".

Definition validQuestionId (questionId : Z) : M unit :=
  n ← gets questionCount;
  require ((0 <? questionId) && (questionId <=? n)) "Invalid question ID".

(** *** [createSession] *)
Definition createSession (env : Env) (topic description : string) (duration : Z) : M Z :=
  require (0 <? Z.of_nat (String.length topic)) "Topic cannot be empty";;
  require (0 <? duration) "Duration must be positive";;
  n ← gets sessionCount;
  n' ← checked_add n 1;
  modify (set_sessionCount n');;
  expiresAt ← checked_add (block_timestamp env) duration;
  sc ← gets sessionCount;
  modify (upd_sessions
    <[sc := Session.mk sc (msg_sender env) topic description
              (block_timestamp env) expiresAt true 0 0]>);;
  modify (upd_hostSessions
    (λ m, <[msg_sender env := m.[msg_sender env] ++ [sc]]> m));;
  emit (SessionCreated sc (msg_sender env) topic expiresAt);;
  gets sessionCount.

(** *** [submitQuestion] *)
Definition submitQuestion (env : Env) (sessionId : Z)
    (encryptedQuestion : externalEuint128) (inputProof : bytes) : M Z :=
  sessionExists sessionId;;
  sessionActive env sessionId;;
  n ← gets questionCount;
  n' ← checked_add n 1;
  modify (set_questionCount n');;
  question ← FHE_fromExternal encryptedQuestion inputProof;
  qc ← gets questionCount;
  modify (upd_encryptedQuestions <[qc := question]>);;
  FHE_allowThis question;;
  h ← gets (λ s, Session.host (sessions s).[sessionId]);
  FHE_allow question h;;
  modify (upd_questions
    <[qc := Question.mk qc sessionId (block_timestamp env) false false "" 0]>);;
  modify (upd_sessionQuestions (λ m, <[sessionId := m.[sessionId] ++ [qc]]> m));;
  x ← gets (λ s, (sessions s).[sessionId]);
  c ← checked_add (Session.questionCount x) 1;
  modify (upd_sessions (λ m, <[sessionId := Session.set_questionCount c m.[sessionId]]> m));;
  emit (QuestionSubmitted qc sessionId (block_timestamp env));;
  gets questionCount.

(** *** [requestQuestionAccess] and [getEncryptedQuestion] *)
Definition requestQuestionAccess (env : Env) (questionId : Z) : M unit :=
  validQuestionId questionId;;
  sessionId ← gets (λ s, Question.sessionId (questions s).[questionId]);
  h ← gets (λ s, Session.host (sessions s).[sessionId]);
  require (bool_decide (h = msg_sender env)) "Not session host";;
  c ← gets (λ s, (encryptedQuestions s).[questionId]);
  FHE_allow c (msg_sender env).

Definition getEncryptedQuestion (env : Env) (questionId : Z) : M euint128 :=
  validQuestionId questionId;;
  sessionId ← gets (λ s, Question.sessionId (questions s).[questionId]);
  h ← gets (λ s, Session.host (sessions s).[sessionId]);
  require (bool_decide (h = msg_sender env)) "Not session host";;
  gets (λ s, (encryptedQuestions s).[questionId]).

(** *** [answerQuestion], with the answer in plain text *)
Definition answerQuestion (env : Env) (questionId : Z) (answer : string) : M unit :=
  validQuestionId questionId;;
  sessionId ← gets (λ s, Question.sessionId (questions s).[questionId]);
  h ← gets (λ s, Session.host (sessions s).[sessionId]);
  require (bool_decide (h = msg_sender env)) "Not session host";;
  q ← gets (λ s, (questions s).[questionId]);
  require (negb (Question.isAnswered q)) "Already answered";;
  require (0 <? Z.of_nat (String.length answer)) "Answer cannot be empty";;
  modify (upd_questions (λ m, <[questionId := Question.set_answer answer m.[questionId]]> m));;
  modify (upd_questions (λ m, <[questionId := Question.set_isAnswered true m.[questionId]]> m));;
  modify (upd_questions (λ m, <[questionId := Question.set_isApproved true m.[questionId]]> m));;
  x ← gets (λ s, (sessions s).[sessionId]);
  c ← checked_add (Session.answeredCount x) 1;
  modify (upd_sessions (λ m, <[sessionId := Session.set_answeredCount c m.[sessionId]]> m));;
  emit (QuestionAnswered questionId sessionId answer).

(** *** [approveQuestion] *)
Definition approveQuestion (env : Env) (questionId : Z) : M unit :=
  validQuestionId questionId;;
  sessionId ← gets (λ s, Question.sessionId (questions s).[questionId]);
  h ← gets (λ s, Session.host (sessions s).[sessionId]);
  require (bool_decide (h = msg_sender env)) "Not session host";;
  q ← gets (λ s, (questions s).[questionId]);
  require (negb (Question.isApproved q)) "Already approved";;
  modify (upd_questions (λ m, <[questionId := Question.set_isApproved true m.[questionId]]> m));;
  emit (QuestionApproved questionId).

(** *** [upvoteQuestion] *)
Definition upvoteQuestion (env : Env) (questionId : Z) : M unit :=
  validQuestionId questionId;;
  v ← gets (λ s, voted (hasUpvoted s) questionId (msg_sender env));
  require (negb v) "Already upvoted";;
  q ← gets (λ s, (questions s).[questionId]);
  n ← checked_add (Question.upvotes q) 1;
  modify (upd_questions (λ m, <[questionId := Question.set_upvotes n m.[questionId]]> m));;
  modify (upd_hasUpvoted <[(questionId, msg_sender env) := true]>);;
  n' ← gets (λ s, Question.upvotes (questions s).[questionId]);
  emit (QuestionUpvoted questionId n').

(** *** [closeSession] *)
Definition closeSession (env : Env) (sessionId : Z) : M unit :=
  sessionExists sessionId;;
  onlyHost env sessionId;;
  x ← gets (λ s, (sessions s).[sessionId]);
  require (Session.isActive x) "Session already closed";;
  modify (upd_sessions (λ m, <[sessionId := Session.set_isActive false m.[sessionId]]> m));;
  emit (SessionClosed sessionId).

(** *** Read accessors *)
Definition getSessionQuestions (sessionId : Z) : M (list Z) :=
  sessionExists sessionId;;
  gets (λ s, (sessionQuestions s).[sessionId]).

Definition getHostSessions (host : address) : M (list Z) :=
  gets (λ s, (hostSessions s).[host]).

Definition getSession (sessionId : Z) : M Session.t :=
  sessionExists sessionId;;
  gets (λ s, (sessions s).[sessionId]).

Definition getQuestion (questionId : Z) : M Question.t :=
  validQuestionId questionId;;
  gets (λ s, (questions s).[questionId]).

Definition isSessionExpired (env : Env) (sessionId : Z) : M bool :=
  sessionExists sessionId;;
  gets (λ s, block_timestamp env >=? Session.expiresAt (sessions s).[sessionId]).

(** ** Histories *)

Inductive Call :=
| CreateSession (topic description : string) (duration : Z)
| SubmitQuestion (sessionId : Z) (encryptedQuestion : externalEuint128) (inputProof : bytes)
| RequestQuestionAccess (questionId : Z)
| AnswerQuestion (questionId : Z) (answer : string)
| ApproveQuestion (questionId : Z)
| UpvoteQuestion (questionId : Z)
| CloseSession (sessionId : Z).

Definition exec (env : Env) (c : Call) : M unit :=
  match c with
  | CreateSession topic description duration =>
      createSession env topic description duration;; mret tt
  | SubmitQuestion sessionId e p => submitQuestion env sessionId e p;; mret tt
  | RequestQuestionAccess questionId => requestQuestionAccess env questionId
  | AnswerQuestion questionId answer => answerQuestion env questionId answer
  | ApproveQuestion questionId => approveQuestion env questionId
  | UpvoteQuestion questionId => upvoteQuestion env questionId
  | CloseSession sessionId => closeSession env sessionId
  end.

Definition step (s : State) (tx : Env * Call) : State :=
  snd (call (exec (fst tx) (snd tx)) s).

Definition run (txs : list (Env * Call)) (s : State) : State :=
  fold_left step txs s.

Definition reachable (s : State) : Prop := ∃ txs, s = run txs initial.

End Contract.

(** ** Notions used in the statements *)

Definition question_exists (s : State) (questionId : Z) : Prop :=
  0 < questionId ≤ questionCount s.

(** The entries of [hasUpvoted] that say somebody has upvoted a question:
    one per address. *)
Definition upvoters (s : State) (questionId : Z) : gmap (Z * Z) bool :=
  filter (λ kv, kv.1.1 = questionId ∧ kv.2 = true) (hasUpvoted s).

(** Votes are counted once per address, and nobody has voted on an id
    that is not a question's. *)
Record sound (s : State) : Prop := {
  count_nonneg : 0 ≤ questionCount s;
  upvotes_counted : ∀ questionId,
    Question.upvotes (questions s).[questionId]
      = Z.of_nat (size (upvoters s questionId));
  votes_exist : ∀ questionId a,
    voted (hasUpvoted s) questionId a = true → question_exists s questionId
}.

(** The later state [s'] only adds to [s]: votes, approvals and answers
    stay. *)
Record stays (s s' : State) : Prop := {
  stays_count : questionCount s ≤ questionCount s';
  stays_voted : ∀ questionId a,
    voted (hasUpvoted s) questionId a = true →
    voted (hasUpvoted s') questionId a = true;
  stays_question : ∀ questionId, question_exists s questionId →
    Question.id (questions s').[questionId] = Question.id (questions s).[questionId] ∧
    Question.sessionId (questions s').[questionId]
      = Question.sessionId (questions s).[questionId] ∧
    Question.timestamp (questions s').[questionId]
      = Question.timestamp (questions s).[questionId] ∧
    Question.upvotes (questions s).[questionId]
      ≤ Question.upvotes (questions s').[questionId] ∧
    (Question.isApproved (questions s).[questionId] = true →
       Question.isApproved (questions s').[questionId] = true) ∧
    (Question.isAnswered (questions s).[questionId] = true →
       Question.isAnswered (questions s').[questionId] = true ∧
       Question.answer (questions s').[questionId]
         = Question.answer (questions s).[questionId])
}.

(** A scenario: the host opens a session, a question is submitted, two
    users upvote it, the host answers it. *)
Definition carol : address := 0xCA401.
Definition question_upvoted : list (Env * Call) :=
  [(host_env, CreateSession "AMA" "desc" 3600);
   (asker_env, SubmitQuestion 1 77 []);
   (asker_env, UpvoteQuestion 1);
   (mkEnv carol 1002, UpvoteQuestion 1)].
Definition question_answered_publicly : list (Env * Call) :=
  question_upvoted ++ [(host_env, AnswerQuestion 1 "Yes.")].

End AnonAsk.

Import WhisperEncryption PrivateQA.
Local Open Scope Z_scope.

(* ===================================================================== *)
(** * Part 3: the contract's properties                                   *)
(* ===================================================================== *)

(** Unfolding a call into the tests it makes, one case per test. *)
Ltac unfold_call :=
  cbv beta iota delta
    [createSession submitQuestion requestQuestionAccess getEncryptedQuestion
     answerQuestion requestAnswerAccess getEncryptedAnswer closeSession exec
     onlyHost sessionExists sessionActive validQuestionId
     FHE_fromExternal FHE_allow FHE_allowThis
     require gets modify emit checked_add mbind M_bind mret M_ret] in *.

Ltac state_simpl :=
  cbn [sessions questions encryptedQuestions encryptedAnswers sessionQuestions
       hostSessions userQuestions sessionCount questionCount acl events
       upd_sessions upd_questions upd_encryptedQuestions upd_encryptedAnswers
       upd_sessionQuestions upd_hostSessions upd_userQuestions
       set_sessionCount set_questionCount upd_acl upd_events
       Session.id Session.host Session.topic Session.description
       Session.createdAt Session.expiresAt Session.isActive
       Session.questionCount Session.answeredCount
       Session.set_isActive Session.set_questionCount Session.set_answeredCount
       Question.id Question.sessionId Question.asker Question.timestamp
       Question.isAnswered Question.set_isAnswered
       fst snd msg_sender block_timestamp] in *.

Ltac case_test :=
  match goal with
  | H : context [if ?c then _ else _] |- _ => destruct c eqn:?
  | |- context [if ?c then _ else _] => destruct c eqn:?
  | H : context [match fromExternal ?a ?b with _ => _ end] |- _ =>
      destruct (fromExternal a b) eqn:?
  | |- context [match fromExternal ?a ?b with _ => _ end] =>
      destruct (fromExternal a b) eqn:?
  end.

Ltac run_call :=
  unfold_call; state_simpl;
  repeat (case_test; cbv beta iota in *; state_simpl).

(** ** Reading a mapping after a write *)

Lemma at_key_insert_eq {V} `{Zero V} (m : gmap Z V) k v : (<[k:=v]> m).[k] = v.
Proof. unfold at_key. by rewrite lookup_insert_eq. Qed.

Lemma at_key_insert_ne {V} `{Zero V} (m : gmap Z V) k k' v :
  k ≠ k' → (<[k:=v]> m).[k'] = m.[k'].
Proof. intros. unfold at_key. by rewrite lookup_insert_ne. Qed.

Lemma rejected_fails {A} (r : Outcome A) s : rejected r s → fails r.
Proof. intros [reason ->]. unfold fails. eauto. Qed.

Ltac bool_to_prop :=
  repeat match goal with
  | H : _ && _ = true |- _ => apply andb_true_iff in H; destruct H
  | H : _ && _ = false |- _ => apply andb_false_iff in H
  | H : negb _ = true |- _ => apply negb_true_iff in H
  | H : negb _ = false |- _ => apply negb_false_iff in H
  | H : bool_decide _ = true |- _ => apply bool_decide_eq_true in H
  | H : bool_decide _ = false |- _ => apply bool_decide_eq_false in H
  | H : (_ <? _) = true |- _ => apply Z.ltb_lt in H
  | H : (_ <? _) = false |- _ => apply Z.ltb_ge in H
  | H : (_ <=? _) = true |- _ => apply Z.leb_le in H
  | H : (_ <=? _) = false |- _ => apply Z.leb_gt in H
  end.

Section Properties.
Context `{FHEVM}.

(** ** Who may call what *)

(** C4. A caller who is not the recorded host of the session is turned
    away by [answerQuestion] and [requestQuestionAccess] (for a question of
    that session) and by [closeSession] (for the session): the call stops
    at a [require] and nothing is written.  Hence whoever succeeds in one
    of the three is the recorded host. *)
Theorem only_host_may_call env s :
  (∀ questionId encryptedAnswer inputProof,
     let host := Session.host (sessions s).[Question.sessionId (questions s).[questionId]] in
     (msg_sender env ≠ host →
        rejected (answerQuestion env questionId encryptedAnswer inputProof s) s ∧
        rejected (requestQuestionAccess env questionId s) s) ∧
     (succeeds (answerQuestion env questionId encryptedAnswer inputProof s) →
        msg_sender env = host) ∧
     (succeeds (requestQuestionAccess env questionId s) → msg_sender env = host)) ∧
  (∀ sessionId,
     let host := Session.host (sessions s).[sessionId] in
     (msg_sender env ≠ host → rejected (closeSession env sessionId s) s) ∧
     (succeeds (closeSession env sessionId s) → msg_sender env = host)).
Proof.
  split.
  - intros q e p host. subst host. split; [|split].
    1: intros Hne; split; run_call; bool_to_prop;
      solve [ congruence | unfold rejected; eauto ].
    all: intros (a & s' & Hok); revert Hok; run_call; bool_to_prop;
      solve [ discriminate | congruence ].
  - intros sid host. subst host. split.
    + intros Hne. run_call; bool_to_prop;
        solve [ congruence | unfold rejected; eauto ].
    + intros (a & s' & Hok); revert Hok; run_call; bool_to_prop;
        solve [ discriminate | congruence ].
Qed.

(** C5. A caller who is not the recorded asker of the question is turned
    away by [requestAnswerAccess] and [getEncryptedAnswer]; whoever
    succeeds in one of them is the asker. *)
Theorem only_asker_may_call env s questionId :
  let asker := Question.asker (questions s).[questionId] in
  (msg_sender env ≠ asker →
     rejected (requestAnswerAccess env questionId s) s ∧
     rejected (getEncryptedAnswer env questionId s) s) ∧
  (succeeds (requestAnswerAccess env questionId s) → msg_sender env = asker) ∧
  (succeeds (getEncryptedAnswer env questionId s) → msg_sender env = asker).
Proof.
  intros asker. subst asker. split; [|split].
  1: intros Hne; split; run_call; bool_to_prop;
    solve [ congruence | unfold rejected; eauto ].
  all: intros (a & s' & Hok); revert Hok; run_call; bool_to_prop;
    solve [ discriminate | congruence ].
Qed.

(** ** No partial effect *)

(** C8. When one of the six state-changing entry points stops, the state
    after the transaction is the state before it.  When it stops at a
    [require] (a validation, authorization or state check), nothing had
    been written yet at that point either: every check comes before the
    first write. *)
Theorem stopped_call_changes_nothing env c s f s' :
  exec env c s = Fail f s' →
  snd (call (exec env c) s) = s ∧
  (∀ reason, f = Revert reason → s' = s).
Proof.
  intros Hfail. split.
  - unfold call. by rewrite Hfail.
  - intros reason ->. revert Hfail.
    destruct c; run_call; intros Hfail; inversion Hfail; reflexivity.
Qed.

(** ** [createSession] *)

Lemma empty_topic (topic : string) :
  Z.of_nat (String.length topic) ≤ 0 ↔ topic = "".
Proof.
  destruct topic; cbn [String.length]; split; intros Ht;
    try reflexivity; try discriminate; lia.
Qed.

(** C3, as the contract has it.  [createSession] stops exactly when the
    topic is empty, the duration is not positive, or a checked [uint256]
    operation overflows: [sessionCount + 1], or [block.timestamp +
    duration].  When it does not stop it returns the next id
    [sessionCount + 1] and stores under it a session with the caller as
    host, [createdAt] the block time, [expiresAt = createdAt + duration >
    createdAt], both counters 0 and [isActive] set; the id is appended to
    the caller's session index. *)
Theorem createSession_spec env topic description duration s :
  (fails (createSession env topic description duration s) ↔
     topic = "" ∨ duration ≤ 0 ∨
     MAX_UINT256 < sessionCount s + 1 ∨
     MAX_UINT256 < block_timestamp env + duration) ∧
  (∀ id s',
     createSession env topic description duration s = Ok id s' →
     id = sessionCount s + 1 ∧
     sessionCount s' = id ∧
     (sessions s').[id] =
       Session.mk id (msg_sender env) topic description
         (block_timestamp env) (block_timestamp env + duration) true 0 0 ∧
     Session.createdAt (sessions s').[id] < Session.expiresAt (sessions s').[id] ∧
     (hostSessions s').[msg_sender env] = (hostSessions s).[msg_sender env] ++ [id]).
Proof.
  split.
  - split.
    + intros (f & s' & Hfail). revert Hfail.
      run_call; try discriminate; intros _; bool_to_prop;
        first [ left; by apply empty_topic | lia ].
    + intros Hwhy. unfold fails.
      run_call; eauto; exfalso; bool_to_prop.
      destruct Hwhy as [Ht | [? | [? | ?]]]; try lia.
      apply empty_topic in Ht. lia.
  - intros id s'. run_call; try discriminate.
    intros Hok. inversion Hok; subst; clear Hok. state_simpl.
    bool_to_prop.
    rewrite !at_key_insert_eq. cbn [Session.createdAt Session.expiresAt].
    repeat split; try reflexivity. lia.
Qed.

(** ** [submitQuestion] *)

(** C1, as the contract has it.  [submitQuestion] stops at a [require]
    when the session does not exist, is not active, or has expired.
    Otherwise, if the engine accepts the encrypted input and neither the
    contract's nor the session's question counter is at the top of
    [uint256], it returns the new question id [questionCount + 1], records
    the caller as asker of that question (not answered), raises the
    session's [questionCount] by one, appends the id to the session's
    index and to the caller's index, and grants the host access to the
    stored handle. *)
Theorem submitQuestion_spec env sessionId encryptedQuestion inputProof s :
  let x := (sessions s).[sessionId] in
  (¬ session_exists s sessionId ∨ Session.isActive x = false ∨
   Session.expiresAt x ≤ block_timestamp env →
     rejected (submitQuestion env sessionId encryptedQuestion inputProof s) s) ∧
  (session_exists s sessionId → Session.isActive x = true →
   block_timestamp env < Session.expiresAt x →
   ∀ handle, fromExternal encryptedQuestion inputProof = Some handle →
   questionCount s < MAX_UINT256 → Session.questionCount x < MAX_UINT256 →
     ∃ s', let id := questionCount s + 1 in
       submitQuestion env sessionId encryptedQuestion inputProof s = Ok id s' ∧
       questionCount s' = id ∧
       Session.questionCount (sessions s').[sessionId] = Session.questionCount x + 1 ∧
       (questions s').[id] =
         Question.mk id sessionId (msg_sender env) (block_timestamp env) false ∧
       (sessionQuestions s').[sessionId] = (sessionQuestions s).[sessionId] ++ [id] ∧
       (userQuestions s').[msg_sender env] = (userQuestions s).[msg_sender env] ++ [id] ∧
       (encryptedQuestions s').[id] = handle ∧
       (handle, Session.host x) ∈ acl s').
Proof.
  intros x. subst x. unfold session_exists. split.
  - intros Hwhy. run_call; bool_to_prop; try solve [unfold rejected; eauto];
      exfalso; destruct Hwhy as [? | [? | ?]]; solve [lia | congruence].
  - intros Hex Hact Hexp handle Hh Hq Hsq.
    run_call; bool_to_prop; try solve [lia | congruence | discriminate].
    eexists. split; [reflexivity|]. state_simpl.
    rewrite !at_key_insert_eq. cbn [Session.questionCount Session.set_questionCount].
    repeat split; try reflexivity; try congruence.
    inversion Hh; subst. apply elem_of_cons. by left.
Qed.

(** ** What a transaction does to the storage *)

(** A transaction either changes nothing or is a call that ended normally. *)
Lemma step_cases s tx :
  step s tx = s ∨ ∃ s', exec tx.1 tx.2 s = Ok tt s' ∧ step s tx = s'.
Proof.
  unfold step, call. destruct (exec tx.1 tx.2 s) as [[] s'|f s'] eqn:He; eauto.
Qed.

Lemma run_snoc txs tx s : run (txs ++ [tx]) s = step (run txs s) tx.
Proof. unfold run. by rewrite fold_left_app. Qed.

Lemma answered_in_app s l1 l2 :
  answered_in s (l1 ++ l2) = (answered_in s l1 + answered_in s l2)%nat.
Proof. unfold answered_in. by rewrite List.filter_app, length_app. Qed.

Lemma answered_in_le s l : (answered_in s l ≤ length l)%nat.
Proof. unfold answered_in. apply List.filter_length_le. Qed.

(** Only the answered flags of the listed questions matter. *)
Lemma answered_in_ext s s' l :
  (∀ q, q ∈ l →
     Question.isAnswered (questions s').[q] = Question.isAnswered (questions s).[q]) →
  answered_in s' l = answered_in s l.
Proof.
  unfold answered_in. induction l as [|q l IH]; intros Hsame; [done|].
  cbn [List.filter]. rewrite (Hsame q) by (apply elem_of_cons; by left).
  assert (Hl : length (List.filter (λ q, Question.isAnswered (questions s').[q]) l) =
               length (List.filter (λ q, Question.isAnswered (questions s).[q]) l)).
  { apply IH. intros q' Hq'. apply Hsame. apply elem_of_cons. by right. }
  destruct (Question.isAnswered (questions s).[q]); cbn [length]; by rewrite Hl.
Qed.

(** Answering one listed, not yet answered question adds one. *)
Lemma answered_in_flip s s' l q0 :
  NoDup l → q0 ∈ l →
  Question.isAnswered (questions s).[q0] = false →
  Question.isAnswered (questions s').[q0] = true →
  (∀ q, q ≠ q0 →
     Question.isAnswered (questions s').[q] = Question.isAnswered (questions s).[q]) →
  answered_in s' l = S (answered_in s l).
Proof.
  intros Hnd Hin Hold Hnew Hother.
  induction l as [|q l IH]; [by apply elem_of_nil in Hin|].
  apply NoDup_cons in Hnd as [Hq Hnd].
  change (q :: l) with ([q] ++ l). rewrite !answered_in_app.
  destruct (decide (q = q0)) as [->|Hne].
  - rewrite (answered_in_ext s s' l).
    + unfold answered_in. cbn [List.filter]. rewrite Hold, Hnew. reflexivity.
    + intros q' Hq'. apply Hother. congruence.
  - apply elem_of_cons in Hin as [?|Hin]; [congruence|].
    rewrite (IH Hnd Hin).
    unfold answered_in at 1 3. cbn [List.filter]. rewrite (Hother q Hne).
    destruct (Question.isAnswered (questions s).[q]); cbn [length]; lia.
Qed.

(** ** The storage stays consistent *)

Ltac map_simpl :=
  repeat first
    [ rewrite at_key_insert_eq
    | rewrite at_key_insert_ne by (first [lia | congruence]) ].

Lemma no_member_nil {A} (l : list A) : (∀ x, x ∉ l) → l = [].
Proof.
  destruct l as [|a l]; [done|]. intros Hno. exfalso.
  apply (Hno a). apply elem_of_cons. by left.
Qed.

(** The question index of an id that is not a session's is empty. *)
Lemma index_out_of_range s sid :
  consistent s → ¬ session_exists s sid → (sessionQuestions s).[sid] = [].
Proof.
  intros Hc Hno. apply no_member_nil. intros q Hq.
  apply (index_exact s Hc) in Hq as [Hq Hsid].
  apply (question_session s Hc) in Hq. by rewrite Hsid in Hq.
Qed.

Lemma consistent_initial : consistent initial.
Proof.
  constructor; unfold session_exists, question_exists; cbn.
  - lia.
  - intros q ?. lia.
  - intros sid q. unfold at_key. rewrite lookup_empty. cbn. split.
    + intros Hq. by apply elem_of_nil in Hq.
    + intros [? _]. lia.
  - intros sid. unfold at_key. rewrite lookup_empty. cbn. apply NoDup_nil. done.
  - intros sid ?. lia.
  - intros q. unfold at_key. rewrite lookup_empty. cbn. discriminate.
Qed.

Lemma consistent_createSession env topic description duration s id s' :
  createSession env topic description duration s = Ok id s' →
  consistent s → consistent s'.
Proof.
  run_call; try discriminate. intros Hok Hc.
  inversion Hok; subst; clear Hok. bool_to_prop.
  pose proof (counts_nonneg s Hc) as [Hsc Hqc].
  constructor; unfold session_exists, question_exists in *; state_simpl.
  - lia.
  - intros q Hq. apply (question_session s Hc) in Hq.
    unfold session_exists in Hq. lia.
  - apply (index_exact s Hc).
  - apply (index_nodup s Hc).
  - intros sid Hsid. destruct (decide (sid = sessionCount s + 1)) as [->|Hne].
    + map_simpl. cbn [Session.questionCount Session.answeredCount].
      rewrite (index_out_of_range s (sessionCount s + 1) Hc)
        by (unfold session_exists; lia).
      done.
    + map_simpl. apply (counters_exact s Hc). unfold session_exists. lia.
  - apply (answered_exists s Hc).
Qed.

Lemma consistent_submitQuestion env sessionId e p s id s' :
  submitQuestion env sessionId e p s = Ok id s' →
  consistent s → consistent s'.
Proof.
  run_call; try discriminate. intros Hok Hc.
  inversion Hok; subst; clear Hok. bool_to_prop.
  set (n := questionCount s + 1) in *.
  assert (Hold : ∀ sid q, q ∈ (sessionQuestions s).[sid] → q ≠ n).
  { intros sid q Hq. apply (index_exact s Hc) in Hq as [Hq _].
    unfold question_exists in Hq. lia. }
  pose proof (counts_nonneg s Hc) as [Hsc Hqc0].
  constructor; unfold session_exists, question_exists in *; state_simpl.
  - lia.
  - intros q Hq. destruct (decide (q = n)) as [->|Hne]; map_simpl.
    + cbn [Question.sessionId]. lia.
    + apply (question_session s Hc). unfold question_exists. lia.
  - intros sid q.
    destruct (decide (sid = sessionId)) as [->|Hsid];
      destruct (decide (q = n)) as [->|Hq]; map_simpl;
      cbn [Question.sessionId]; rewrite ?elem_of_app, ?list_elem_of_singleton;
      rewrite ?(index_exact s Hc); unfold question_exists.
    + split; [intros _; split; [lia|done] | intros _; by right].
    + split; [intros [[? ?]|?]; [split; [lia|done] | done]
             | intros [? ?]; left; split; [lia|done]].
    + split; [intros [? _]; lia | intros [_ ?]; congruence].
    + split; intros [? ?]; (split; [lia|done]).
  - intros sid. destruct (decide (sid = sessionId)) as [->|Hsid]; map_simpl.
    + apply NoDup_app. split; [apply (index_nodup s Hc)|]. split.
      * intros q Hq Hq'. apply list_elem_of_singleton in Hq'.
        by apply (Hold sessionId q).
      * apply NoDup_singleton.
    + apply (index_nodup s Hc).
  - intros sid Hsid.
    assert (Hsame : ∀ l, (∀ q, q ∈ l → q ≠ n) →
      answered_in
        (upd_questions
           <[n:=Question.mk n sessionId (msg_sender env) (block_timestamp env) false]> s) l
      = answered_in s l).
    { intros l Hl. apply answered_in_ext. intros q Hq. state_simpl.
      rewrite at_key_insert_ne; [done|]. intros <-. by apply (Hl n). }
    destruct (counters_exact s Hc sid) as [Hqc Hac]; [unfold session_exists; lia|].
    destruct (decide (sid = sessionId)) as [->|Hne]; map_simpl;
      cbn [Session.questionCount Session.answeredCount Session.set_questionCount].
    + split.
      * rewrite length_app. cbn [length]. lia.
      * rewrite Hac. f_equal. symmetry.
        etransitivity; [|apply (Hsame _ (Hold sessionId))].
        unfold answered_in. state_simpl. rewrite List.filter_app, length_app.
        cbn [List.filter]. map_simpl. cbn [Question.isAnswered length]. lia.
    + split; [done|]. rewrite Hac. f_equal. symmetry.
      etransitivity; [|apply (Hsame _ (Hold sid))]. reflexivity.
  - intros q. destruct (decide (q = n)) as [->|Hq]; map_simpl.
    + cbn [Question.isAnswered]. discriminate.
    + intros Ha. apply (answered_exists s Hc) in Ha.
      unfold question_exists in Ha. lia.
Qed.

Lemma consistent_answerQuestion env questionId e p s s' :
  answerQuestion env questionId e p s = Ok tt s' →
  consistent s → consistent s'.
Proof.
  run_call; try discriminate. intros Hok Hc.
  inversion Hok; subst; clear Hok. bool_to_prop.
  set (sid0 := Question.sessionId (questions s).[questionId]) in *.
  assert (Hsid : ∀ q,
    Question.sessionId
      (<[questionId:=Question.set_isAnswered true (questions s).[questionId]]>
         (questions s)).[q] = Question.sessionId (questions s).[q]).
  { intros q. destruct (decide (q = questionId)) as [->|Hne]; map_simpl; done. }
  constructor; unfold session_exists, question_exists in *; state_simpl.
  - apply (counts_nonneg s Hc).
  - intros q Hq. rewrite Hsid. by apply (question_session s Hc).
  - intros sid q. rewrite Hsid. apply (index_exact s Hc).
  - apply (index_nodup s Hc).
  - intros sid Hex.
    destruct (counters_exact s Hc sid) as [Hqc Hac]; [done|].
    destruct (decide (sid = sid0)) as [->|Hne]; map_simpl;
      cbn [Session.questionCount Session.answeredCount Session.set_answeredCount].
    + split; [done|].
      match goal with
      | |- _ = Z.of_nat (answered_in ?s' ?l) =>
          rewrite (answered_in_flip s s' l questionId)
      end.
      * lia.
      * apply (index_nodup s Hc).
      * apply (index_exact s Hc). unfold question_exists. split; [lia|done].
      * done.
      * state_simpl. map_simpl. done.
      * intros q Hq. state_simpl. map_simpl. done.
    + split; [done|]. rewrite Hac. f_equal. symmetry.
      apply answered_in_ext. intros q Hq. state_simpl.
      rewrite at_key_insert_ne; [done|]. intros <-.
      apply (index_exact s Hc) in Hq as [_ Hq]. done.
  - intros q. destruct (decide (q = questionId)) as [->|Hne]; map_simpl.
    + intros _. lia.
    + apply (answered_exists s Hc).
Qed.

Lemma consistent_closeSession env sessionId s s' :
  closeSession env sessionId s = Ok tt s' →
  consistent s → consistent s'.
Proof.
  run_call; try discriminate. intros Hok Hc.
  inversion Hok; subst; clear Hok.
  constructor; unfold session_exists, question_exists in *; state_simpl.
  - apply (counts_nonneg s Hc).
  - apply (question_session s Hc).
  - apply (index_exact s Hc).
  - apply (index_nodup s Hc).
  - intros sid Hex.
    destruct (decide (sid = sessionId)) as [->|Hne]; map_simpl;
      cbn [Session.questionCount Session.answeredCount Session.set_isActive];
      by apply (counters_exact s Hc).
  - apply (answered_exists s Hc).
Qed.

Lemma consistent_access s s' (f : list (euint128 * address) → list (euint128 * address)) :
  s' = upd_acl f s → consistent s → consistent s'.
Proof. intros -> Hc. destruct Hc. constructor; done. Qed.

Lemma consistent_step s tx : consistent s → consistent (step s tx).
Proof.
  intros Hc. destruct (step_cases s tx) as [->|(s' & Hok & ->)]; [done|].
  destruct tx as [env c]. cbn [fst snd] in Hok.
  destruct c; cbn [exec] in Hok.
  - unfold mbind, M_bind in Hok.
    destruct (createSession env topic description duration s) eqn:Hop;
      [|discriminate].
    inversion Hok; subst. eapply consistent_createSession; eauto.
  - unfold mbind, M_bind in Hok.
    destruct (submitQuestion env sessionId encryptedQuestion inputProof s) eqn:Hop;
      [|discriminate].
    inversion Hok; subst. eapply consistent_submitQuestion; eauto.
  - revert Hok. run_call; try discriminate. intros Hok.
    inversion Hok; subst. eapply consistent_access; eauto.
  - eapply consistent_answerQuestion; eauto.
  - revert Hok. run_call; try discriminate. intros Hok.
    inversion Hok; subst. eapply consistent_access; eauto.
  - eapply consistent_closeSession; eauto.
Qed.

Lemma consistent_run txs s : consistent s → consistent (run txs s).
Proof.
  revert s. induction txs as [|tx txs IH]; intros s Hc; [done|].
  cbn [run fold_left]. apply IH. by apply consistent_step.
Qed.

Lemma reachable_consistent s : reachable s → consistent s.
Proof. intros [txs ->]. apply consistent_run, consistent_initial. Qed.

(** ** The counters *)

(** C10. In every state reached from the empty contract by transactions,
    every existing session has [answeredCount ≤ questionCount] and a
    question index as long as its [questionCount]; so this still holds
    after any further transaction. *)
Theorem counters_invariant s :
  reachable s →
  (∀ sessionId, session_exists s sessionId →
     Session.answeredCount (sessions s).[sessionId]
       ≤ Session.questionCount (sessions s).[sessionId] ∧
     Z.of_nat (length (sessionQuestions s).[sessionId])
       = Session.questionCount (sessions s).[sessionId]) ∧
  (∀ tx sessionId, session_exists (step s tx) sessionId →
     Session.answeredCount (sessions (step s tx)).[sessionId]
       ≤ Session.questionCount (sessions (step s tx)).[sessionId] ∧
     Z.of_nat (length (sessionQuestions (step s tx)).[sessionId])
       = Session.questionCount (sessions (step s tx)).[sessionId]).
Proof.
  intros Hr.
  assert (Hall : ∀ s0, consistent s0 → ∀ sid, session_exists s0 sid →
     Session.answeredCount (sessions s0).[sid]
       ≤ Session.questionCount (sessions s0).[sid] ∧
     Z.of_nat (length (sessionQuestions s0).[sid])
       = Session.questionCount (sessions s0).[sid]).
  { intros s0 Hc sid Hex.
    destruct (counters_exact s0 Hc sid Hex) as [-> ->].
    split; [|done]. apply inj_le, answered_in_le. }
  split.
  - apply Hall. by apply reachable_consistent.
  - intros tx. apply Hall. apply consistent_step. by apply reachable_consistent.
Qed.

(** ** Answering *)

(** What a transaction leaves alone: an existing question keeps its
    session and its asker, stays answered once it is, and its session keeps
    its host. *)
Lemma step_keeps s tx q :
  consistent s → question_exists s q →
  let s' := step s tx in
  let sid := Question.sessionId (questions s).[q] in
  question_exists s' q ∧
  Question.sessionId (questions s').[q] = sid ∧
  Question.asker (questions s').[q] = Question.asker (questions s).[q] ∧
  (Question.isAnswered (questions s).[q] = true →
     Question.isAnswered (questions s').[q] = true) ∧
  Session.host (sessions s').[sid] = Session.host (sessions s).[sid].
Proof.
  intros Hc Hq s' sid. subst s'.
  pose proof (question_session s Hc q Hq) as Hsid. fold sid in Hsid.
  destruct (step_cases s tx) as [->|(s' & Hok & ->)]; [done|].
  destruct tx as [env c]. cbn [fst snd] in Hok.
  unfold question_exists, session_exists in *.
  destruct c; revert Hok; run_call; try discriminate; intros Hok;
    inversion Hok; subst; clear Hok; state_simpl; bool_to_prop.
  - map_simpl. repeat split; try done; lia.
  - map_simpl. repeat split; try done; try lia.
    destruct (decide (sessionId = sid)) as [->|?]; map_simpl; done.
  - done.
  - destruct (decide (questionId = q)) as [->|?]; map_simpl;
      (repeat split; try done; try lia);
      match goal with
      | |- Session.host (<[?k:=_]> _).[_] = _ =>
          destruct (decide (k = sid)) as [Hk|?];
            [rewrite Hk|]; map_simpl; done
      end.
  - done.
  - repeat split; try done; try lia.
    destruct (decide (sessionId = sid)) as [->|?]; map_simpl; done.
Qed.

Lemma run_keeps txs s q :
  consistent s → question_exists s q →
  let s' := run txs s in
  let sid := Question.sessionId (questions s).[q] in
  question_exists s' q ∧
  Question.sessionId (questions s').[q] = sid ∧
  Question.asker (questions s').[q] = Question.asker (questions s).[q] ∧
  (Question.isAnswered (questions s).[q] = true →
     Question.isAnswered (questions s').[q] = true) ∧
  Session.host (sessions s').[sid] = Session.host (sessions s).[sid].
Proof.
  revert s. induction txs as [|tx txs IH]; intros s Hc Hq; [done|].
  cbn [run fold_left]. fold (run txs (step s tx)).
  destruct (step_keeps s tx q Hc Hq) as (Hq1 & Hs1 & Ha1 & Hf1 & Hh1).
  destruct (IH (step s tx) (consistent_step s tx Hc) Hq1) as (Hq2 & Hs2 & Ha2 & Hf2 & Hh2).
  cbv zeta in *. rewrite Hs1 in Hs2, Hh2.
  split; [exact Hq2|]. split; [exact Hs2|]. split; [congruence|].
  split; [auto|congruence].
Qed.

(** A question becomes answered only by a successful [answerQuestion]. *)
Lemma step_answers s tx q :
  Question.isAnswered (questions s).[q] = false →
  Question.isAnswered (questions (step s tx)).[q] = true →
  ∃ e p, tx.2 = AnswerQuestion q e p ∧ succeeds (answerQuestion tx.1 q e p s).
Proof.
  intros Hno Hyes.
  destruct (step_cases s tx) as [Heq|(s' & Hok & Heq)];
    rewrite Heq in Hyes; [congruence|]. clear Heq.
  destruct tx as [env c]. cbn [fst snd] in *.
  destruct c; cbn [exec] in Hok.
  5: { revert Hok. run_call; try discriminate; intros Hok;
       inversion Hok; subst; state_simpl; congruence. }
  4: { destruct (decide (questionId = q)) as [->|Hne].
       - exists encryptedAnswer, inputProof. split; [done|].
         unfold succeeds. eauto.
       - exfalso. revert Hok. run_call; try discriminate; intros Hok.
         inversion Hok; subst; state_simpl.
         rewrite at_key_insert_ne in Hyes by done. congruence. }
  all: exfalso; revert Hok; run_call; try discriminate; intros Hok;
    inversion Hok; subst; state_simpl; try congruence.
  destruct (decide (questionCount s + 1 = q)) as [Heq|Hne].
  - rewrite Heq in Hyes. rewrite at_key_insert_eq in Hyes. discriminate.
  - rewrite at_key_insert_ne in Hyes by done. congruence.
Qed.

Lemma answered_history txs q :
  Question.isAnswered (questions (run txs initial)).[q] = true →
  ∃ txs1 env e p txs2,
    txs = txs1 ++ (env, AnswerQuestion q e p) :: txs2 ∧
    succeeds (answerQuestion env q e p (run txs1 initial)).
Proof.
  induction txs as [|tx txs IH] using rev_ind.
  - cbn. unfold at_key. rewrite lookup_empty. discriminate.
  - rewrite run_snoc. intros Hyes.
    destruct (Question.isAnswered (questions (run txs initial)).[q]) eqn:Hbefore.
    + destruct IH as (txs1 & env & e & p & txs2 & -> & Hok); [done|].
      exists txs1, env, e, p, (txs2 ++ [tx]). split; [|done].
      by rewrite <- app_assoc.
    + destruct (step_answers _ tx q Hbefore Hyes) as (e & p & Htx & Hok).
      destruct tx as [env c]. cbn [fst snd] in *. subst c.
      exists txs, env, e, p, []. done.
Qed.

(** C2. A successful [answerQuestion] finds the question not answered and
    leaves it answered, raises the parent session's [answeredCount] by one,
    stores the handle the engine returned and grants the question's asker
    access to it.  From then on, whatever transactions follow, the question
    stays answered and every further [answerQuestion] on it stops; from the
    same caller (the host) it stops at "Already answered" with nothing
    written. *)
Theorem answerQuestion_once env questionId encryptedAnswer inputProof s s' :
  reachable s →
  answerQuestion env questionId encryptedAnswer inputProof s = Ok tt s' →
  let sessionId := Question.sessionId (questions s).[questionId] in
  let asker := Question.asker (questions s).[questionId] in
  Question.isAnswered (questions s).[questionId] = false ∧
  Question.isAnswered (questions s').[questionId] = true ∧
  Session.answeredCount (sessions s').[sessionId]
    = Session.answeredCount (sessions s).[sessionId] + 1 ∧
  fromExternal encryptedAnswer inputProof = Some (encryptedAnswers s').[questionId] ∧
  ((encryptedAnswers s').[questionId], asker) ∈ acl s' ∧
  ∀ txs env2 encryptedAnswer2 inputProof2,
    let s2 := run txs s' in
    Question.isAnswered (questions s2).[questionId] = true ∧
    fails (answerQuestion env2 questionId encryptedAnswer2 inputProof2 s2) ∧
    (msg_sender env2 = msg_sender env →
       answerQuestion env2 questionId encryptedAnswer2 inputProof2 s2
         = Fail (Revert "Already answered") s2).
Proof.
  intros Hr Hok sessionId asker.
  pose proof (reachable_consistent s Hr) as Hc.
  pose proof (consistent_answerQuestion _ _ _ _ _ _ Hok Hc) as Hc'.
  assert (Hfacts :
    question_exists s' questionId ∧
    Question.sessionId (questions s').[questionId] = sessionId ∧
    Session.host (sessions s').[sessionId] = msg_sender env ∧
    Question.isAnswered (questions s).[questionId] = false ∧
    Question.isAnswered (questions s').[questionId] = true ∧
    Session.answeredCount (sessions s').[sessionId]
      = Session.answeredCount (sessions s).[sessionId] + 1 ∧
    fromExternal encryptedAnswer inputProof = Some (encryptedAnswers s').[questionId] ∧
    ((encryptedAnswers s').[questionId], asker) ∈ acl s').
  { subst sessionId asker. revert Hok. unfold question_exists.
    run_call; try discriminate. intros Hok.
    inversion Hok; subst; clear Hok. state_simpl. bool_to_prop. map_simpl.
    cbn [Session.answeredCount Session.host Session.set_answeredCount].
    repeat split; try done; try lia.
    apply elem_of_cons. by left. }
  destruct Hfacts as (Hq' & Hsid' & Hhost' & Hno & Hyes & Hcount & Hh & Hacl).
  repeat (split; [assumption|]).
  intros txs env2 e2 p2 s2. subst s2.
  destruct (run_keeps txs s' questionId Hc' Hq') as (Hq2 & Hsid2 & _ & Hans2 & Hhost2).
  cbv zeta in *. rewrite Hsid' in Hsid2, Hhost2.
  specialize (Hans2 Hyes).
  assert (Hstop : msg_sender env2 = msg_sender env →
    answerQuestion env2 questionId e2 p2 (run txs s')
      = Fail (Revert "Already answered") (run txs s')).
  { intros Hsame. unfold question_exists in Hq2.
    run_call; bool_to_prop; try reflexivity; try lia; congruence. }
  split; [assumption|]. split; [|assumption].
  unfold fails. run_call; eauto; bool_to_prop; congruence.
Qed.

(** ** Access to answers *)

(** C9. On an existing question that is not answered, [requestAnswerAccess]
    and [getEncryptedAnswer] stop at "Question not answered yet" even for
    the asker, in any state.  In a history of transactions from the empty
    contract, when one of the two succeeds on a question, an
    [answerQuestion] on that question succeeded earlier in the history. *)
Theorem answer_access_after_answer env questionId :
  (∀ s,
     question_exists s questionId →
     msg_sender env = Question.asker (questions s).[questionId] →
     Question.isAnswered (questions s).[questionId] = false →
       requestAnswerAccess env questionId s
         = Fail (Revert "Question not answered yet") s ∧
       getEncryptedAnswer env questionId s
         = Fail (Revert "Question not answered yet") s) ∧
  (∀ txs,
     succeeds (requestAnswerAccess env questionId (run txs initial)) ∨
     succeeds (getEncryptedAnswer env questionId (run txs initial)) →
       ∃ txs1 env1 encryptedAnswer inputProof txs2,
         txs = txs1 ++ (env1, AnswerQuestion questionId encryptedAnswer inputProof) :: txs2 ∧
         succeeds (answerQuestion env1 questionId encryptedAnswer inputProof
                     (run txs1 initial))).
Proof.
  split.
  - intros s. unfold question_exists. intros Hq Hasker Hno.
    split; run_call; bool_to_prop; try reflexivity; try lia; congruence.
  - intros txs Hok. apply answered_history.
    destruct Hok as [(a & s' & Hok)|(a & s' & Hok)]; revert Hok;
      run_call; try discriminate; done.
Qed.

End Properties.

(** ** The scenario *)

(** The asker is not the host: closing the session is refused. *)
Lemma only_host_may_call_witness :
  let s := run (H:=accepting_engine) question_asked initial in
  rejected (closeSession asker_env 1 s) s.
Proof.
  intros s.
  refine (proj1 (proj2 (only_host_may_call (H:=accepting_engine) asker_env s) 1) _).
  vm_compute. discriminate.
Defined.

(** The host is not the asker: access to the answer is refused. *)
Lemma only_asker_may_call_witness :
  let s := run (H:=accepting_engine) question_answered initial in
  rejected (requestAnswerAccess host_env 1 s) s ∧
  rejected (getEncryptedAnswer host_env 1 s) s.
Proof.
  intros s.
  refine (proj1 (only_asker_may_call host_env s 1) _).
  vm_compute. discriminate.
Defined.

(** Before the host answers, the asker gets no access to an answer. *)
Lemma answer_access_after_answer_witness :
  let s := run (H:=accepting_engine) question_asked initial in
  requestAnswerAccess asker_env 1 s = Fail (Revert "Question not answered yet") s ∧
  getEncryptedAnswer asker_env 1 s = Fail (Revert "Question not answered yet") s.
Proof.
  intros s.
  refine (proj1 (answer_access_after_answer (H:=accepting_engine) asker_env 1) s _ _ _).
  - unfold question_exists. vm_compute. split; [reflexivity | discriminate].
  - vm_compute. reflexivity.
  - vm_compute. reflexivity.
Defined.

Lemma stopped_call_changes_nothing_witness :
  let s := run (H:=accepting_engine) question_answered initial in
  snd (call (exec (H:=accepting_engine) host_env (AnswerQuestion 1 99 [])) s) = s.
Proof.
  intros s.
  refine (proj1 (stopped_call_changes_nothing (H:=accepting_engine) host_env
            (AnswerQuestion 1 99 []) s (Revert "Already answered") s _)).
  reflexivity.
Defined.

Lemma counters_invariant_witness :
  let s := run (H:=accepting_engine) question_answered initial in
  Session.answeredCount (sessions s).[1] ≤ Session.questionCount (sessions s).[1] ∧
  Z.of_nat (length (sessionQuestions s).[1]) = Session.questionCount (sessions s).[1].
Proof.
  intros s.
  refine (proj1 (counters_invariant (H:=accepting_engine) s _) 1 _).
  - exists question_answered. reflexivity.
  - unfold session_exists. vm_compute. split; [reflexivity | discriminate].
Defined.

Lemma answerQuestion_once_witness :
  let s := run (H:=accepting_engine) question_asked initial in
  let s' := run (H:=accepting_engine) question_answered initial in
  let later := run (H:=accepting_engine) [(asker_env, RequestAnswerAccess 1)] s' in
  Question.isAnswered (questions s).[1] = false ∧
  Question.isAnswered (questions s').[1] = true ∧
  answerQuestion (H:=accepting_engine) host_env 1 99 [] later
    = Fail (Revert "Already answered") later.
Proof.
  intros s s' later.
  assert (Hr : reachable (H:=accepting_engine) s)
    by (exists question_asked; reflexivity).
  assert (Hok : answerQuestion (H:=accepting_engine) host_env 1 88 [] s = Ok tt s')
    by (vm_compute; reflexivity).
  destruct (answerQuestion_once (H:=accepting_engine) host_env 1 88 [] s s' Hr Hok)
    as (Hno & Hyes & _ & _ & _ & Hlater).
  destruct (Hlater [(asker_env, RequestAnswerAccess 1)] host_env 99 [])
    as (_ & _ & Hstop).
  split; [exact Hno|]. split; [exact Hyes|]. exact (Hstop eq_refl).
Defined.

Lemma submitQuestion_spec_witness :
  let s := run (H:=accepting_engine) session_opened initial in
  ∃ s', submitQuestion (H:=accepting_engine) asker_env 1 77 [] s
          = Ok (questionCount s + 1) s' ∧
        Session.questionCount (sessions s').[1]
          = Session.questionCount (sessions s).[1] + 1.
Proof.
  intros s.
  destruct (proj2 (submitQuestion_spec (H:=accepting_engine) asker_env 1 77 [] s))
    with (handle := 77) as (s' & Hok & _ & Hcount & _).
  - unfold session_exists. vm_compute. split; [reflexivity | discriminate].
  - vm_compute; reflexivity.
  - vm_compute; reflexivity.
  - vm_compute; reflexivity.
  - vm_compute; reflexivity.
  - vm_compute; reflexivity.
  - exists s'. split; [exact Hok | exact Hcount].
Defined.

Lemma createSession_spec_witness :
  ¬ fails (createSession host_env "AMA" "desc" 3600 initial).
Proof.
  intros Hf.
  apply (proj1 (createSession_spec host_env "AMA" "desc" 3600 initial)) in Hf.
  destruct Hf as [Hf | [Hf | [Hf | Hf]]].
  - discriminate.
  - vm_compute in Hf. exact (Hf eq_refl).
  - vm_compute in Hf. discriminate.
  - vm_compute in Hf. discriminate.
Defined.

(** C1 as stated fails: the session exists, is active and has not expired,
    and the call still stops, in the engine when it does not accept the
    encrypted input, and at [questionCount++] when the counter is at the
    top of [uint256]. *)
Lemma submitQuestion_counterexample :
  let s := run (H:=accepting_engine) session_opened initial in
  let full := set_questionCount MAX_UINT256 s in
  session_exists s 1 ∧
  Session.isActive (sessions s).[1] = true ∧
  block_timestamp asker_env < Session.expiresAt (sessions s).[1] ∧
  call (submitQuestion (H:=rejecting_engine) asker_env 1 77 []) s
    = (inl EngineRevert, s) ∧
  call (submitQuestion (H:=accepting_engine) asker_env 1 77 []) full
    = (inl (Panic 0x11), full).
Proof.
  cbv zeta. unfold session_exists.
  repeat split; vm_compute; first [reflexivity | discriminate].
Qed.

(** C3 as stated fails: the topic is not empty and the duration is
    positive, and the call still stops, at [block.timestamp + duration]. *)
Lemma createSession_counterexample :
  "AMA" ≠ "" ∧ 0 < MAX_UINT256 ∧
  call (createSession host_env "AMA" "desc" MAX_UINT256) initial
    = (inl (Panic 0x11), initial).
Proof. repeat split; [discriminate | vm_compute; reflexivity ..]. Qed.

(* ===================================================================== *)
(** * Part 4: the text packing's properties                               *)
(* ===================================================================== *)

Ltac dlia := Z.to_euclidean_division_equations; lia.

Section Packing.

(** ** Bit operations as arithmetic *)

Lemma land_shiftl_low a n x :
  0 ≤ n → 0 ≤ x < 2 ^ n → Z.land (Z.shiftl a n) x = 0.
Proof.
  intros Hn Hx. apply Z.bits_inj'. intros i Hi.
  rewrite Z.land_spec, Z.bits_0.
  destruct (Z.lt_ge_cases i n).
  - by rewrite Z.shiftl_spec_low by lia.
  - rewrite <- (Z.mod_small x (2 ^ n)) by lia.
    rewrite Z.mod_pow2_bits_high by lia. apply andb_false_r.
Qed.

Lemma lor_shiftl_low a n x :
  0 ≤ n → 0 ≤ x < 2 ^ n → Z.lor (Z.shiftl a n) x = a * 2 ^ n + x.
Proof.
  intros Hn Hx. rewrite <- (Z.shiftl_mul_pow2 a n Hn).
  rewrite <- Z.add_lor_land, land_shiftl_low by assumption. lia.
Qed.

Lemma lor_0x80 x : 0 ≤ x < 64 → Z.lor 0x80 x = 128 + x.
Proof.
  intros Hx. change (Z.lor 0x80 x) with (Z.lor (Z.shiftl 1 7) x).
  rewrite lor_shiftl_low; change (2 ^ 7) with 128; lia.
Qed.

Lemma land_0x3F x : Z.land x 0x3F = x mod 64.
Proof. change 0x3F with (Z.ones 6). by rewrite Z.land_ones. Qed.

Lemma land_0x1F x : Z.land x 0x1F = x mod 32.
Proof. change 0x1F with (Z.ones 5). by rewrite Z.land_ones. Qed.

Lemma land_0xF x : Z.land x 0xF = x mod 16.
Proof. change 0xF with (Z.ones 4). by rewrite Z.land_ones. Qed.

Lemma land_0x7 x : Z.land x 0x7 = x mod 8.
Proof. change 0x7 with (Z.ones 3). by rewrite Z.land_ones. Qed.

Lemma land_0xFF x : Z.land x 0xFF = x mod 256.
Proof. change 0xFF with (Z.ones 8). by rewrite Z.land_ones. Qed.

Lemma land_0x3FF x : Z.land x 0x3FF = x mod 1024.
Proof. change 0x3FF with (Z.ones 10). by rewrite Z.land_ones. Qed.

Lemma shiftr_6 x : Z.shiftr x 6 = x / 64.
Proof. by rewrite Z.shiftr_div_pow2. Qed.
Lemma shiftr_10 x : Z.shiftr x 10 = x / 1024.
Proof. by rewrite Z.shiftr_div_pow2. Qed.
Lemma shiftr_12 x : Z.shiftr x 12 = x / 4096.
Proof. by rewrite Z.shiftr_div_pow2. Qed.
Lemma shiftr_18 x : Z.shiftr x 18 = x / 262144.
Proof. by rewrite Z.shiftr_div_pow2. Qed.

(** ** The encoder's bytes *)

Lemma utf8_encode_code_point_arith cp :
  utf8_encode_code_point cp =
    if cp <? 0x80 then [cp]
    else if cp <? 0x800 then [cp / 64 + 0xC0; 128 + cp mod 64]
    else if cp <? 0x10000 then
      [cp / 4096 + 0xE0; 128 + (cp / 64) mod 64; 128 + cp mod 64]
    else [cp / 262144 + 0xF0; 128 + (cp / 4096) mod 64;
          128 + (cp / 64) mod 64; 128 + cp mod 64].
Proof.
  unfold utf8_encode_code_point.
  rewrite !land_0x3F, shiftr_6, shiftr_12, shiftr_18.
  rewrite !lor_0x80 by (apply Z.mod_pos_bound; lia).
  reflexivity.
Qed.

(** ** The decoder's steps *)

Lemma lead_byte_1 b : 0 ≤ b ≤ 0x7F → lead_byte b = (decoder_init, [b]).
Proof.
  intros Hb. unfold lead_byte.
  destruct (b <=? 0x7F) eqn:Ht; [done|]. apply Z.leb_gt in Ht. lia.
Qed.

Lemma lead_byte_2 b :
  0xC2 ≤ b ≤ 0xDF →
  lead_byte b =
    ({| code_point := b - 0xC0; bytes_seen := 0; bytes_needed := 1;
        lower_boundary := 0x80; upper_boundary := 0xBF |}, []).
Proof.
  intros Hb. unfold lead_byte. rewrite land_0x1F.
  destruct (b <=? 0x7F) eqn:Ht1; [apply Z.leb_le in Ht1; lia|].
  replace ((0xC2 <=? b) && (b <=? 0xDF)) with true
    by (symmetry; apply andb_true_iff; split; apply Z.leb_le; lia).
  do 2 f_equal. dlia.
Qed.

Lemma lead_byte_3 b :
  0xE0 ≤ b ≤ 0xEF →
  lead_byte b =
    ({| code_point := b - 0xE0; bytes_seen := 0; bytes_needed := 2;
        lower_boundary := if b =? 0xE0 then 0xA0 else 0x80;
        upper_boundary := if b =? 0xED then 0x9F else 0xBF |}, []).
Proof.
  intros Hb. unfold lead_byte. rewrite land_0xF.
  destruct (b <=? 0x7F) eqn:Ht1; [apply Z.leb_le in Ht1; lia|].
  replace ((0xC2 <=? b) && (b <=? 0xDF)) with false
    by (symmetry; apply andb_false_iff; right; apply Z.leb_gt; lia).
  replace ((0xE0 <=? b) && (b <=? 0xEF)) with true
    by (symmetry; apply andb_true_iff; split; apply Z.leb_le; lia).
  do 2 f_equal. dlia.
Qed.

Lemma lead_byte_4 b :
  0xF0 ≤ b ≤ 0xF4 →
  lead_byte b =
    ({| code_point := b - 0xF0; bytes_seen := 0; bytes_needed := 3;
        lower_boundary := if b =? 0xF0 then 0x90 else 0x80;
        upper_boundary := if b =? 0xF4 then 0x8F else 0xBF |}, []).
Proof.
  intros Hb. unfold lead_byte. rewrite land_0x7.
  destruct (b <=? 0x7F) eqn:Ht1; [apply Z.leb_le in Ht1; lia|].
  replace ((0xC2 <=? b) && (b <=? 0xDF)) with false
    by (symmetry; apply andb_false_iff; right; apply Z.leb_gt; lia).
  replace ((0xE0 <=? b) && (b <=? 0xEF)) with false
    by (symmetry; apply andb_false_iff; right; apply Z.leb_gt; lia).
  replace ((0xF0 <=? b) && (b <=? 0xF4)) with true
    by (symmetry; apply andb_true_iff; split; apply Z.leb_le; lia).
  do 2 f_equal. dlia.
Qed.

(** A continuation byte within the boundaries of the open sequence. *)
Lemma continuation_step cp seen needed lower upper b :
  needed ≠ 0 → 0x80 ≤ b ≤ 0xBF → lower ≤ b ≤ upper →
  decoder_step
    {| code_point := cp; bytes_seen := seen; bytes_needed := needed;
       lower_boundary := lower; upper_boundary := upper |} b =
  if seen + 1 =? needed then (decoder_init, [cp * 64 + (b - 0x80)])
  else ({| code_point := cp * 64 + (b - 0x80); bytes_seen := seen + 1;
           bytes_needed := needed;
           lower_boundary := 0x80; upper_boundary := 0xBF |}, []).
Proof.
  intros Hn Hb Hbound. unfold decoder_step.
  cbn [bytes_needed lower_boundary upper_boundary code_point bytes_seen].
  destruct (needed =? 0) eqn:Ht; [apply Z.eqb_eq in Ht; lia|].
  replace ((lower <=? b) && (b <=? upper)) with true
    by (symmetry; apply andb_true_iff; split; apply Z.leb_le; lia).
  cbn [negb]. rewrite land_0x3F.
  rewrite lor_shiftl_low
    by (change (2 ^ 6) with 64; try apply Z.mod_pos_bound; lia).
  change (2 ^ 6) with 64.
  replace (cp * 64 + b mod 64) with (cp * 64 + (b - 0x80)) by dlia.
  reflexivity.
Qed.

Lemma decoder_step_init b : decoder_step decoder_init b = lead_byte b.
Proof. reflexivity. Qed.

Lemma is_scalar_range cp :
  is_scalar cp = true ↔ 0 ≤ cp < 0x110000 ∧ ¬ (0xD800 ≤ cp ≤ 0xDFFF).
Proof.
  unfold is_scalar.
  rewrite !andb_true_iff, negb_true_iff, andb_false_iff.
  rewrite Z.leb_le, Z.ltb_lt, !Z.leb_gt. lia.
Qed.

Ltac decode_byte :=
  cbn [utf8_decode_from app];
  first
    [ rewrite decoder_step_init;
      first [ rewrite lead_byte_1 by dlia | rewrite lead_byte_2 by dlia
            | rewrite lead_byte_3 by dlia | rewrite lead_byte_4 by dlia ]
    | rewrite continuation_step by (repeat case_match; dlia) ];
  try match goal with
      | |- context [?a + 1 =? ?b] =>
          let v := eval compute in (a + 1 =? b) in
          change (a + 1 =? b) with v
      end;
  cbv beta iota.

(** The decoder reads back a code point from the encoder's bytes. *)
Lemma decode_encoded_code_point cp rest :
  is_scalar cp = true →
  utf8_decode_from decoder_init (utf8_encode_code_point cp ++ rest) =
  cp :: utf8_decode_from decoder_init rest.
Proof.
  intros Hcp. apply is_scalar_range in Hcp.
  rewrite utf8_encode_code_point_arith.
  destruct (cp <? 0x80) eqn:H1; [|destruct (cp <? 0x800) eqn:H2;
    [|destruct (cp <? 0x10000) eqn:H3]]; bool_to_prop.
  - decode_byte. reflexivity.
  - do 2 decode_byte. cbn [app]. f_equal. dlia.
  - do 3 decode_byte. cbn [app]. f_equal. dlia.
  - do 4 decode_byte. cbn [app]. f_equal. dlia.
Qed.

Lemma utf8_decode_encode cps :
  Forall (λ cp, is_scalar cp = true) cps → utf8_decode (utf8_encode cps) = cps.
Proof.
  unfold utf8_decode, utf8_encode.
  induction 1 as [|cp cps Hcp _ IH]; [done|].
  cbn [flat_map]. rewrite decode_encoded_code_point by done. by rewrite IH.
Qed.

(** Every byte the encoder writes for a scalar value other than U+0000 is
    a non-zero byte. *)
Lemma utf8_encode_code_point_bytes cp :
  is_scalar cp = true → cp ≠ 0 →
  Forall (λ b, 0 < b < 256) (utf8_encode_code_point cp).
Proof.
  intros Hcp Hnz. apply is_scalar_range in Hcp.
  rewrite utf8_encode_code_point_arith.
  repeat case_match; bool_to_prop; repeat constructor; dlia.
Qed.

Lemma utf8_encode_bytes cps :
  Forall (λ cp, is_scalar cp = true) cps → Forall (λ cp, cp ≠ 0) cps →
  Forall (λ b, 0 < b < 256) (utf8_encode cps).
Proof.
  unfold utf8_encode. induction 1 as [|cp cps Hcp _ IH]; intros Hnz; [done|].
  apply Forall_cons in Hnz as [Hnz Hnzs]. cbn [flat_map].
  apply Forall_app. split; [by apply utf8_encode_code_point_bytes | by apply IH].
Qed.

Lemma utf8_encode_code_point_length cp :
  (1 ≤ length (utf8_encode_code_point cp))%nat ∧
  (0x10000 ≤ cp → length (utf8_encode_code_point cp) = 4%nat).
Proof.
  unfold utf8_encode_code_point.
  repeat case_match; bool_to_prop; cbn [length]; split; intros; lia.
Qed.

(** ** Code units and code points *)

(** A text has at most as many code units as its encoding has bytes. *)
Lemma encode_length s : (length s ≤ length (TextEncoder_encode s))%nat.
Proof.
  unfold TextEncoder_encode, utf8_encode.
  generalize (Nat.le_refl (length s)). generalize (length s) at 2. intros n.
  revert s. induction n as [|n IH]; intros s Hle.
  { destruct s; cbn in *; lia. }
  destruct s as [|u rest]; [cbn; lia|].
  cbn [to_code_points]. cbn [length] in Hle.
  assert (Hrest : (length rest ≤ length (flat_map utf8_encode_code_point (to_code_points rest)))%nat)
    by (apply IH; lia).
  destruct (is_high_surrogate u) eqn:Hhi.
  - destruct rest as [|v rest']; [cbn; lia|].
    destruct (is_low_surrogate v) eqn:Hlo.
    + cbn [flat_map length]. rewrite length_app.
      unfold is_high_surrogate, is_low_surrogate in *. bool_to_prop.
      destruct (utf8_encode_code_point_length
                  (0x10000 + (u - 0xD800) * 0x400 + (v - 0xDC00))) as [_ H4].
      rewrite H4 by lia.
      assert ((length rest' ≤ length (flat_map utf8_encode_code_point (to_code_points rest')))%nat)
        by (apply IH; cbn [length] in Hle; lia).
      lia.
    + cbn [flat_map length]. rewrite length_app.
      pose proof (utf8_encode_code_point_length 0xFFFD) as [? _].
      cbn [length] in Hrest. lia.
  - assert (Hone : ∀ cp, (S (length rest) ≤ length (flat_map utf8_encode_code_point
                             (cp :: to_code_points rest)))%nat).
    { intros cp. cbn [flat_map]. rewrite length_app.
      pose proof (utf8_encode_code_point_length cp) as [? _]. lia. }
    destruct (is_low_surrogate u); cbn [length]; apply Hone.
Qed.

(** What [to_code_points] yields on well-formed text. *)
Lemma to_code_points_well_formed s :
  well_formed s = true →
  Forall (λ cp, is_scalar cp = true) (to_code_points s) ∧
  flat_map utf16_of_code_point (to_code_points s) = s ∧
  (Forall (λ u, u ≠ 0) s → Forall (λ cp, cp ≠ 0) (to_code_points s)) ∧
  (hd 0 s ≠ 0xFEFF → strip_bom (to_code_points s) = to_code_points s).
Proof.
  remember (length s) as n eqn:Hn.
  assert (Hle : (length s ≤ n)%nat) by lia. clear Hn.
  revert s Hle. induction n as [|n IH]; intros s Hle Hwf.
  { destruct s; [|cbn in Hle; lia]. cbn. repeat split; done. }
  destruct s as [|u rest]; [cbn; repeat split; done|].
  cbn [well_formed to_code_points] in *. cbn [length] in Hle.
  destruct (is_high_surrogate u) eqn:Hhi.
  - destruct rest as [|v rest']; [discriminate|].
    apply andb_true_iff in Hwf as [Hlo Hwf]. rewrite Hlo.
    cbn [length] in Hle.
    destruct (IH rest' ltac:(lia) Hwf) as (Hsc & Hback & Hnz & _).
    unfold is_high_surrogate, is_low_surrogate in *. bool_to_prop.
    set (cp := 0x10000 + (u - 0xD800) * 0x400 + (v - 0xDC00)).
    assert (Hcp : 0x10000 ≤ cp < 0x110000) by (subst cp; lia).
    repeat split.
    + constructor; [|done]. apply is_scalar_range. lia.
    + cbn [flat_map]. rewrite Hback. unfold utf16_of_code_point.
      destruct (cp <? 0x10000) eqn:Ht; [apply Z.ltb_lt in Ht; lia|].
      rewrite shiftr_10, land_0x3FF. cbn [app].
      f_equal; [|f_equal]; subst cp; dlia.
    + intros Hall. apply Forall_cons in Hall as [_ Hall].
      apply Forall_cons in Hall as [_ Hall].
      constructor; [lia | by apply Hnz].
    + intros _. cbn [strip_bom].
      destruct (cp =? 0xFEFF) eqn:Ht; [apply Z.eqb_eq in Ht; lia|done].
  - apply andb_true_iff in Hwf as [Hu Hwf].
    apply andb_true_iff in Hu as [Hu Hlo].
    apply negb_true_iff in Hlo. rewrite Hlo.
    destruct (IH rest ltac:(lia) Hwf) as (Hsc & Hback & Hnz & _).
    unfold is_high_surrogate, is_low_surrogate, is_code_unit in *. bool_to_prop.
    repeat split.
    + constructor; [|done]. apply is_scalar_range. lia.
    + cbn [flat_map]. rewrite Hback. unfold utf16_of_code_point.
      destruct (u <? 0x10000) eqn:Ht; [done|apply Z.ltb_ge in Ht; lia].
    + intros Hall. apply Forall_cons in Hall as [? Hall].
      constructor; [done | by apply Hnz].
    + cbn [hd strip_bom]. intros Hbom.
      destruct (u =? 0xFEFF) eqn:Ht; [apply Z.eqb_eq in Ht; lia|done].
Qed.

(** ** Packing and unpacking bytes *)

Lemma little_endian_cons b rest :
  0 ≤ b < 256 → little_endian (b :: rest) = little_endian rest * 256 + b.
Proof.
  intros Hb. cbn [little_endian]. rewrite Z.lor_comm.
  rewrite lor_shiftl_low; change (2 ^ 8) with 256; lia.
Qed.

Lemma pack_loop_little_endian bytes i number :
  0 ≤ i →
  pack_loop bytes i number = Z.lor number (Z.shiftl (little_endian bytes) (i * 8)).
Proof.
  revert i number. induction bytes as [|b rest IH]; intros i number Hi.
  - cbn. by rewrite Z.shiftl_0_l, Z.lor_0_r.
  - cbn [pack_loop little_endian]. rewrite IH by lia.
    rewrite Z.shiftl_lor, Z.shiftl_shiftl by lia.
    replace ((i + 1) * 8) with (8 + i * 8) by lia.
    by rewrite Z.lor_assoc.
Qed.

Lemma unpack_loop_little_endian bytes number i todo :
  0 ≤ i →
  Forall (λ b, 0 < b < 256) bytes →
  (length bytes ≤ todo)%nat →
  Z.shiftr number (i * 8) = little_endian bytes →
  unpack_loop number i todo = bytes.
Proof.
  revert bytes i. induction todo as [|todo IH]; intros bytes i Hi Hall Hlen Hnum.
  { destruct bytes; [done|cbn in Hlen; lia]. }
  cbn [unpack_loop]. rewrite Hnum, land_0xFF.
  destruct bytes as [|b rest].
  - reflexivity.
  - apply Forall_cons in Hall as [Hb Hall].
    rewrite little_endian_cons in * by lia.
    replace ((little_endian rest * 256 + b) mod 256) with b by dlia.
    destruct (b =? 0) eqn:Ht; [apply Z.eqb_eq in Ht; lia|].
    f_equal. apply IH; try done; try lia.
    + cbn [length] in Hlen. lia.
    + replace ((i + 1) * 8) with (i * 8 + 8) by lia.
      rewrite <- Z.shiftr_shiftr by lia. rewrite Hnum.
      rewrite Z.shiftr_div_pow2 by lia. change (2 ^ 8) with 256. dlia.
Qed.

(** ** The round trip *)

(** When the encoding has at most 16 bytes, none of them zero, the bytes
    survive packing and unpacking, and the text that comes back is the
    decoding of the encoding. *)
Lemma round_trip_bytes (s : jsstring) :
  Forall (λ b, 0 < b < 256) (TextEncoder_encode s) →
  (length (TextEncoder_encode s) ≤ 16)%nat →
  round_trip s = Some (TextDecoder_decode (TextEncoder_encode s)).
Proof.
  intros Hbytes Hlen.
  pose proof (encode_length s) as Hunits.
  unfold round_trip, messageToNumber.
  destruct (16 <? Z.of_nat (length s)) eqn:Ht; [apply Z.ltb_lt in Ht; lia|].
  f_equal. unfold numberToMessage.
  rewrite pack_loop_little_endian by lia.
  rewrite Z.lor_0_l, Z.shiftl_0_r.
  rewrite (unpack_loop_little_endian (TextEncoder_encode s));
    [reflexivity | lia | assumption | assumption | by rewrite Z.shiftr_0_r].
Qed.

(** C6, as the code has it.  A well-formed text without U+0000 that does
    not start with U+FEFF and whose UTF-8 encoding has at most 16 bytes is
    accepted by [messageToNumber], and [numberToMessage] gives back the
    same code units. *)
Theorem round_trip_within_16_bytes (s : jsstring) :
  well_formed s = true →
  Forall (λ u, u ≠ 0) s →
  hd 0 s ≠ 0xFEFF →
  (length (TextEncoder_encode s) ≤ 16)%nat →
  round_trip s = Some s.
Proof.
  intros Hwf Hnz Hbom Hlen.
  destruct (to_code_points_well_formed s Hwf) as (Hsc & Hback & Hnz' & Hstrip).
  rewrite round_trip_bytes.
  - f_equal. unfold TextDecoder_decode, TextEncoder_encode.
    rewrite utf8_decode_encode by done. rewrite Hstrip by done. exact Hback.
  - apply utf8_encode_bytes; [done | by apply Hnz'].
  - done.
Qed.

(** Every text of at most 16 ASCII characters other than NUL comes back
    unchanged. *)
Lemma round_trip_ascii (s : jsstring) :
  Forall (λ u, 0 < u < 0x80) s → (length s ≤ 16)%nat → round_trip s = Some s.
Proof.
  intros Hs Hlen.
  assert (Henc : TextEncoder_encode s = s).
  { unfold TextEncoder_encode, utf8_encode. clear Hlen.
    induction Hs as [|u rest Hu _ IH]; [done|].
    cbn [to_code_points].
    unfold is_high_surrogate, is_low_surrogate.
    replace (0xD800 <=? u) with false by (symmetry; apply Z.leb_gt; lia).
    replace (0xDC00 <=? u) with false by (symmetry; apply Z.leb_gt; lia).
    cbn [andb flat_map]. rewrite IH.
    unfold utf8_encode_code_point.
    replace (u <? 0x80) with true by (symmetry; apply Z.ltb_lt; lia). done. }
  assert (Hdec : TextDecoder_decode s = s).
  { unfold TextDecoder_decode, utf8_decode.
    assert (Hcps : utf8_decode_from decoder_init s = s).
    { clear Hlen Henc. induction Hs as [|u rest Hu _ IH]; [done|].
      cbn [utf8_decode_from]. rewrite decoder_step_init, lead_byte_1 by lia.
      cbn [app]. by rewrite IH. }
    rewrite Hcps.
    assert (Hbom : strip_bom s = s).
    { destruct Hs as [|u rest Hu _]; [done|]. cbn [strip_bom].
      destruct (u =? 0xFEFF) eqn:Ht; [apply Z.eqb_eq in Ht; lia|done]. }
    rewrite Hbom. clear Hlen Henc Hcps Hbom.
    induction Hs as [|u rest Hu _ IH]; [done|].
    cbn [flat_map]. rewrite IH. unfold utf16_of_code_point.
    replace (u <? 0x10000) with true by (symmetry; apply Z.ltb_lt; lia). done. }
  rewrite round_trip_bytes; rewrite Henc.
  - by rewrite Hdec.
  - eapply Forall_impl; [exact Hs|]. cbn. intros; lia.
  - done.
Qed.

(** ** What [messageToNumber] accepts *)

(** It throws exactly on texts of more than 16 code units. *)
Lemma messageToNumber_throws (s : jsstring) :
  (∃ e, messageToNumber s = inl e) ↔ (16 < length s)%nat.
Proof.
  unfold messageToNumber.
  destruct (16 <? Z.of_nat (length s)) eqn:Ht; bool_to_prop; split.
  - intros _. lia.
  - intros _. eauto.
  - intros [e He]. discriminate.
  - intros Hlong. lia.
Qed.

Lemma to_code_points_scalar (s : jsstring) :
  Forall (λ u, is_code_unit u = true) s →
  Forall (λ cp, is_scalar cp = true) (to_code_points s).
Proof.
  generalize (Nat.le_refl (length s)). generalize (length s) at 2. intros n.
  revert s. induction n as [|n IH]; intros s Hle Hs.
  { destruct s; [constructor | cbn in Hle; lia]. }
  destruct s as [|u rest]; [constructor|].
  apply Forall_cons in Hs as [Hu Hrest]. cbn [length] in Hle.
  assert (Hfffd : is_scalar 0xFFFD = true) by reflexivity.
  cbn [to_code_points].
  destruct (is_high_surrogate u) eqn:Hhi.
  - destruct rest as [|v rest']; [by repeat constructor|].
    destruct (is_low_surrogate v) eqn:Hlo.
    + apply Forall_cons in Hrest as [_ Hrest']. cbn [length] in Hle.
      constructor; [|apply IH; [lia|done]].
      unfold is_high_surrogate, is_low_surrogate in *. bool_to_prop.
      apply is_scalar_range. lia.
    + constructor; [done|]. apply IH; [lia|done].
  - destruct (is_low_surrogate u) eqn:Hlo.
    + constructor; [done|]. apply IH; [lia|done].
    + constructor; [|apply IH; [lia|done]].
      unfold is_high_surrogate, is_low_surrogate, is_code_unit in *.
      bool_to_prop. apply is_scalar_range. lia.
Qed.

Lemma utf8_encode_range cps :
  Forall (λ cp, is_scalar cp = true) cps →
  Forall (λ b, 0 ≤ b < 256) (utf8_encode cps).
Proof.
  unfold utf8_encode. induction 1 as [|cp cps Hcp _ IH]; [constructor|].
  cbn [flat_map]. apply Forall_app. split; [|exact IH].
  apply is_scalar_range in Hcp. rewrite utf8_encode_code_point_arith.
  repeat case_match; bool_to_prop; repeat constructor; dlia.
Qed.

Lemma little_endian_bound bytes :
  Forall (λ b, 0 ≤ b < 256) bytes →
  0 ≤ little_endian bytes < 2 ^ (8 * Z.of_nat (length bytes)).
Proof.
  induction 1 as [|b rest Hb _ IH]; [cbn; lia|].
  rewrite little_endian_cons by done. cbn [length].
  replace (8 * Z.of_nat (S (length rest)))
    with (8 * Z.of_nat (length rest) + 8) by lia.
  rewrite Z.pow_add_r by lia. change (2 ^ 8) with 256. nia.
Qed.

(** X17. What fits, fits.  When the UTF-8 encoding of a text of code
    units has at most 16 bytes, the number [messageToNumber] returns is
    below 2^128: it is a value of [euint128]. *)
Lemma messageToNumber_fits (s : jsstring) number :
  Forall (λ u, is_code_unit u = true) s →
  (length (TextEncoder_encode s) ≤ 16)%nat →
  messageToNumber s = inr number →
  0 ≤ number < 2 ^ 128.
Proof.
  intros Hs Hlen. unfold messageToNumber.
  destruct (16 <? Z.of_nat (length s)); [discriminate|].
  intros Hn. inversion Hn; subst number; clear Hn.
  rewrite pack_loop_little_endian by lia.
  rewrite Z.lor_0_l, Z.shiftl_0_r.
  pose proof (little_endian_bound (TextEncoder_encode s)
                (utf8_encode_range _ (to_code_points_scalar s Hs))) as [Hlo Hhi].
  split; [exact Hlo|].
  eapply Z.lt_le_trans; [exact Hhi|].
  apply Z.pow_le_mono_r; lia.
Qed.

End Packing.

Example round_trip_hello :
  round_trip (of_ascii "hello, world!") = Some (of_ascii "hello, world!").
Proof. apply round_trip_ascii; vm_compute; [repeat constructor | lia]. Qed.

(** The text é€😀A: 5 code units, 10 bytes. *)
Lemma round_trip_within_16_bytes_witness :
  round_trip [0xE9; 0x20AC; 0xD83D; 0xDE00; 0x41]
    = Some [0xE9; 0x20AC; 0xD83D; 0xDE00; 0x41].
Proof.
  apply round_trip_within_16_bytes.
  - reflexivity.
  - repeat constructor; discriminate.
  - discriminate.
  - vm_compute. lia.
Defined.

(** C6 as stated fails: texts of at most 16 characters that do not come
    back.  ["a\0b"] is cut at the zero byte; nine times ["é"] is 18 bytes,
    of which 16 are read back; a leading U+FEFF is dropped by the decoder;
    a lone surrogate is replaced by U+FFFD. *)
Lemma round_trip_counterexample :
  (length [0x61; 0; 0x62] ≤ 16)%nat ∧
  round_trip [0x61; 0; 0x62] = Some [0x61] ∧
  (length (repeat 0xE9 9) ≤ 16)%nat ∧
  round_trip (repeat 0xE9 9) = Some (repeat 0xE9 8) ∧
  round_trip [0xFEFF; 0x41] = Some [0x41] ∧
  round_trip [0xD800; 0x41] = Some [0xFFFD; 0x41].
Proof. vm_compute. repeat split; lia. Qed.

(** C7 at a failing input: nine times ["é"] has 9 characters, is accepted,
    and packs into an integer of more than 128 bits. *)
Lemma messageToNumber_exceeds_128_bits :
  length (repeat 0xE9 9) = 9%nat ∧
  ∃ number, messageToNumber (repeat 0xE9 9) = inr number ∧ 2 ^ 128 ≤ number.
Proof.
  split; [reflexivity|]. eexists. split; [vm_compute; reflexivity|].
  vm_compute. discriminate.
Qed.


(* ===================================================================== *)
(** * Part 5: more of the contract                                        *)
(* ===================================================================== *)

Ltac unfold_view :=
  cbv beta iota delta
    [getSessionQuestions getUserQuestions getHostSessions getSession
     getQuestion isSessionExpired getActiveSessionsCount] in *.

Ltac run_view := unfold_view; run_call.

(** A call that ended normally, split into the cases of its tests, with
    the state it reached written out. *)
Ltac ended_normally Hok :=
  revert Hok; run_call; try discriminate; intros Hok;
  inversion Hok; subst; clear Hok; state_simpl; bool_to_prop.

Ltac key_simpl :=
  repeat match goal with
  | |- context [(<[?k:=?v]> ?m).[?k']] =>
      first [ rewrite (at_key_insert_eq m k v)
            | rewrite (at_key_insert_ne m k k' v) by (first [lia | congruence]) ]
  end.

(** Reading a field that a write leaves as it was. *)
Lemma at_key_insert_field {V B} `{Zero V} (g : V → B) (m : gmap Z V) k v k' :
  g v = g m.[k] → g (<[k:=v]> m).[k'] = g m.[k'].
Proof.
  intros Hg. destruct (decide (k = k')) as [->|Hne].
  - by rewrite at_key_insert_eq.
  - by rewrite at_key_insert_ne.
Qed.

Lemma prefix_of_snoc {A} (l : list A) x : l `prefix_of` l ++ [x].
Proof. by exists [x]. Qed.

Lemma prefix_at_key_snoc (m : gmap Z (list Z)) k x k' :
  m.[k'] `prefix_of` (<[k := m.[k] ++ [x]]> m).[k'].
Proof.
  destruct (decide (k = k')) as [->|Hne].
  - rewrite at_key_insert_eq. apply prefix_of_snoc.
  - by rewrite at_key_insert_ne.
Qed.

Ltac split_key x :=
  repeat match goal with
  | |- context [(<[?k:=_]> _).[x]] =>
      destruct (decide (k = x)) as [?|?];
        [subst; rewrite !at_key_insert_eq
        | rewrite !at_key_insert_ne by done]
  end.

Section MoreProperties.
Context `{FHEVM}.

(** ** Nothing recorded is rewritten *)

Lemma extends_refl s : extends s s.
Proof.
  constructor; unfold same_identity; try done; try lia.
Qed.

Lemma extends_trans s1 s2 s3 : extends s1 s2 → extends s2 s3 → extends s1 s3.
Proof.
  intros H12 H23.
  pose proof (ext_sessionCount _ _ H12). pose proof (ext_sessionCount _ _ H23).
  pose proof (ext_questionCount _ _ H12). pose proof (ext_questionCount _ _ H23).
  constructor; try lia.
  - intros sid Hsid.
    destruct (ext_session _ _ H12 sid Hsid) as (Hid & Hact & Hq & Ha).
    destruct (ext_session _ _ H23 sid) as (Hid' & Hact' & Hq' & Ha');
      [unfold session_exists in *; lia|].
    unfold same_identity in *. repeat split; try lia; try tauto;
      try (etransitivity; [apply Hid | apply Hid']).
  - intros q Hq.
    destruct (ext_question _ _ H12 q Hq) as (E1 & E2 & E3 & E4 & E5 & E6).
    destruct (ext_question _ _ H23 q) as (F1 & F2 & F3 & F4 & F5 & F6);
      [unfold question_exists in *; lia|].
    refine (conj _ (conj _ (conj _ (conj _ (conj _ _))))); try congruence.
    intros Ha. apply E5 in Ha as [Ha Hh]. apply F5 in Ha as [Ha' Hh'].
    split; congruence.
  - intros g Hg. by apply (ext_acl _ _ H23), (ext_acl _ _ H12).
  - etransitivity; [apply (ext_events _ _ H12) | apply (ext_events _ _ H23)].
  - intros sid. etransitivity;
      [apply (ext_sessionQuestions _ _ H12) | apply (ext_sessionQuestions _ _ H23)].
  - intros h. etransitivity;
      [apply (ext_hostSessions _ _ H12) | apply (ext_hostSessions _ _ H23)].
  - intros a. etransitivity;
      [apply (ext_userQuestions _ _ H12) | apply (ext_userQuestions _ _ H23)].
Qed.

Lemma extends_step s tx : extends s (step s tx).
Proof.
  destruct (step_cases s tx) as [->|(s' & Hok & ->)]; [apply extends_refl|].
  destruct tx as [env c]. cbn [fst snd] in Hok.
  destruct c; ended_normally Hok.
  all: constructor; state_simpl; try done; try lia;
    try (intros k; apply prefix_at_key_snoc); try apply prefix_of_snoc.
  all: try (intros g Hg; rewrite ?elem_of_cons; tauto).
  all: unfold session_exists, question_exists, same_identity.
  all: intros k Hk; split_key k; state_simpl;
    repeat split; try done; try congruence; lia.
Qed.

Lemma extends_run txs s : extends s (run txs s).
Proof.
  revert s. induction txs as [|tx txs IH]; intros s; [apply extends_refl|].
  cbn [run fold_left]. eapply extends_trans; [apply extends_step | apply IH].
Qed.

(** X1. Closing is final.  After a successful [closeSession], whatever
    transactions follow, the session is still closed, every
    [submitQuestion] to it stops at "Session not active", and every further
    [closeSession] on it stops at a [require]. *)
Theorem closeSession_is_final env sessionId s s' :
  closeSession env sessionId s = Ok tt s' →
  ∀ txs env2 encryptedQuestion inputProof,
    let s2 := run txs s' in
    Session.isActive (sessions s2).[sessionId] = false ∧
    submitQuestion env2 sessionId encryptedQuestion inputProof s2
      = Fail (Revert "Session not active") s2 ∧
    rejected (closeSession env2 sessionId s2) s2.
Proof.
  intros Hok txs env2 e p s2. subst s2.
  assert (Hclosed : session_exists s' sessionId ∧
                    Session.isActive (sessions s').[sessionId] = false).
  { unfold session_exists. ended_normally Hok. key_simpl. split; [lia|done]. }
  destruct Hclosed as [Hex Hoff]. clear Hok.
  pose proof (extends_run txs s') as Hext.
  destruct (ext_session _ _ Hext sessionId Hex) as (_ & Hoff' & _).
  specialize (Hoff' Hoff).
  pose proof (ext_sessionCount _ _ Hext) as Hcount.
  unfold session_exists in Hex.
  split; [exact Hoff'|]. split.
  - run_call; bool_to_prop; try reflexivity; try lia; congruence.
  - unfold rejected. run_call; bool_to_prop; eauto; try lia; congruence.
Qed.

(** X2. What identifies a session is fixed at its creation.  After a
    successful [createSession] in a reachable state, in every later state
    [getSession] on the returned id succeeds and reports that id, the
    creator as host, the topic and description given, the block time as
    [createdAt] and [createdAt + duration] as [expiresAt]. *)
Theorem session_identity_fixed env topic description duration s id s' :
  reachable s →
  createSession env topic description duration s = Ok id s' →
  ∀ txs, ∃ x,
    getSession id (run txs s') = Ok x (run txs s') ∧
    Session.id x = id ∧
    Session.host x = msg_sender env ∧
    Session.topic x = topic ∧
    Session.description x = description ∧
    Session.createdAt x = block_timestamp env ∧
    Session.expiresAt x = block_timestamp env + duration.
Proof.
  intros Hr Hok txs.
  pose proof (counts_nonneg s (reachable_consistent s Hr)) as [Hsc _].
  assert (Hnew : session_exists s' id ∧
    (sessions s').[id] = Session.mk id (msg_sender env) topic description
      (block_timestamp env) (block_timestamp env + duration) true 0 0).
  { unfold session_exists. ended_normally Hok. key_simpl. split; [lia|done]. }
  destruct Hnew as [Hex Hnew]. clear Hok.
  pose proof (extends_run txs s') as Hext.
  destruct (ext_session _ _ Hext id Hex) as (Hid & _).
  pose proof (ext_sessionCount _ _ Hext) as Hcount.
  rewrite Hnew in Hid. unfold same_identity in Hid. cbn in Hid.
  destruct Hid as (H1 & H2 & H3 & H4 & H5 & H6).
  exists (sessions (run txs s')).[id]. split.
  - unfold session_exists in Hex.
    run_view; bool_to_prop; try reflexivity; lia.
  - repeat split; congruence.
Qed.

(** X3. A stored question stays readable by the host.  After a successful
    [submitQuestion] in a reachable state, the engine's handle for the
    submitted input is what [getEncryptedQuestion] returns to the session's
    host in every later state, and the host's permission on it is still in
    the permission list. *)
Theorem question_handle_kept env sessionId encryptedQuestion inputProof s id s' :
  reachable s →
  submitQuestion env sessionId encryptedQuestion inputProof s = Ok id s' →
  ∃ handle,
    fromExternal encryptedQuestion inputProof = Some handle ∧
    ∀ txs env2,
      msg_sender env2 = Session.host (sessions s).[sessionId] →
      getEncryptedQuestion env2 id (run txs s') = Ok handle (run txs s') ∧
      (handle, msg_sender env2) ∈ acl (run txs s').
Proof.
  intros Hr Hok.
  pose proof (counts_nonneg s (reachable_consistent s Hr)) as [_ Hqc].
  assert (Hnew : ∃ handle,
    fromExternal encryptedQuestion inputProof = Some handle ∧
    question_exists s' id ∧ session_exists s' sessionId ∧
    Question.sessionId (questions s').[id] = sessionId ∧
    Session.host (sessions s').[sessionId] = Session.host (sessions s).[sessionId] ∧
    (encryptedQuestions s').[id] = handle ∧
    (handle, Session.host (sessions s).[sessionId]) ∈ acl s').
  { unfold question_exists, session_exists. ended_normally Hok. key_simpl.
    eexists. split; [reflexivity|]. repeat split; try done; try lia.
    apply elem_of_cons. by left. }
  destruct Hnew as (handle & Hh & Hq & Hsid & Hqs & Hhost & Hstored & Hgrant).
  clear Hok.
  exists handle. split; [exact Hh|]. intros txs env2 Hsender.
  pose proof (extends_run txs s') as Hext.
  destruct (ext_question _ _ Hext id Hq) as (_ & Hqs' & _ & _ & _ & Hstored').
  destruct (ext_session _ _ Hext sessionId Hsid) as ((_ & Hhost' & _) & _).
  pose proof (ext_questionCount _ _ Hext) as Hcount.
  split.
  - unfold question_exists in Hq.
    run_call; bool_to_prop; try lia.
    + f_equal. congruence.
    + exfalso. congruence.
  - apply (ext_acl _ _ Hext). by rewrite Hsender.
Qed.

(** X4. A stored answer stays readable by the asker.  After a successful
    [answerQuestion], the engine's handle for the answer is what
    [getEncryptedAnswer] returns to the question's asker in every later
    state, and [requestAnswerAccess] by the asker succeeds there. *)
Theorem answer_handle_kept env questionId encryptedAnswer inputProof s s' :
  answerQuestion env questionId encryptedAnswer inputProof s = Ok tt s' →
  ∃ handle,
    fromExternal encryptedAnswer inputProof = Some handle ∧
    ∀ txs env2,
      msg_sender env2 = Question.asker (questions s).[questionId] →
      getEncryptedAnswer env2 questionId (run txs s') = Ok handle (run txs s') ∧
      succeeds (requestAnswerAccess env2 questionId (run txs s')) ∧
      (handle, msg_sender env2) ∈ acl (run txs s').
Proof.
  intros Hok.
  assert (Hnew : ∃ handle,
    fromExternal encryptedAnswer inputProof = Some handle ∧
    question_exists s' questionId ∧
    Question.asker (questions s').[questionId]
      = Question.asker (questions s).[questionId] ∧
    Question.isAnswered (questions s').[questionId] = true ∧
    (encryptedAnswers s').[questionId] = handle ∧
    (handle, Question.asker (questions s).[questionId]) ∈ acl s').
  { unfold question_exists. ended_normally Hok. key_simpl.
    eexists. split; [reflexivity|]. repeat split; try done; try lia.
    apply elem_of_cons. by left. }
  destruct Hnew as (handle & Hh & Hq & Hasker & Hans & Hstored & Hgrant).
  clear Hok.
  exists handle. split; [exact Hh|]. intros txs env2 Hsender.
  pose proof (extends_run txs s') as Hext.
  destruct (ext_question _ _ Hext questionId Hq)
    as (_ & _ & Hasker' & _ & Hans' & _).
  destruct (Hans' Hans) as [Hans2 Hstored2].
  pose proof (ext_questionCount _ _ Hext) as Hcount.
  unfold question_exists in Hq.
  split; [|split].
  - run_call; bool_to_prop; try lia; congruence.
  - unfold succeeds. run_call; bool_to_prop; eauto; try lia; congruence.
  - apply (ext_acl _ _ Hext). by rewrite Hsender.
Qed.

End MoreProperties.

(** ** The books are kept *)

Section Books.
Context `{FHEVM}.

Lemma sorted_snoc (l : list Z) n :
  StronglySorted Z.lt l → (∀ x, x ∈ l → x < n) → StronglySorted Z.lt (l ++ [n]).
Proof.
  induction 1 as [|x l Hl IH Hx]; intros Hlt; cbn [app].
  - repeat constructor.
  - constructor.
    + apply IH. intros y Hy. apply Hlt. apply elem_of_cons. by right.
    + apply Forall_app. split; [exact Hx|].
      constructor; [|constructor]. apply Hlt. apply elem_of_cons. by left.
Qed.

Lemma coherent_initial : coherent initial.
Proof.
  constructor; unfold session_exists, question_exists; cbn;
    try (intros; lia); try (intros; unfold at_key; rewrite lookup_empty; cbn).
  - apply consistent_initial.
  - split; [intros Hin; by apply elem_of_nil in Hin | intros [? _]; lia].
  - constructor.
  - split; [intros Hin; by apply elem_of_nil in Hin | intros [? _]; lia].
  - constructor.
  - constructor.
  - intros c a Hin. by apply elem_of_nil in Hin.
Qed.

Lemma justified_extends s s' c a :
  consistent s → extends s s' → justified s c a → justified s' c a.
Proof.
  intros Hc Hext [->|(q & Hq & Hwhy)]; [by left|]. right.
  pose proof (ext_questionCount _ _ Hext) as Hcount.
  destruct (ext_question _ _ Hext q Hq) as (_ & Hsid & Hasker & _ & Hans & Hstored).
  destruct (ext_session _ _ Hext _ (question_session s Hc q Hq))
    as ((_ & Hhost & _) & _).
  exists q. split; [unfold question_exists in *; lia|].
  destruct Hwhy as [[-> ->]|(Ha & -> & ->)].
  - left. rewrite Hstored, Hsid. done.
  - right. destruct (Hans Ha) as [Ha' Hh]. rewrite Hh, Hasker. done.
Qed.
End Books.

Ltac shape_tac s Hco :=
  let k := fresh "k" in let Hk := fresh "Hk" in let Hold := fresh "Hold" in
  intros k Hk; pose proof (session_shape s Hco k) as Hold;
  unfold session_exists in *; state_simpl; split_key k; state_simpl;
  first [ apply Hold; lia
        | repeat split; try lia;
          intros ->; cbn in *; lia ].

Ltac qshape_tac s Hco :=
  let k := fresh "k" in let Hk := fresh "Hk" in let Hold := fresh "Hold" in
  intros k Hk; pose proof (question_shape s Hco k) as Hold;
  unfold question_exists in *; state_simpl; split_key k; state_simpl;
  first [ apply Hold; lia | reflexivity ].

Ltac index_tac Hold :=
  unfold session_exists, question_exists in *; state_simpl;
  match type of Hold with
  | ?k ∈ _.[?h] ↔ _ => split_key h; split_key k
  end;
  state_simpl; rewrite ?elem_of_app, ?list_elem_of_singleton;
  try rewrite Hold; intuition (try lia; try congruence).

Ltac sorted_tac Hold Hin :=
  state_simpl;
  match type of Hold with
  | StronglySorted _ _.[?k] => split_key k
  end;
  first
    [ exact Hold
    | apply sorted_snoc;
      [ exact Hold
      | let x := fresh "x" in let Hx := fresh "Hx" in
        intros x Hx; apply Hin in Hx as [Hx _];
        unfold session_exists, question_exists in Hx; lia ] ].

Ltac justify_new s :=
  unfold question_exists; repeat progress (key_simpl; state_simpl);
  split; [lia|];
  first [ left; split; congruence
        | right; split; [congruence | split; congruence] ].

Ltac events_tac s Hco :=
  state_simpl; destruct (events_counted s Hco) as [? ?];
  rewrite ?List.filter_app, ?length_app;
  cbn [List.filter is_SessionCreated is_QuestionSubmitted length];
  split; lia.

Section BooksKept.
Context `{FHEVM}.

Lemma grants_justified_step s tx c a :
  coherent s → (c, a) ∈ acl (step s tx) → justified (step s tx) c a.
Proof.
  intros Hco. pose proof (coherent_consistent s Hco) as Hc.
  pose proof (counts_nonneg s Hc) as [Hsc0 Hqc0].
  pose proof (extends_step s tx) as Hext.
  assert (Hold : (c, a) ∈ acl s → justified (step s tx) c a).
  { intros Hin. apply (justified_extends s _ c a Hc Hext).
    by apply (grants_justified s Hco). }
  clear Hext. revert Hold.
  destruct (step_cases s tx) as [Heq|(s' & Hok & Heq)]; rewrite Heq;
    [tauto|]. clear Heq.
  destruct tx as [env c0]. cbn [fst snd] in Hok.
  destruct c0; ended_normally Hok; intros Hold Hin;
    rewrite ?elem_of_cons in Hin;
    repeat match type of Hin with
           | _ ∨ _ => destruct Hin as [Hin|Hin]
           end;
    try (by apply Hold); inversion Hin; subst; clear Hin.
  all: try (by left).
  all: first
    [ right; exists (questionCount s + 1); justify_new s
    | right; match goal with q : Z |- _ => exists q; justify_new s end ].
Qed.

Lemma grants_complete_old s s' q :
  coherent s → extends s s' → question_exists s q →
  ((encryptedQuestions s').[q], this) ∈ acl s' ∧
  ((encryptedQuestions s').[q],
   Session.host (sessions s').[Question.sessionId (questions s').[q]]) ∈ acl s' ∧
  (Question.isAnswered (questions s).[q] = true →
     ((encryptedAnswers s').[q], this) ∈ acl s' ∧
     ((encryptedAnswers s').[q], Question.asker (questions s').[q]) ∈ acl s').
Proof.
  intros Hco Hext Hq. pose proof (coherent_consistent s Hco) as Hc.
  destruct (grants_complete s Hco q Hq) as (G1 & G2 & G3).
  destruct (ext_question _ _ Hext q Hq) as (_ & Hsid & Hasker & _ & Hans & Hstored).
  destruct (ext_session _ _ Hext _ (question_session s Hc q Hq))
    as ((_ & Hhost & _) & _).
  rewrite Hstored, Hsid, <- Hhost, Hasker.
  split; [by apply (ext_acl _ _ Hext)|]. split; [by apply (ext_acl _ _ Hext)|].
  intros Ha. destruct (Hans Ha) as [_ ->]. destruct (G3 Ha).
  split; by apply (ext_acl _ _ Hext).
Qed.

Lemma grants_complete_step s tx q :
  coherent s → question_exists (step s tx) q →
  ((encryptedQuestions (step s tx)).[q], this) ∈ acl (step s tx) ∧
  ((encryptedQuestions (step s tx)).[q],
   Session.host (sessions (step s tx)).[Question.sessionId (questions (step s tx)).[q]])
     ∈ acl (step s tx) ∧
  (Question.isAnswered (questions (step s tx)).[q] = true →
     ((encryptedAnswers (step s tx)).[q], this) ∈ acl (step s tx) ∧
     ((encryptedAnswers (step s tx)).[q], Question.asker (questions (step s tx)).[q])
       ∈ acl (step s tx)).
Proof.
  intros Hco. pose proof (coherent_consistent s Hco) as Hc.
  pose proof (counts_nonneg s Hc) as [Hsc0 Hqc0].
  pose proof (grants_complete_old s (step s tx) q Hco (extends_step s tx)) as Hold.
  revert Hold.
  destruct (step_cases s tx) as [Heq|(s' & Hok & Heq)]; rewrite Heq; clear Heq.
  { intros _. apply (grants_complete s Hco). }
  destruct tx as [env c0]. cbn [fst snd] in Hok.
  destruct c0; ended_normally Hok; unfold question_exists; state_simpl;
    intros Hold Hq; try (by apply Hold).
  - (* submitQuestion *)
    destruct (decide (q = questionCount s + 1)) as [->|Hne].
    + clear Hold. repeat progress (key_simpl; state_simpl).
      rewrite !elem_of_cons. split; [auto|]. split; [auto|]. discriminate.
    + revert Hold. repeat progress (key_simpl; state_simpl).
      rewrite !(at_key_insert_field Session.host) by reflexivity.
      intros Hold. apply Hold. lia.
  - (* answerQuestion *)
    revert Hold. rewrite !(at_key_insert_field Session.host) by reflexivity.
    rewrite !(at_key_insert_field Question.sessionId) by reflexivity.
    rewrite !(at_key_insert_field Question.asker) by reflexivity.
    intros Hold. destruct Hold as (A & B & C); [lia|].
    split; [exact A|]. split; [exact B|].
    destruct (decide (questionId = q)) as [->|Hne].
    + intros _. key_simpl. rewrite !elem_of_cons. split; auto.
    + revert C. key_simpl. done.
Qed.


Lemma coherent_step s tx : coherent s → coherent (step s tx).
Proof.
  intros Hco. pose proof (coherent_consistent s Hco) as Hc.
  pose proof (counts_nonneg s Hc) as [Hsc0 Hqc0].
  pose proof (consistent_step s tx Hc) as Hc'.
  pose proof (λ c a, grants_justified_step s tx c a Hco) as Hj.
  pose proof (λ q, grants_complete_step s tx q Hco) as Hg.
  revert Hc' Hj Hg.
  destruct (step_cases s tx) as [Heq|(s' & Hok & Heq)]; rewrite Heq;
    [done|]. clear Heq.
  destruct tx as [env c]. cbn [fst snd] in Hok.
  destruct c; ended_normally Hok; intros Hc' Hj Hg.
  all: constructor;
    [ exact Hc' | shape_tac s Hco | qshape_tac s Hco
    | intros h k; pose proof (host_index_exact s Hco h k) as Hold; index_tac Hold
    | intros k; pose proof (host_index_sorted s Hco k) as Hold;
      sorted_tac Hold (λ k x, proj1 (host_index_exact s Hco k x))
    | intros a k; pose proof (user_index_exact s Hco a k) as Hold; index_tac Hold
    | intros k; pose proof (user_index_sorted s Hco k) as Hold;
      sorted_tac Hold (λ k x, proj1 (user_index_exact s Hco k x))
    | intros k; pose proof (session_index_sorted s Hco k) as Hold;
      sorted_tac Hold (λ k x, proj1 (index_exact s Hc k x))
    | exact Hj | exact Hg | events_tac s Hco ].
Qed.

Lemma coherent_run txs s : coherent s → coherent (run txs s).
Proof.
  revert s. induction txs as [|tx txs IH]; intros s Hco; [done|].
  cbn [run fold_left]. apply IH. by apply coherent_step.
Qed.

Lemma reachable_coherent s : reachable s → coherent s.
Proof. intros [txs ->]. apply coherent_run, coherent_initial. Qed.

End BooksKept.

Section Views.
Context `{FHEVM}.

(** X5. Every session is well formed.  In every reachable state an
    existing session is stored under its own id, has a non-empty topic, and
    expires strictly after it was created, at a time within [uint256]. *)
Theorem sessions_well_formed s sessionId :
  reachable s → session_exists s sessionId →
  ∃ x, getSession sessionId s = Ok x s ∧
    Session.id x = sessionId ∧
    Session.topic x ≠ "" ∧
    Session.createdAt x < Session.expiresAt x ≤ MAX_UINT256.
Proof.
  intros Hr Hex. pose proof (reachable_coherent s Hr) as Hco.
  destruct (session_shape s Hco sessionId Hex) as (Hid & Htopic & Hlt & Hmax).
  exists (sessions s).[sessionId]. split.
  - unfold session_exists in Hex. run_view; bool_to_prop; try reflexivity; lia.
  - repeat split; assumption.
Qed.

(** X6. [getHostSessions] lists exactly the sessions of a host.  In every
    reachable state it returns, without changing anything, a strictly
    ascending list of ids that contains an id exactly when the session
    exists and has that host. *)
Theorem getHostSessions_exact s host :
  reachable s →
  ∃ l, getHostSessions host s = Ok l s ∧
    StronglySorted Z.lt l ∧
    ∀ sessionId, sessionId ∈ l ↔
      session_exists s sessionId ∧ Session.host (sessions s).[sessionId] = host.
Proof.
  intros Hr. pose proof (reachable_coherent s Hr) as Hco.
  exists (hostSessions s).[host]. split; [reflexivity|]. split.
  - apply (host_index_sorted s Hco).
  - apply (host_index_exact s Hco).
Qed.

(** X7. [getUserQuestions] lists exactly the questions a user asked, in
    every reachable state, as a strictly ascending list of ids. *)
Theorem getUserQuestions_exact s user :
  reachable s →
  ∃ l, getUserQuestions user s = Ok l s ∧
    StronglySorted Z.lt l ∧
    ∀ questionId, questionId ∈ l ↔
      question_exists s questionId ∧
      Question.asker (questions s).[questionId] = user.
Proof.
  intros Hr. pose proof (reachable_coherent s Hr) as Hco.
  exists (userQuestions s).[user]. split; [reflexivity|]. split.
  - apply (user_index_sorted s Hco).
  - apply (user_index_exact s Hco).
Qed.

(** X8. [getSessionQuestions] stops at "Session does not exist" for an id
    that is not a session's.  For an existing session of a reachable state
    it returns a strictly ascending list of exactly the ids of the
    session's questions, as many as the session's [questionCount]. *)
Theorem getSessionQuestions_exact s sessionId :
  (¬ session_exists s sessionId →
     getSessionQuestions sessionId s = Fail (Revert "Session does not exist") s) ∧
  (reachable s → session_exists s sessionId →
     ∃ l, getSessionQuestions sessionId s = Ok l s ∧
       StronglySorted Z.lt l ∧
       Z.of_nat (length l) = Session.questionCount (sessions s).[sessionId] ∧
       ∀ questionId, questionId ∈ l ↔
         question_exists s questionId ∧
         Question.sessionId (questions s).[questionId] = sessionId).
Proof.
  unfold session_exists. split.
  - intros Hno. run_view; bool_to_prop; try reflexivity; lia.
  - intros Hr Hex. pose proof (reachable_coherent s Hr) as Hco.
    pose proof (coherent_consistent s Hco) as Hc.
    exists (sessionQuestions s).[sessionId]. split; [|split; [|split]].
    + run_view; bool_to_prop; try reflexivity; lia.
    + apply (session_index_sorted s Hco).
    + symmetry. apply (counters_exact s Hc). exact Hex.
    + apply (index_exact s Hc).
Qed.

(** X9. No permission without a reason.  In every reachable state, each
    entry of the permission list names the contract itself, or the host of
    the session of the question whose handle it is, or the asker of the
    answered question whose answer handle it is. *)
Theorem grants_are_justified s handle grantee :
  reachable s → (handle, grantee) ∈ acl s → justified s handle grantee.
Proof.
  intros Hr. apply (grants_justified s (reachable_coherent s Hr)).
Qed.

(** X10. The permissions are all there.  In every reachable state, for
    every existing question the contract and the host of its session hold
    a permission on the question's handle, and once it is answered the
    contract and its asker hold one on the answer's handle. *)
Theorem grants_are_complete s questionId :
  reachable s → question_exists s questionId →
  ((encryptedQuestions s).[questionId], this) ∈ acl s ∧
  ((encryptedQuestions s).[questionId],
   Session.host (sessions s).[Question.sessionId (questions s).[questionId]])
    ∈ acl s ∧
  (Question.isAnswered (questions s).[questionId] = true →
     ((encryptedAnswers s).[questionId], this) ∈ acl s ∧
     ((encryptedAnswers s).[questionId],
      Question.asker (questions s).[questionId]) ∈ acl s).
Proof.
  intros Hr. apply (grants_complete s (reachable_coherent s Hr)).
Qed.

(** One event per creation and per submission.  In every reachable
    state the log holds as many [SessionCreated] events as [sessionCount]
    and as many [QuestionSubmitted] events as [questionCount]. *)
Theorem events_match_counters s :
  reachable s →
  Z.of_nat (length (List.filter is_SessionCreated (events s))) = sessionCount s ∧
  Z.of_nat (length (List.filter is_QuestionSubmitted (events s))) = questionCount s.
Proof.
  intros Hr. apply (events_counted s (reachable_coherent s Hr)).
Qed.

(** X11. Transactions only add.  From any state, whatever transactions
    follow: no permission is revoked; the event log and the three indexes
    are extended at their end; the counters do not go down; and every
    question of the state keeps its session, asker and time stamp. *)
Theorem ledger_only_grows s txs :
  let s' := run txs s in
  (∀ grant, grant ∈ acl s → grant ∈ acl s') ∧
  events s `prefix_of` events s' ∧
  (∀ sessionId, (sessionQuestions s).[sessionId] `prefix_of` (sessionQuestions s').[sessionId]) ∧
  (∀ host, (hostSessions s).[host] `prefix_of` (hostSessions s').[host]) ∧
  (∀ user, (userQuestions s).[user] `prefix_of` (userQuestions s').[user]) ∧
  sessionCount s ≤ sessionCount s' ∧
  questionCount s ≤ questionCount s' ∧
  (∀ questionId, question_exists s questionId →
     Question.sessionId (questions s').[questionId]
       = Question.sessionId (questions s).[questionId] ∧
     Question.asker (questions s').[questionId]
       = Question.asker (questions s).[questionId] ∧
     Question.timestamp (questions s').[questionId]
       = Question.timestamp (questions s).[questionId]).
Proof.
  intros s'. subst s'. destruct (extends_run txs s).
  repeat (split; [assumption|]).
  intros q Hq. destruct (ext_question0 q Hq) as (_ & ? & ? & ? & _).
  auto.
Qed.

(** ** Expiry and the count of open sessions *)

(** X12. Expiry is final.  [isSessionExpired] stops for an id that is not
    a session's.  Once it returns true for a session, it returns true at
    every later time in every later state, and every [submitQuestion] to
    the session stops at a [require] there. *)
Theorem expiry_is_final env sessionId s :
  (¬ session_exists s sessionId →
     isSessionExpired env sessionId s = Fail (Revert "Session does not exist") s) ∧
  (isSessionExpired env sessionId s = Ok true s →
   ∀ txs env2 encryptedQuestion inputProof,
     block_timestamp env ≤ block_timestamp env2 →
     isSessionExpired env2 sessionId (run txs s) = Ok true (run txs s) ∧
     rejected (submitQuestion env2 sessionId encryptedQuestion inputProof (run txs s))
              (run txs s)).
Proof.
  unfold session_exists. split.
  - intros Hno. run_view; bool_to_prop; try reflexivity; lia.
  - intros Hexp txs env2 e p Hlater.
    assert (Hnow : session_exists s sessionId ∧
                   Session.expiresAt (sessions s).[sessionId] ≤ block_timestamp env).
    { unfold session_exists. revert Hexp. run_view; try discriminate.
      intros Hexp. inversion Hexp as [Hb]. bool_to_prop.
      split; [lia|]. by apply Z.geb_le. }
    clear Hexp. destruct Hnow as [Hex Hpast].
    pose proof (extends_run txs s) as Hext.
    destruct (ext_session _ _ Hext sessionId Hex) as ((_ & _ & _ & _ & _ & Hsame) & _).
    pose proof (ext_sessionCount _ _ Hext) as Hcount.
    unfold session_exists in Hex. split.
    + run_view; bool_to_prop; try lia. do 2 f_equal.
      apply Z.geb_le. lia.
    + unfold rejected. run_call; bool_to_prop; eauto; lia.
Qed.

Lemma ids_from_elem first n k :
  k ∈ ids_from first n ↔ first ≤ k < first + Z.of_nat n.
Proof.
  revert first. induction n as [|n IH]; intros first; cbn [ids_from].
  - rewrite elem_of_nil. lia.
  - rewrite elem_of_cons, IH. lia.
Qed.

Lemma ids_from_sorted first n : StronglySorted Z.lt (ids_from first n).
Proof.
  revert first. induction n as [|n IH]; intros first; cbn [ids_from];
    constructor; [apply IH|].
  apply list.Forall_forall. intros k Hk. apply ids_from_elem in Hk. lia.
Qed.

Lemma ids_from_length first n : length (ids_from first n) = n.
Proof.
  revert first. induction n as [|n IH]; intros first; cbn [ids_from length];
    [done|]. by rewrite IH.
Qed.

Lemma filter_sorted (f : Z → bool) l :
  StronglySorted Z.lt l → StronglySorted Z.lt (List.filter f l).
Proof.
  induction 1 as [|x l Hl IH Hx]; cbn [List.filter]; [constructor|].
  destruct (f x); [|exact IH]. constructor; [exact IH|].
  apply list.Forall_forall. intros y Hy.
  apply list_elem_of_In, List.filter_In in Hy as [Hy _].
  apply list_elem_of_In in Hy.
  by apply (proj1 (list.Forall_forall _ _) Hx).
Qed.

(** The loop counts the sessions of its range that take questions. *)
Lemma activeSessions_loop_spec env s todo i count :
  0 ≤ count →
  i + Z.of_nat todo ≤ MAX_UINT256 →
  count + Z.of_nat todo ≤ MAX_UINT256 →
  activeSessions_loop env todo i count s =
    Ok (count + Z.of_nat (length (List.filter
          (λ k, accepting (block_timestamp env) (sessions s).[k])
          (ids_from i todo)))) s.
Proof.
  revert i count. induction todo as [|todo IH]; intros i count Hc Hi Hcount.
  - cbn. by rewrite Z.add_0_r.
  - cbn [activeSessions_loop ids_from List.filter].
    unfold mbind, M_bind, gets, checked_add, mret, M_ret in *.
    fold (accepting (block_timestamp env) (sessions s).[i]).
    destruct (accepting (block_timestamp env) (sessions s).[i]).
    + destruct (count + 1 <=? MAX_UINT256) eqn:H1; [|apply Z.leb_gt in H1; lia].
      destruct (i + 1 <=? MAX_UINT256) eqn:H2; [|apply Z.leb_gt in H2; lia].
      rewrite IH by lia. cbn [length]. f_equal. lia.
    + destruct (i + 1 <=? MAX_UINT256) eqn:H2; [|apply Z.leb_gt in H2; lia].
      rewrite IH by lia. reflexivity.
Qed.

(** X13. [getActiveSessionsCount] counts the sessions that take questions.
    With fewer than 2^256 - 1 sessions it returns, without changing
    anything, the number of existing sessions that are active and not yet
    expired at the block time; the number is at most [sessionCount]. *)
Theorem getActiveSessionsCount_counts env s :
  0 ≤ sessionCount s < MAX_UINT256 →
  ∃ l, getActiveSessionsCount env s = Ok (Z.of_nat (length l)) s ∧
    StronglySorted Z.lt l ∧
    Z.of_nat (length l) ≤ sessionCount s ∧
    ∀ sessionId, sessionId ∈ l ↔
      session_exists s sessionId ∧
      Session.isActive (sessions s).[sessionId] = true ∧
      block_timestamp env < Session.expiresAt (sessions s).[sessionId].
Proof.
  intros Hn.
  set (ids := ids_from 1 (Z.to_nat (sessionCount s))).
  set (l := List.filter (λ k, accepting (block_timestamp env) (sessions s).[k]) ids).
  exists l. split; [|split; [|split]].
  - unfold getActiveSessionsCount, mbind, M_bind, gets.
    rewrite activeSessions_loop_spec by lia. reflexivity.
  - apply filter_sorted, ids_from_sorted.
  - etransitivity; [apply inj_le, List.filter_length_le|].
    subst ids. rewrite ids_from_length. lia.
  - intros k. unfold session_exists. subst l ids.
    rewrite list_elem_of_In, List.filter_In, <- list_elem_of_In, ids_from_elem.
    unfold accepting. rewrite andb_true_iff, Z.ltb_lt, Z2Nat.id by lia.
    split; intros (? & ? & ?); repeat split; try done; lia.
Qed.

End Views.

(* ===================================================================== *)
(** * Part 6: more of the text packing                                    *)
(* ===================================================================== *)

Section Chunks.

(** A chunk cut inside the text. *)
Lemma slice_chunk (m : jsstring) i chunkSize :
  0 ≤ i < Z.of_nat (length m) → 1 ≤ chunkSize →
  slice m i (i + chunkSize) = take (Z.to_nat chunkSize) (drop (Z.to_nat i) m).
Proof.
  intros Hi Hc. unfold slice, relative_index.
  destruct (i <? 0) eqn:H1; [apply Z.ltb_lt in H1; lia|].
  destruct (i + chunkSize <? 0) eqn:H2; [apply Z.ltb_lt in H2; lia|].
  rewrite (Z.min_l i) by lia.
  destruct (Z.le_gt_cases (i + chunkSize) (Z.of_nat (length m))) as [Hin|Hout].
  - rewrite Z.min_l by lia. f_equal. lia.
  - rewrite Z.min_r by lia.
    rewrite !take_ge; try reflexivity; rewrite length_drop; lia.
Qed.

(** What the loop adds to the chunks it has, from position [i] on. *)
Lemma splitMessage_loop_spec fuel (m : jsstring) chunkSize i acc :
  1 ≤ chunkSize → 0 ≤ i →
  Z.max 0 (Z.of_nat (length m) - i) < Z.of_nat fuel →
  ∃ chunks,
    splitMessage_loop fuel m chunkSize i acc = Some (acc ++ chunks) ∧
    concat chunks = drop (Z.to_nat i) m ∧
    Forall (λ c, 1 ≤ Z.of_nat (length c) ≤ chunkSize) chunks ∧
    (∀ j c, chunks !! j = Some c → (S j < length chunks)%nat →
       Z.of_nat (length c) = chunkSize) ∧
    Z.of_nat (length m) - i ≤ chunkSize * Z.of_nat (length chunks) ∧
    (chunks ≠ [] →
       chunkSize * (Z.of_nat (length chunks) - 1) < Z.of_nat (length m) - i).
Proof.
  intros Hc. revert i acc.
  induction fuel as [|fuel IH]; intros i acc Hi Hfuel; [lia|].
  cbn [splitMessage_loop].
  destruct (i <? Z.of_nat (length m)) eqn:Hlt; bool_to_prop.
  - rewrite slice_chunk by lia.
    set (c := take (Z.to_nat chunkSize) (drop (Z.to_nat i) m)).
    assert (Hlen : Z.of_nat (length c) = Z.min chunkSize (Z.of_nat (length m) - i)).
    { subst c. rewrite length_take, length_drop. lia. }
    destruct (IH (i + chunkSize) (acc ++ [c])) as (chunks & Hrun & Hcat & Hall & Hfull & Hlo & Hhi);
      [lia | lia |].
    exists (c :: chunks).
    split; [etransitivity; [exact Hrun|]; by rewrite <- app_assoc|].
    split; [|split; [|split; [|split]]].
    + cbn [concat]. rewrite Hcat.
      replace (Z.to_nat (i + chunkSize)) with (Z.to_nat i + Z.to_nat chunkSize)%nat by lia.
      rewrite <- drop_drop. apply take_drop.
    + constructor; [lia | exact Hall].
    + intros [|j] c' Hj Hlast; cbn in Hj.
      * inversion Hj; subst c'. cbn [length] in Hlast.
        destruct chunks as [|c2 chunks]; [cbn in Hlast; lia|].
        assert (chunkSize * (Z.of_nat (length (c2 :: chunks)) - 1)
                  < Z.of_nat (length m) - (i + chunkSize)) by (apply Hhi; done).
        cbn [length] in *. nia.
      * apply (Hfull j c' Hj). cbn [length] in Hlast. lia.
    + cbn [length]. nia.
    + intros _. cbn [length].
      destruct chunks as [|c2 chunks]; [cbn [length]; lia|].
      assert (chunkSize * (Z.of_nat (length (c2 :: chunks)) - 1)
                < Z.of_nat (length m) - (i + chunkSize)) by (apply Hhi; done).
      cbn [length] in *. nia.
  - exists []. rewrite app_nil_r. split; [reflexivity|].
    split; [|split; [|split; [|split]]].
    + cbn. rewrite drop_ge; [done | lia].
    + constructor.
    + intros j c Hj. by rewrite lookup_nil in Hj.
    + cbn [length]. lia.
    + done.
Qed.


(** X15. [splitMessage] with a chunk size of 0 or less never returns on a
    text that is not empty: however many steps the loop is given, it has
    not ended. *)
Theorem splitMessage_never_ends fuel (message : jsstring) chunkSize :
  chunkSize ≤ 0 → message ≠ [] →
  splitMessage fuel message chunkSize = None.
Proof.
  intros Hc Hm. unfold splitMessage.
  assert (Hloop : ∀ i acc, i ≤ 0 →
            splitMessage_loop fuel message chunkSize i acc = None).
  { induction fuel as [|fuel IH]; intros i acc Hi; [reflexivity|].
    cbn [splitMessage_loop].
    destruct (i <? Z.of_nat (length message)) eqn:Hlt.
    - apply IH. lia.
    - apply Z.ltb_ge in Hlt. destruct message; [done|]. cbn [length] in Hlt. lia. }
  apply Hloop. lia.
Qed.

(** X16. Chunks of 16 go through the packing.  Each chunk that
    [splitMessage] cuts with chunk size 16 is accepted by
    [messageToNumber]; and when the text is ASCII without NUL, each chunk
    comes back unchanged from [numberToMessage], so the text is recovered
    by joining what comes back. *)
Theorem chunks_of_16_round_trip fuel (message : jsstring) :
  (length message < fuel)%nat →
  ∃ chunks,
    splitMessage fuel message 16 = Some chunks ∧
    Forall (λ c, ∃ number, messageToNumber c = inr number) chunks ∧
    (Forall (λ u, 0 < u < 0x80) message →
       omap round_trip chunks = chunks ∧
       concat (omap round_trip chunks) = message).
Proof.
  intros Hfuel.
  destruct (splitMessage_loop_spec fuel message 16 0 [])
    as (chunks & Hrun & Hcat & Hall & _); [lia | lia | lia |].
  change (drop (Z.to_nat 0) message) with message in Hcat.
  exists chunks. split; [exact Hrun|]. split.
  - eapply Forall_impl; [exact Hall|]. cbn. intros c Hc.
    unfold messageToNumber.
    destruct (16 <? Z.of_nat (length c)) eqn:Ht; bool_to_prop; [lia | eauto].
  - intros Hascii.
    assert (Hback : omap round_trip chunks = chunks).
    { rewrite <- Hcat in Hascii. clear Hrun Hcat.
      induction Hall as [|c chunks Hc _ IH]; [reflexivity|].
      cbn [concat] in Hascii. apply Forall_app in Hascii as [Hc' Hrest].
      cbn [omap list_omap]. rewrite round_trip_ascii by (first [done | lia]).
      by rewrite IH. }
    by rewrite Hback.
Qed.

(** The bytes [numberToMessage] reads are those of the low 128 bits. *)
Lemma unpack_loop_low_bits number i todo :
  0 ≤ i → i + Z.of_nat todo ≤ 16 →
  unpack_loop (number mod 2 ^ 128) i todo = unpack_loop number i todo.
Proof.
  revert i. induction todo as [|todo IH]; intros i Hi Hend; [reflexivity|].
  cbn [unpack_loop].
  assert (Hbyte : Z.land (Z.shiftr (number mod 2 ^ 128) (i * 8)) 0xFF
                  = Z.land (Z.shiftr number (i * 8)) 0xFF).
  { apply Z.bits_inj'. intros k Hk. rewrite !Z.land_spec, !Z.shiftr_spec by lia.
    destruct (Z.lt_ge_cases k 8) as [Hlow|Hhigh].
    - rewrite Z.mod_pow2_bits_low by lia. reflexivity.
    - change 0xFF with (Z.ones 8). rewrite Z.ones_spec_high by lia.
      by rewrite !andb_false_r. }
  rewrite Hbyte. destruct (_ =? 0); [reflexivity|].
  f_equal. apply IH; lia.
Qed.

(** [numberToMessage] reads the low 128 bits of its argument and
    nothing else: two numbers that agree modulo 2^128 (negative ones
    included, in two's complement as BigInt has them) give the same text. *)
Theorem numberToMessage_low_128_bits (a b : Z) :
  a mod 2 ^ 128 = b mod 2 ^ 128 → numberToMessage a = numberToMessage b.
Proof.
  intros Hab. unfold numberToMessage.
  rewrite <- (unpack_loop_low_bits a 0 16), <- (unpack_loop_low_bits b 0 16) by lia.
  by rewrite Hab.
Qed.

End Chunks.

(* ===================================================================== *)
(** * Part 7: the scenario, continued                                     *)
(* ===================================================================== *)

(** The host closes the session after the question was asked. *)
Lemma closeSession_is_final_witness :
  let s := run (H:=accepting_engine) question_asked initial in
  let s' := run (H:=accepting_engine) [(host_env, CloseSession 1)] s in
  let s2 := run (H:=accepting_engine) [(asker_env, RequestQuestionAccess 1)] s' in
  Session.isActive (sessions s2).[1] = false ∧
  submitQuestion (H:=accepting_engine) asker_env 1 78 [] s2
    = Fail (Revert "Session not active") s2 ∧
  rejected (closeSession asker_env 1 s2) s2.
Proof.
  intros s s'.
  assert (Hok : closeSession host_env 1 s = Ok tt s') by (vm_compute; reflexivity).
  exact (closeSession_is_final (H:=accepting_engine) host_env 1 s s' Hok
           [(asker_env, RequestQuestionAccess 1)] asker_env 78 []).
Defined.

Lemma session_identity_fixed_witness :
  let s' := run (H:=accepting_engine) session_opened initial in
  let later := run (H:=accepting_engine) [(asker_env, SubmitQuestion 1 77 [])] s' in
  ∃ x, getSession 1 later = Ok x later ∧
    Session.id x = 1 ∧
    Session.host x = msg_sender host_env ∧
    Session.topic x = "AMA" ∧
    Session.description x = "desc" ∧
    Session.createdAt x = block_timestamp host_env ∧
    Session.expiresAt x = block_timestamp host_env + 3600.
Proof.
  intros s'.
  assert (Hr : reachable (H:=accepting_engine) initial) by (exists []; reflexivity).
  assert (Hok : createSession host_env "AMA" "desc" 3600 initial = Ok 1 s')
    by (vm_compute; reflexivity).
  exact (session_identity_fixed (H:=accepting_engine) host_env "AMA" "desc" 3600
           initial 1 s' Hr Hok [(asker_env, SubmitQuestion 1 77 [])]).
Defined.

Lemma question_handle_kept_witness :
  let s := run (H:=accepting_engine) session_opened initial in
  let s' := run (H:=accepting_engine) question_asked initial in
  ∃ handle,
    fromExternal (FHEVM:=accepting_engine) 77 [] = Some handle ∧
    ∀ txs env2,
      msg_sender env2 = Session.host (sessions s).[1] →
      getEncryptedQuestion env2 1 (run (H:=accepting_engine) txs s')
        = Ok handle (run (H:=accepting_engine) txs s') ∧
      (handle, msg_sender env2) ∈ acl (run (H:=accepting_engine) txs s').
Proof.
  intros s s'.
  assert (Hr : reachable (H:=accepting_engine) s) by (exists session_opened; reflexivity).
  assert (Hok : submitQuestion (H:=accepting_engine) asker_env 1 77 [] s = Ok 1 s')
    by (vm_compute; reflexivity).
  exact (question_handle_kept (H:=accepting_engine) asker_env 1 77 [] s 1 s' Hr Hok).
Defined.

Lemma answer_handle_kept_witness :
  let s := run (H:=accepting_engine) question_asked initial in
  let s' := run (H:=accepting_engine) question_answered initial in
  ∃ handle,
    fromExternal (FHEVM:=accepting_engine) 88 [] = Some handle ∧
    ∀ txs env2,
      msg_sender env2 = Question.asker (questions s).[1] →
      getEncryptedAnswer env2 1 (run (H:=accepting_engine) txs s')
        = Ok handle (run (H:=accepting_engine) txs s') ∧
      succeeds (requestAnswerAccess env2 1
                  (run (H:=accepting_engine) txs s')) ∧
      (handle, msg_sender env2) ∈ acl (run (H:=accepting_engine) txs s').
Proof.
  intros s s'.
  assert (Hok : answerQuestion (H:=accepting_engine) host_env 1 88 [] s = Ok tt s')
    by (vm_compute; reflexivity).
  exact (answer_handle_kept (H:=accepting_engine) host_env 1 88 [] s s' Hok).
Defined.

Lemma sessions_well_formed_witness :
  let s := run (H:=accepting_engine) question_answered initial in
  ∃ x, getSession 1 s = Ok x s ∧
    Session.id x = 1 ∧
    Session.topic x ≠ "" ∧
    Session.createdAt x < Session.expiresAt x ≤ MAX_UINT256.
Proof.
  intros s.
  refine (sessions_well_formed (H:=accepting_engine) s 1 _ _).
  - exists question_answered. reflexivity.
  - unfold session_exists. vm_compute. split; [reflexivity | discriminate].
Defined.

Lemma getHostSessions_exact_witness :
  let s := run (H:=accepting_engine) question_answered initial in
  ∃ l, getHostSessions alice s = Ok l s ∧
    StronglySorted Z.lt l ∧
    ∀ sessionId, sessionId ∈ l ↔
      session_exists s sessionId ∧ Session.host (sessions s).[sessionId] = alice.
Proof.
  intros s.
  refine (getHostSessions_exact (H:=accepting_engine) s alice _).
  exists question_answered. reflexivity.
Defined.

Lemma getUserQuestions_exact_witness :
  let s := run (H:=accepting_engine) question_answered initial in
  ∃ l, getUserQuestions bob s = Ok l s ∧
    StronglySorted Z.lt l ∧
    ∀ questionId, questionId ∈ l ↔
      question_exists s questionId ∧
      Question.asker (questions s).[questionId] = bob.
Proof.
  intros s.
  refine (getUserQuestions_exact (H:=accepting_engine) s bob _).
  exists question_answered. reflexivity.
Defined.

Lemma getSessionQuestions_exact_witness :
  let s := run (H:=accepting_engine) question_answered initial in
  ∃ l, getSessionQuestions 1 s = Ok l s ∧
    StronglySorted Z.lt l ∧
    Z.of_nat (length l) = Session.questionCount (sessions s).[1] ∧
    ∀ questionId, questionId ∈ l ↔
      question_exists s questionId ∧
      Question.sessionId (questions s).[questionId] = 1.
Proof.
  intros s.
  refine (proj2 (getSessionQuestions_exact (H:=accepting_engine) s 1) _ _).
  - exists question_answered. reflexivity.
  - unfold session_exists. vm_compute. split; [reflexivity | discriminate].
Defined.

(** The asker's permission on the answer: the question is answered. *)
Lemma grants_are_justified_witness :
  let s := run (H:=accepting_engine) question_answered initial in
  justified (H:=accepting_engine) s 88 bob.
Proof.
  intros s.
  refine (grants_are_justified (H:=accepting_engine) s 88 bob _ _).
  - exists question_answered. reflexivity.
  - apply list_elem_of_In. vm_compute. tauto.
Defined.

Lemma grants_are_complete_witness :
  let s := run (H:=accepting_engine) question_answered initial in
  ((encryptedQuestions s).[1], this (FHEVM:=accepting_engine)) ∈ acl s ∧
  ((encryptedQuestions s).[1],
   Session.host (sessions s).[Question.sessionId (questions s).[1]]) ∈ acl s ∧
  (Question.isAnswered (questions s).[1] = true →
     ((encryptedAnswers s).[1], this (FHEVM:=accepting_engine)) ∈ acl s ∧
     ((encryptedAnswers s).[1], Question.asker (questions s).[1]) ∈ acl s).
Proof.
  intros s.
  refine (grants_are_complete (H:=accepting_engine) s 1 _ _).
  - exists question_answered. reflexivity.
  - unfold question_exists. vm_compute. split; [reflexivity | discriminate].
Defined.

Lemma events_match_counters_witness :
  let s := run (H:=accepting_engine) question_answered initial in
  Z.of_nat (length (List.filter is_SessionCreated (events s))) = sessionCount s ∧
  Z.of_nat (length (List.filter is_QuestionSubmitted (events s))) = questionCount s.
Proof.
  intros s.
  refine (events_match_counters (H:=accepting_engine) s _).
  exists question_answered. reflexivity.
Defined.

(** The question keeps its asker when the host answers it. *)
Lemma ledger_only_grows_witness :
  let s := run (H:=accepting_engine) question_asked initial in
  let s' := run (H:=accepting_engine) [(host_env, AnswerQuestion 1 88 [])] s in
  Question.asker (questions s').[1] = Question.asker (questions s).[1].
Proof.
  intros s s'.
  destruct (ledger_only_grows (H:=accepting_engine) s [(host_env, AnswerQuestion 1 88 [])])
    as (_ & _ & _ & _ & _ & _ & _ & Hkept).
  refine (proj1 (proj2 (Hkept 1 _))).
  unfold question_exists. vm_compute. split; [reflexivity | discriminate].
Defined.

(** The session of the scenario expires at time 4600. *)
Lemma expiry_is_final_witness :
  let s := run (H:=accepting_engine) question_answered initial in
  let later := run (H:=accepting_engine) [(host_env, CloseSession 1)] s in
  isSessionExpired (mkEnv alice 6000) 1 later = Ok true later ∧
  rejected (submitQuestion (H:=accepting_engine) (mkEnv alice 6000) 1 79 [] later) later.
Proof.
  intros s.
  refine (proj2 (expiry_is_final (H:=accepting_engine) (mkEnv bob 5000) 1 s) _
            [(host_env, CloseSession 1)] (mkEnv alice 6000) 79 [] _).
  - vm_compute. reflexivity.
  - vm_compute. discriminate.
Defined.

Lemma getActiveSessionsCount_counts_witness :
  let s := run (H:=accepting_engine) question_answered initial in
  ∃ l, getActiveSessionsCount asker_env s = Ok (Z.of_nat (length l)) s ∧
    StronglySorted Z.lt l ∧
    Z.of_nat (length l) ≤ sessionCount s ∧
    ∀ sessionId, sessionId ∈ l ↔
      session_exists s sessionId ∧
      Session.isActive (sessions s).[sessionId] = true ∧
      block_timestamp asker_env < Session.expiresAt (sessions s).[sessionId].
Proof.
  intros s.
  refine (getActiveSessionsCount_counts asker_env s _).
  vm_compute. split; [discriminate | reflexivity].
Defined.


Lemma splitMessage_never_ends_witness :
  splitMessage 1000 (of_ascii "hello") 0 = None.
Proof.
  refine (splitMessage_never_ends 1000 (of_ascii "hello") 0 _ _).
  - lia.
  - vm_compute. discriminate.
Defined.

Lemma chunks_of_16_round_trip_witness :
  let message := of_ascii "What do you think of private answers?" in
  ∃ chunks,
    splitMessage 38 message 16 = Some chunks ∧
    Forall (λ c, ∃ number, messageToNumber c = inr number) chunks ∧
    (Forall (λ u, 0 < u < 0x80) message →
       omap round_trip chunks = chunks ∧
       concat (omap round_trip chunks) = message).
Proof.
  intros message.
  refine (chunks_of_16_round_trip 38 message _).
  vm_compute. lia.
Defined.

(** ["hi"] with a bit set above the 128th. *)
Lemma numberToMessage_low_128_bits_witness :
  numberToMessage (2 ^ 128 + 0x6968) = numberToMessage 0x6968.
Proof.
  refine (numberToMessage_low_128_bits (2 ^ 128 + 0x6968) 0x6968 _).
  vm_compute. reflexivity.
Defined.

(** The text of two code units and five bytes, U+00E9 U+20AC. *)
Lemma messageToNumber_fits_witness :
  0 ≤ pack_loop (TextEncoder_encode [0xE9; 0x20AC]) 0 0 < 2 ^ 128.
Proof.
  refine (messageToNumber_fits [0xE9; 0x20AC] _ _ _ _).
  - repeat constructor.
  - vm_compute. lia.
  - reflexivity.
Defined.

(* ===================================================================== *)
(** * Part 8: the [WhisperBox] contract's properties                      *)
(* ===================================================================== *)

Ltac wb_unfold :=
  cbv beta iota delta
    [WhisperBox.createProfile WhisperBox.generateUserId
     WhisperBox.sendAnonymousMessage WhisperBox.getMyMessages
     WhisperBox.getMessage WhisperBox.getEncryptedMessage
     WhisperBox.requestMessageAccess WhisperBox.markAsRead
     WhisperBox.getProfile WhisperBox.getProfileByUserId
     WhisperBox.getAddressFromUserId WhisperBox.exec
     WhisperBox.profileExists WhisperBox.messageExists WhisperBox.onlyRecipient
     WhisperBox.FHE_fromExternal WhisperBox.FHE_allow WhisperBox.FHE_allowThis
     WhisperBox.require WhisperBox.gets WhisperBox.modify WhisperBox.emit
     WhisperBox.checked_add WhisperBox.in_range
     mbind WhisperBox.M_bind mret WhisperBox.M_ret] in *.

Ltac wb_simpl :=
  cbn [WhisperBox.profiles WhisperBox.userIdToAddress WhisperBox.userMessages
       WhisperBox.messages WhisperBox.encryptedMessages WhisperBox.messageCounter
       WhisperBox.nonce WhisperBox.acl WhisperBox.events
       WhisperBox.upd_profiles WhisperBox.upd_userIdToAddress
       WhisperBox.upd_userMessages WhisperBox.upd_messages
       WhisperBox.upd_encryptedMessages WhisperBox.set_messageCounter
       WhisperBox.set_nonce WhisperBox.upd_acl WhisperBox.upd_events
       WhisperBox.UserProfile.userAddress WhisperBox.UserProfile.userId
       WhisperBox.UserProfile.username WhisperBox.UserProfile.messageCount
       WhisperBox.UserProfile.createdAt WhisperBox.UserProfile.isActive
       WhisperBox.UserProfile.set_messageCount
       WhisperBox.Message.id WhisperBox.Message.recipient
       WhisperBox.Message.timestamp WhisperBox.Message.isRead
       WhisperBox.Message.set_isRead
       fst snd msg_sender block_timestamp] in *.

Ltac wb_case :=
  match goal with
  | H : context [if ?c then _ else _] |- _ => destruct c eqn:?
  | |- context [if ?c then _ else _] => destruct c eqn:?
  | H : context [match fromExternal ?a ?b with _ => _ end] |- _ =>
      destruct (fromExternal a b) eqn:?
  | |- context [match fromExternal ?a ?b with _ => _ end] =>
      destruct (fromExternal a b) eqn:?
  | H : context [match WhisperBox.hashBytes_loop ?a ?b ?c ?d with _ => _ end] |- _ =>
      destruct (WhisperBox.hashBytes_loop a b c d) eqn:?
  | |- context [match WhisperBox.hashBytes_loop ?a ?b ?c ?d with _ => _ end] =>
      destruct (WhisperBox.hashBytes_loop a b c d) eqn:?
  | H : context [match WhisperBox.toHexString ?a with _ => _ end] |- _ =>
      destruct (WhisperBox.toHexString a) eqn:?
  | |- context [match WhisperBox.toHexString ?a with _ => _ end] =>
      destruct (WhisperBox.toHexString a) eqn:?
  end.

Ltac wb_run :=
  wb_unfold; wb_simpl;
  repeat (wb_case; cbv beta iota in *; wb_simpl).

Section HexStrings.
Import WhisperBox.

Lemma index_hexChars v :
  0 ≤ v < 16 → index hexChars v = Some (hex_digit v).
Proof.
  intros Hv.
  assert (Hcases : v = 0 ∨ v = 1 ∨ v = 2 ∨ v = 3 ∨ v = 4 ∨ v = 5 ∨ v = 6 ∨ v = 7 ∨
                   v = 8 ∨ v = 9 ∨ v = 10 ∨ v = 11 ∨ v = 12 ∨ v = 13 ∨ v = 14 ∨
                   v = 15) by lia.
  repeat (destruct Hcases as [->|Hcases]; [reflexivity|]). by subst v.
Qed.

Lemma hex_digit_value v :
  0 ≤ v < 16 → is_hex_digit (hex_digit v) ∧ hex_value (hex_digit v) = v.
Proof.
  intros Hv. unfold is_hex_digit, hex_value, hex_digit.
  destruct (v <? 10) eqn:Hlt; bool_to_prop.
  - replace (0x30 + v <=? 0x39) with true by (symmetry; apply Z.leb_le; lia). lia.
  - replace (0x61 + (v - 10) <=? 0x39) with false by (symmetry; apply Z.leb_gt; lia).
    lia.
Qed.

Lemma index_lookup {A} (a : list A) (i : nat) x :
  a !! i = Some x → index a (Z.of_nat i) = Some x.
Proof.
  intros Hx. unfold index. pose proof (lookup_lt_Some _ _ _ Hx).
  replace (0 <=? Z.of_nat i) with true by (symmetry; apply Z.leb_le; lia).
  replace (Z.of_nat i <? Z.of_nat (length a)) with true
    by (symmetry; apply Z.ltb_lt; lia).
  cbn [andb]. by rewrite Nat2Z.id.
Qed.

Lemma store_in_range {A} (a : list A) (i : nat) x :
  (i < length a)%nat → store a (Z.of_nat i) x = Some (<[i := x]> a).
Proof.
  intros Hi. unfold store.
  replace (0 <=? Z.of_nat i) with true by (symmetry; apply Z.leb_le; lia).
  replace (Z.of_nat i <? Z.of_nat (length a)) with true
    by (symmetry; apply Z.ltb_lt; lia).
  cbn [andb]. by rewrite Nat2Z.id.
Qed.

(** What the loop has written when it ends: the digits of the bytes from
    [i] on, after what was there before. *)
Lemma toHexString_loop_spec todo data (i : nat) str :
  Forall is_byte data →
  (i + todo = length data)%nat → length str = (2 * length data)%nat →
  toHexString_loop todo data (Z.of_nat i) str
  = Some (take (2 * i) str
          ++ flat_map (λ d, [hex_digit (d / 16); hex_digit (d mod 16)]) (drop i data)).
Proof.
  intros Hbytes. revert i str.
  induction todo as [|todo IH]; intros i str Hi Hlen.
  - cbn [toHexString_loop]. rewrite drop_ge by lia. cbn [flat_map].
    rewrite app_nil_r, take_ge by lia. reflexivity.
  - cbn [toHexString_loop].
    destruct (lookup_lt_is_Some_2 data i ltac:(lia)) as [d Hd].
    pose proof (proj1 (list.Forall_forall _ _) Hbytes d
                  (list_elem_of_lookup_2 _ _ _ Hd)) as Hb. unfold is_byte in Hb.
    rewrite (index_lookup _ _ _ Hd). cbn [mbind option_bind].
    rewrite Z.shiftr_div_pow2 by lia. change (2 ^ 4) with 16.
    rewrite (index_hexChars (d / 16)) by dlia. cbn [mbind option_bind].
    replace (Z.of_nat i * 2) with (Z.of_nat (2 * i)) by lia.
    rewrite store_in_range by lia. cbn [mbind option_bind].
    change 0x0f with (Z.ones 4). rewrite Z.land_ones by lia. change (2 ^ 4) with 16.
    rewrite (index_hexChars (d mod 16)) by dlia. cbn [mbind option_bind].
    replace (Z.of_nat (2 * i) + 1) with (Z.of_nat (2 * i + 1)) by lia.
    rewrite store_in_range by (rewrite length_insert; lia). cbn [mbind option_bind].
    replace (Z.of_nat i + 1) with (Z.of_nat (S i)) by lia.
    rewrite IH by (rewrite ?length_insert; lia).
    f_equal. rewrite (drop_S _ _ _ Hd). cbn [flat_map app].
    replace (2 * S i)%nat with (S (S (2 * i))) by lia.
    set (hi := hex_digit (d / 16)). set (lo := hex_digit (d mod 16)).
    apply list_eq. intros k.
    destruct (lt_eq_lt_dec k (2 * i)) as [[Hk|Hk]|Hk].
    + rewrite !lookup_app_l by (rewrite length_take, ?length_insert; lia).
      rewrite !lookup_take_lt by lia.
      rewrite !list_lookup_insert_ne by lia. reflexivity.
    + subst k. rewrite lookup_app_l by (rewrite length_take, ?length_insert; lia).
      rewrite lookup_take_lt by lia.
      rewrite list_lookup_insert_ne by lia.
      rewrite list_lookup_insert_eq by lia.
      rewrite lookup_app_r by (rewrite length_take; lia).
      rewrite length_take. replace (2 * i - (2 * i) `min` length str)%nat with 0%nat by lia.
      reflexivity.
    + destruct (decide (k = 2 * i + 1)%nat) as [->|Hne].
      * rewrite lookup_app_l by (rewrite length_take, ?length_insert; lia).
        rewrite lookup_take_lt by lia.
        rewrite list_lookup_insert_eq by (rewrite length_insert; lia).
        rewrite lookup_app_r by (rewrite length_take; lia).
        rewrite length_take.
        replace (2 * i + 1 - (2 * i) `min` length str)%nat with 1%nat by lia.
        reflexivity.
      * rewrite !lookup_app_r by (rewrite length_take, ?length_insert; lia).
        rewrite !length_take, !length_insert.
        replace (k - (2 * i) `min` length str)%nat
          with (S (S (k - S (S (2 * i)) `min` length str)))%nat by lia.
        reflexivity.
Qed.

Lemma toHexString_flat_map data :
  Forall is_byte data →
  toHexString data
  = Some (flat_map (λ d, [hex_digit (d / 16); hex_digit (d mod 16)]) data).
Proof.
  intros Hbytes. unfold toHexString.
  rewrite (toHexString_loop_spec (length data) data 0);
    [reflexivity | done | lia | rewrite length_replicate; lia].
Qed.

End HexStrings.


Lemma wb_Ok_inv {A} (a b : A) s s' :
  WhisperBox.Ok a s = WhisperBox.Ok b s' → a = b ∧ s = s'.
Proof. intros Heq. by inversion Heq. Qed.

(** A call that ended normally, split into the cases of its tests. *)
Ltac wb_ended_normally Hok :=
  revert Hok; wb_run; try discriminate; intros Hok;
  apply wb_Ok_inv in Hok as [? ?]; subst; wb_simpl; bool_to_prop.

(** The two cases of a read after a write: the same key, or another. *)
Ltac split_at x :=
  match goal with
  | |- context [(<[?k:=_]> _).[x]] =>
      let E := fresh "E" in
      destruct (decide (k = x)) as [E|E];
        [ first [subst x | rewrite <- ?E]; rewrite ?at_key_insert_eq
        | repeat match goal with
                 | |- context [(<[k:=?v]> ?m).[x]] =>
                     rewrite (at_key_insert_ne m k x v) by exact E
                 end ]
  end.

Section Letters.
Import WhisperBox.
Context `{FHEVM} `{Keccak256}.

Lemma wb_step_cases s tx :
  step s tx = s ∨ ∃ s', exec (fst tx) (snd tx) s = Ok tt s' ∧ step s tx = s'.
Proof.
  unfold step, call. destruct (exec (fst tx) (snd tx) s) as [[] s'|f s'] eqn:He;
    cbn [snd]; eauto.
Qed.

Lemma wb_run_snoc txs tx s : run (txs ++ [tx]) s = step (run txs s) tx.
Proof. unfold run. by rewrite fold_left_app. Qed.

(** ** Nothing recorded is rewritten *)

Lemma keeps_refl s : keeps s s.
Proof. constructor; try done; lia. Qed.

Lemma keeps_trans s1 s2 s3 : keeps s1 s2 → keeps s2 s3 → keeps s1 s3.
Proof.
  intros H12 H23. constructor.
  - pose proof (keeps_counter _ _ H12). pose proof (keeps_counter _ _ H23). lia.
  - intros a Ha.
    destruct (keeps_profile _ _ H12 a Ha) as (Ha2 & A1 & A2 & A3 & A4).
    destruct (keeps_profile _ _ H23 a Ha2) as (Ha3 & B1 & B2 & B3 & B4).
    repeat split; congruence.
  - intros id Hid.
    destruct (keeps_message _ _ H12 id Hid) as (A1 & A2 & A3 & A4 & A5).
    assert (Hid2 : message_exists s2 id).
    { pose proof (keeps_counter _ _ H12). unfold message_exists in *. lia. }
    destruct (keeps_message _ _ H23 id Hid2) as (B1 & B2 & B3 & B4 & B5).
    repeat split; try congruence. auto.
  - intros g Hg. by apply (keeps_acl _ _ H23), (keeps_acl _ _ H12).
  - etransitivity; [apply (keeps_events _ _ H12) | apply (keeps_events _ _ H23)].
  - intros a. etransitivity; [apply (keeps_inbox _ _ H12) | apply (keeps_inbox _ _ H23)].
Qed.

Lemma keeps_step s tx : keeps s (step s tx).
Proof.
  destruct (wb_step_cases s tx) as [->|(s' & Hok & ->)]; [apply keeps_refl|].
  destruct tx as [env c]. cbn [fst snd] in Hok.
  destruct c; wb_ended_normally Hok.
  all: constructor; unfold message_exists; wb_simpl;
    try done; try lia;
    try (intros; apply prefix_at_key_snoc);
    try (apply prefix_of_snoc);
    try (intros g Hg; rewrite ?elem_of_cons; by auto).
  - (* createProfile: the caller had no profile *)
    intros a Ha. rewrite at_key_insert_ne by congruence. done.
  - (* sendAnonymousMessage: the recipient's count *)
    intros a Ha. split_key a; wb_simpl; done.
  - (* sendAnonymousMessage: a new id *)
    intros id Hid. rewrite !at_key_insert_ne by lia. done.
  - (* markAsRead *)
    intros id Hid. split_key id; wb_simpl; done.
Qed.

Lemma keeps_run txs s : keeps s (run txs s).
Proof.
  revert s. induction txs as [|tx txs IH]; intros s; [apply keeps_refl|].
  cbn [run fold_left]. eapply keeps_trans; [apply keeps_step | apply IH].
Qed.

End Letters.


Section Tidy.
Import WhisperBox.
Context `{FHEVM} `{Keccak256}.

(** ** Generated ids *)

Lemma flat_map_pairs_length {A B} (f g : A → B) (l : list A) :
  length (flat_map (λ d, [f d; g d]) l) = (2 * length l)%nat.
Proof. induction l as [|d l IH]; cbn [flat_map length app]; lia. Qed.

Lemma flat_map_pairs_lookup {A B} (f g : A → B) (l : list A) i d :
  l !! i = Some d →
  flat_map (λ d, [f d; g d]) l !! (2 * i)%nat = Some (f d) ∧
  flat_map (λ d, [f d; g d]) l !! (2 * i + 1)%nat = Some (g d).
Proof.
  revert i. induction l as [|x l IH]; intros i Hd; [by rewrite lookup_nil in Hd|].
  destruct i as [|i]; cbn [flat_map app].
  - cbn in Hd. inversion Hd; subst. done.
  - cbn in Hd. replace (2 * S i)%nat with (S (S (2 * i))) by lia.
    cbn [Nat.add lookup list_lookup]. by apply IH.
Qed.

Lemma toHexString_hex data str :
  Forall is_byte data → toHexString data = Some str →
  length str = (2 * length data)%nat ∧ Forall is_hex_digit str.
Proof.
  intros Hbytes Hstr. rewrite toHexString_flat_map in Hstr by done.
  inversion Hstr; subst str; clear Hstr.
  split; [apply flat_map_pairs_length|].
  induction Hbytes as [|d data Hd _ IH]; [constructor|].
  cbn [flat_map app]. unfold is_byte in Hd.
  constructor; [apply hex_digit_value; dlia|].
  constructor; [apply hex_digit_value; dlia|]. exact IH.
Qed.

Lemma hashBytes_loop_bytes hash hashBytes :
  hashBytes_loop 4 hash 0 (replicate 4 0) = Some hashBytes →
  length hashBytes = 4%nat ∧ Forall is_byte hashBytes.
Proof.
  intros Heq. cbn in Heq. inversion Heq; subst hashBytes; clear Heq.
  split; [reflexivity|].
  repeat constructor; try (apply Z.land_nonneg; right; lia);
    change 255 with (Z.ones 8); rewrite Z.land_ones by lia;
    apply Z.mod_pos_bound; lia.
Qed.

(** The id [generateUserId] returns has eight hexadecimal digits. *)
Lemma generateUserId_hex hash hashBytes userId :
  hashBytes_loop 4 hash 0 (replicate 4 0) = Some hashBytes →
  toHexString hashBytes = Some userId →
  length userId = 8%nat ∧ Forall is_hex_digit userId.
Proof.
  intros Hb Hs. destruct (hashBytes_loop_bytes _ _ Hb) as [Hlen Hbytes].
  destruct (toHexString_hex _ _ Hbytes Hs) as [Hlen' Hhex].
  split; [lia | exact Hhex].
Qed.

(** ** Sorted lists of ids *)

Lemma sorted_length_bound (l : list Z) lo hi :
  StronglySorted Z.lt l → (∀ x, x ∈ l → lo ≤ x < hi) → lo ≤ hi →
  Z.of_nat (length l) ≤ hi - lo.
Proof.
  intros Hs. revert lo. induction Hs as [|x l Hl IH Hx]; intros lo Hin Hle.
  - cbn. lia.
  - cbn [length].
    assert (lo ≤ x < hi) by (apply Hin, elem_of_cons; by left).
    assert (Z.of_nat (length l) ≤ hi - (x + 1)); [|lia].
    apply IH; [|lia]. intros y Hy.
    assert (lo ≤ y < hi) by (apply Hin, elem_of_cons; by right).
    assert (x < y); [|lia].
    by apply (proj1 (list.Forall_forall _ _) Hx).
Qed.

Lemma tidy_initial : tidy initial.
Proof.
  constructor; unfold message_exists; cbn [initial messageCounter profiles
    userIdToAddress userMessages messages encryptedMessages acl].
  - unfold MAX_UINT256. lia.
  - intros id Hid. lia.
  - intros a id. unfold at_key at 1. rewrite lookup_empty. cbn.
    split; [intros Hin; by apply elem_of_nil in Hin | intros [? _]; lia].
  - intros a. unfold at_key. rewrite lookup_empty. constructor.
  - intros a. unfold at_key. rewrite !lookup_empty. reflexivity.
  - intros uid Hne. exfalso. apply Hne. unfold at_id. by rewrite lookup_empty.
  - intros a. unfold at_key. rewrite !lookup_empty. discriminate.
  - intros c a Hin. by apply elem_of_nil in Hin.
  - intros id Hid. lia.
Qed.

(** An address without a profile has no message. *)
Lemma no_profile_no_message s a :
  tidy s → UserProfile.isActive (profiles s).[a] = false → (userMessages s).[a] = [].
Proof.
  intros Ht Ha. apply no_member_nil. intros id Hid.
  apply (inbox_exact s Ht) in Hid as [Hex Hrec].
  destruct (message_shape s Ht id Hex) as [_ Hact]. congruence.
Qed.

(** An inbox holds fewer ids than the counter says. *)
Lemma inbox_length s a :
  tidy s → Z.of_nat (length (userMessages s).[a]) ≤ messageCounter s - 1.
Proof.
  intros Ht. apply sorted_length_bound.
  - apply (inbox_sorted s Ht).
  - intros x Hx. apply (inbox_exact s Ht) in Hx as [Hex _].
    unfold message_exists in Hex. lia.
  - pose proof (counter_range s Ht). lia.
Qed.

Lemma at_id_insert_eq (m : gmap (list Z) address) k a :
  at_id (<[k:=a]> m) k = a.
Proof. unfold at_id. by rewrite lookup_insert_eq. Qed.

Lemma at_id_insert_ne (m : gmap (list Z) address) k k' a :
  k ≠ k' → at_id (<[k:=a]> m) k' = at_id m k'.
Proof. intros. unfold at_id. by rewrite lookup_insert_ne. Qed.

Lemma tidy_createProfile env s s' :
  tidy s → createProfile env s = Ok tt s' → tidy s'.
Proof.
  intros Ht Hok. pose proof (counter_range s Ht) as Hcr.
  pose proof (no_profile_no_message s (msg_sender env) Ht) as Hempty.
  wb_ended_normally Hok.
  match goal with
  | Hb : hashBytes_loop _ _ _ _ = Some _, Hs : toHexString _ = Some _ |- _ =>
      destruct (generateUserId_hex _ _ _ Hb Hs) as [Hlen Hhex]
  end.
  constructor; unfold message_exists in *; wb_simpl.
  - exact Hcr.
  - intros id Hid. destruct (message_shape s Ht id Hid) as [Hi Ha].
    split; [exact Hi|]. split_at (Message.recipient (messages s).[id]); wb_simpl; done.
  - apply (inbox_exact s Ht).
  - apply (inbox_sorted s Ht).
  - intros a. split_at a; wb_simpl.
    + by rewrite Hempty.
    + apply (inbox_count s Ht).
  - intros uid. destruct (decide (l0 = uid)) as [->|Hne].
    + rewrite at_id_insert_eq, at_key_insert_eq. done.
    + rewrite at_id_insert_ne by done. intros Hnz.
      pose proof (directory_active s Ht uid Hnz) as [Ha Hu].
      rewrite at_key_insert_ne by congruence. done.
  - intros a. split_at a; wb_simpl.
    + intros _. done.
    + apply (profile_shape s Ht).
  - apply (permissions_justified s Ht).
  - apply (permissions_complete s Ht).
Qed.

Lemma tidy_sendAnonymousMessage env recipientUserId e p s id s' :
  tidy s → sendAnonymousMessage env recipientUserId e p s = Ok id s' → tidy s'.
Proof.
  intros Ht Hok. pose proof (counter_range s Ht) as Hcr.
  wb_ended_normally Hok.
  set (r := at_id (userIdToAddress s) recipientUserId) in *.
  constructor; unfold message_exists in *; wb_simpl.
  - lia.
  - intros k Hk. destruct (decide (k = messageCounter s)) as [->|Hne].
    + rewrite !at_key_insert_eq. wb_simpl. rewrite ?at_key_insert_eq. done.
    + rewrite !at_key_insert_ne by lia.
      destruct (message_shape s Ht k ltac:(unfold message_exists; lia)) as [Hi Ha].
      split; [exact Hi|]. split_at (Message.recipient (messages s).[k]); wb_simpl; done.
  - intros a k. pose proof (inbox_exact s Ht a k) as Hold.
    unfold message_exists in Hold.
    split_at a; split_at k; wb_simpl;
      rewrite ?elem_of_app, ?list_elem_of_singleton;
      try rewrite Hold; intuition (try lia; try congruence).
  - intros a. pose proof (inbox_sorted s Ht a) as Hold.
    split_at a; [|exact Hold].
    apply sorted_snoc; [exact Hold|].
    intros x Hx. apply (inbox_exact s Ht) in Hx as [Hx _].
    unfold message_exists in Hx. lia.
  - intros a. pose proof (inbox_count s Ht a) as Hold.
    split_at a; wb_simpl; [|exact Hold].
    rewrite length_app. cbn [length]. lia.
  - intros uid Hnz. pose proof (directory_active s Ht uid Hnz) as [Ha Hu].
    split_at (at_id (userIdToAddress s) uid); wb_simpl; split; congruence.
  - intros a. pose proof (profile_shape s Ht a) as Hold.
    split_at a; wb_simpl; exact Hold.
  - intros c a. rewrite !elem_of_cons. intros [Hin|[Hin|Hin]].
    + inversion Hin; subst. by left.
    + inversion Hin; subst. right. exists (messageCounter s).
      rewrite !at_key_insert_eq. split; [lia|done].
    + destruct (permissions_justified s Ht c a Hin) as [->|(k & Hk & -> & ->)];
        [by left|].
      unfold message_exists in Hk.
      right. exists k. rewrite !at_key_insert_ne by lia. split; [lia|done].
  - intros k Hk. destruct (decide (k = messageCounter s)) as [->|Hne].
    + rewrite !at_key_insert_eq. wb_simpl. rewrite !elem_of_cons. auto.
    + rewrite !at_key_insert_ne by lia.
      destruct (permissions_complete s Ht k ltac:(unfold message_exists; lia)) as [A B].
      rewrite !elem_of_cons. auto.
Qed.

Lemma tidy_requestMessageAccess env messageId s s' :
  tidy s → requestMessageAccess env messageId s = Ok tt s' → tidy s'.
Proof.
  intros Ht Hok. pose proof (counter_range s Ht) as Hcr.
  wb_ended_normally Hok.
  constructor; unfold message_exists in *; wb_simpl;
    try (by apply Ht).
  - intros c a. rewrite elem_of_cons. intros [Hin|Hin].
    + inversion Hin; subst. right. exists messageId. split; [lia|done].
    + by apply (permissions_justified s Ht).
  - intros k Hk. destruct (permissions_complete s Ht k Hk) as [A B].
    rewrite !elem_of_cons. auto.
Qed.

Lemma tidy_markAsRead env messageId s s' :
  tidy s → markAsRead env messageId s = Ok tt s' → tidy s'.
Proof.
  intros Ht Hok. pose proof (counter_range s Ht) as Hcr.
  wb_ended_normally Hok.
  constructor; unfold message_exists in *; wb_simpl;
    rewrite ?(at_key_insert_field Message.id) by reflexivity;
    try (by apply Ht).
  - intros k Hk.
    rewrite (at_key_insert_field Message.id),
            (at_key_insert_field Message.recipient) by reflexivity.
    by apply (message_shape s Ht).
  - intros a k. rewrite (at_key_insert_field Message.recipient) by reflexivity.
    apply (inbox_exact s Ht).
  - intros c a Hin.
    destruct (permissions_justified s Ht c a Hin) as [->|(k & Hk & -> & ->)];
      [by left|].
    unfold message_exists in Hk.
    right. exists k. rewrite (at_key_insert_field Message.recipient) by reflexivity.
    done.
  - intros k Hk. rewrite (at_key_insert_field Message.recipient) by reflexivity.
    by apply (permissions_complete s Ht).
Qed.

Lemma tidy_step s tx : tidy s → tidy (step s tx).
Proof.
  intros Ht.
  destruct (wb_step_cases s tx) as [->|(s' & Hok & ->)]; [done|].
  destruct tx as [env c]. cbn [fst snd] in Hok. destruct c; cbn [exec] in Hok.
  - by apply (tidy_createProfile env s).
  - unfold mbind, M_bind in Hok.
    destruct (sendAnonymousMessage env recipientUserId encryptedContent inputProof s)
      as [id s1|] eqn:Hsend; [|discriminate].
    apply wb_Ok_inv in Hok as [_ <-].
    by apply (tidy_sendAnonymousMessage env recipientUserId encryptedContent
                inputProof s id).
  - by apply (tidy_requestMessageAccess env messageId s).
  - by apply (tidy_markAsRead env messageId s).
Qed.

Lemma tidy_run txs s : tidy s → tidy (run txs s).
Proof.
  revert s. induction txs as [|tx txs IH]; intros s Ht; [done|].
  cbn [run fold_left]. apply IH. by apply tidy_step.
Qed.

Lemma reachable_tidy s : reachable s → tidy s.
Proof. intros [txs ->]. apply tidy_run, tidy_initial. Qed.

End Tidy.


Section Whispers.
Import WhisperBox.
Context `{FHEVM} `{Keccak256}.

(** ** Hexadecimal ids *)

(** X18. [toHexString] writes two lower-case hexadecimal digits per byte.
    On bytes it does not stop; the string has twice the length of the
    data, holds only characters of [0-9a-f], and its digits at [2i] and
    [2i + 1] have the value of the byte at [i], high half first. *)
Theorem toHexString_digits data :
  Forall is_byte data →
  ∃ str, toHexString data = Some str ∧
    length str = (2 * length data)%nat ∧
    Forall is_hex_digit str ∧
    ∀ i d, data !! i = Some d →
      ∃ hi lo, str !! (2 * i)%nat = Some hi ∧ str !! (2 * i + 1)%nat = Some lo ∧
               16 * hex_value hi + hex_value lo = d.
Proof.
  intros Hbytes.
  pose proof (toHexString_flat_map data Hbytes) as Hstr.
  destruct (toHexString_hex data _ Hbytes Hstr) as [Hlen Hhex].
  eexists. split; [exact Hstr|]. split; [exact Hlen|]. split; [exact Hhex|].
  intros i d Hd.
  pose proof (proj1 (list.Forall_forall _ _) Hbytes d
                (list_elem_of_lookup_2 _ _ _ Hd)) as Hb. unfold is_byte in Hb.
  destruct (flat_map_pairs_lookup (λ d, hex_digit (d / 16)) (λ d, hex_digit (d mod 16))
              data i d Hd) as [Hhi Hlo].
  exists (hex_digit (d / 16)), (hex_digit (d mod 16)).
  split; [exact Hhi|]. split; [exact Hlo|].
  rewrite (proj2 (hex_digit_value (d / 16) ltac:(dlia))).
  rewrite (proj2 (hex_digit_value (d mod 16) ltac:(dlia))). dlia.
Qed.

(** ** Profiles *)

(** X19. A profile is created once and stays.  After a successful
    [createProfile], in every later state [getProfile] on the caller
    succeeds and reports the caller's address, the block time of the
    creation, an id of eight hexadecimal digits and the username
    ["user_"] followed by the id; and every further [createProfile] by the
    caller stops at "Profile already exists". *)
Theorem profile_is_permanent env s s' :
  createProfile env s = Ok tt s' →
  ∀ txs, ∃ x,
    getProfile (msg_sender env) (run txs s') = Ok x (run txs s') ∧
    UserProfile.userAddress x = msg_sender env ∧
    UserProfile.createdAt x = block_timestamp env ∧
    length (UserProfile.userId x) = 8%nat ∧
    Forall is_hex_digit (UserProfile.userId x) ∧
    UserProfile.username x = bytes_of "user_" ++ UserProfile.userId x ∧
    ∀ env2, msg_sender env2 = msg_sender env →
      createProfile env2 (run txs s')
        = Fail (Revert "Profile already exists") (run txs s').
Proof.
  intros Hok txs.
  assert (Hnew : UserProfile.isActive (profiles s').[msg_sender env] = true ∧
    UserProfile.userAddress (profiles s').[msg_sender env] = msg_sender env ∧
    UserProfile.createdAt (profiles s').[msg_sender env] = block_timestamp env ∧
    length (UserProfile.userId (profiles s').[msg_sender env]) = 8%nat ∧
    Forall is_hex_digit (UserProfile.userId (profiles s').[msg_sender env]) ∧
    UserProfile.username (profiles s').[msg_sender env]
      = bytes_of "user_" ++ UserProfile.userId (profiles s').[msg_sender env]).
  { wb_ended_normally Hok. rewrite !at_key_insert_eq. wb_simpl.
    match goal with
    | Hb : hashBytes_loop _ _ _ _ = Some _, Hs : toHexString _ = Some _ |- _ =>
        destruct (generateUserId_hex _ _ _ Hb Hs) as [Hlen Hhex]
    end. done. }
  clear Hok. destruct Hnew as (Ha & H1 & H2 & H3 & H4 & H5).
  destruct (keeps_profile _ _ (keeps_run txs s') _ Ha) as (Ha' & K1 & K2 & K3 & K4).
  exists (profiles (run txs s')).[msg_sender env].
  split; [wb_run; [reflexivity | congruence]|].
  rewrite K1, K2, K3, K4. repeat (split; [done|]).
  intros env2 Hsame. wb_run; bool_to_prop; first [reflexivity | exfalso; congruence].
Qed.

(** ** Inboxes *)

(** X20. [getMyMessages] lists exactly the caller's messages.  In every
    reachable state it returns, without changing anything, a strictly
    ascending list of ids that contains an id exactly when the message
    exists and is addressed to the caller; its length is the
    [messageCount] of the caller's profile. *)
Theorem getMyMessages_exact env s :
  reachable s →
  ∃ l, getMyMessages env s = Ok l s ∧
    StronglySorted Z.lt l ∧
    Z.of_nat (length l) = UserProfile.messageCount (profiles s).[msg_sender env] ∧
    ∀ messageId, messageId ∈ l ↔
      message_exists s messageId ∧
      Message.recipient (messages s).[messageId] = msg_sender env.
Proof.
  intros Hr. pose proof (reachable_tidy s Hr) as Ht.
  exists (userMessages s).[msg_sender env]. split; [reflexivity|].
  split; [apply (inbox_sorted s Ht)|].
  split; [symmetry; apply (inbox_count s Ht)|].
  apply (inbox_exact s Ht).
Qed.

End Whispers.


Section Pages.
Import WhisperBox.
Context `{FHEVM} `{Keccak256}.

(** ** The loops over an inbox *)

Lemma getMessagesPaginated_loop_spec todo allMessages (offset i : nat) result s :
  (i + todo = length result)%nat →
  (offset + i + todo ≤ length allMessages)%nat →
  Z.of_nat (length allMessages) ≤ MAX_UINT256 →
  getMessagesPaginated_loop todo allMessages (Z.of_nat offset) (Z.of_nat i) result s
  = Ok (take i result ++ take todo (drop (offset + i) allMessages)) s.
Proof.
  revert i result. induction todo as [|todo IH]; intros i result Hres Hall Hmax.
  - cbn. rewrite app_nil_r, take_ge by lia. reflexivity.
  - cbn [getMessagesPaginated_loop]. unfold mbind, M_bind, checked_add, in_range.
    replace (Z.of_nat offset + Z.of_nat i <=? MAX_UINT256) with true
      by (symmetry; apply Z.leb_le; lia).
    destruct (lookup_lt_is_Some_2 allMessages (offset + i) ltac:(lia)) as [x Hx].
    replace (Z.of_nat offset + Z.of_nat i) with (Z.of_nat (offset + i)) by lia.
    rewrite (index_lookup _ _ _ Hx).
    rewrite store_in_range by lia.
    replace (Z.of_nat i + 1 <=? MAX_UINT256) with true
      by (symmetry; apply Z.leb_le; lia).
    replace (Z.of_nat i + 1) with (Z.of_nat (S i)) by lia.
    rewrite IH by (rewrite ?length_insert; lia).
    f_equal.
    rewrite (take_S_r (<[i:=x]> result) i x)
      by (apply list_lookup_insert_eq; lia).
    rewrite take_insert_ge by lia.
    rewrite (drop_S _ _ _ Hx). cbn [take].
    replace (offset + S i)%nat with (S (offset + i)) by lia.
    by rewrite <- app_assoc.
Qed.

Lemma unread_length s l : (length (unread s l) ≤ length l)%nat.
Proof.
  unfold unread. induction l as [|x l IH]; cbn [List.filter length]; [lia|].
  destruct (negb _); cbn [length]; lia.
Qed.

Lemma getUnreadCount_loop_spec todo messageIds (i : nat) unreadCount s :
  (i + todo = length messageIds)%nat →
  0 ≤ unreadCount → unreadCount + Z.of_nat todo ≤ MAX_UINT256 →
  Z.of_nat (length messageIds) ≤ MAX_UINT256 →
  getUnreadCount_loop todo messageIds (Z.of_nat i) unreadCount s
  = Ok (unreadCount + Z.of_nat (length (unread s (drop i messageIds)))) s.
Proof.
  revert i unreadCount.
  induction todo as [|todo IH]; intros i c Hlen Hc Hmax Hall.
  - cbn. rewrite drop_ge by lia. cbn. f_equal. lia.
  - cbn [getUnreadCount_loop]. unfold mbind, M_bind, checked_add, in_range, gets.
    destruct (lookup_lt_is_Some_2 messageIds i ltac:(lia)) as [x Hx].
    rewrite (index_lookup _ _ _ Hx).
    rewrite (drop_S _ _ _ Hx). unfold unread at 1. cbn [List.filter].
    fold (unread s (drop (S i) messageIds)).
    replace (Z.of_nat i + 1) with (Z.of_nat (S i)) by lia.
    destruct (negb (Message.isRead (messages s).[x])); unfold mret, M_ret.
    + replace (c + 1 <=? MAX_UINT256) with true by (symmetry; apply Z.leb_le; lia).
      replace (Z.of_nat (S i) <=? MAX_UINT256) with true
        by (symmetry; apply Z.leb_le; lia).
      rewrite IH by lia. cbn [length]. f_equal. lia.
    + replace (Z.of_nat (S i) <=? MAX_UINT256) with true
        by (symmetry; apply Z.leb_le; lia).
      rewrite IH by lia. reflexivity.
Qed.

(** What [getUnreadCount] returns in a state whose books are kept. *)
Lemma getUnreadCount_spec env s :
  tidy s →
  getUnreadCount env s
  = Ok (Z.of_nat (length (unread s (userMessages s).[msg_sender env]))) s.
Proof.
  intros Ht. pose proof (inbox_length s (msg_sender env) Ht) as Hlen.
  pose proof (counter_range s Ht) as Hcr.
  unfold getUnreadCount, mbind, M_bind, gets.
  rewrite (getUnreadCount_loop_spec _ _ 0) by lia.
  reflexivity.
Qed.

Lemma sorted_NoDup (l : list Z) : StronglySorted Z.lt l → NoDup l.
Proof.
  induction 1 as [|x l Hl IH Hx]; constructor; [|exact IH].
  intros Hin. pose proof (proj1 (list.Forall_forall _ _) Hx x Hin). lia.
Qed.

(** Reading one message takes one id out of the unread ones. *)
Lemma unread_after_read s s' l messageId :
  messages s' = <[messageId := Message.set_isRead true (messages s).[messageId]]>
                  (messages s) →
  Message.isRead (messages s).[messageId] = false →
  NoDup l →
  (messageId ∉ l → unread s' l = unread s l) ∧
  (messageId ∈ l → length (unread s l) = S (length (unread s' l))).
Proof.
  intros Hm Hunread. unfold unread. rewrite Hm.
  induction 1 as [|x l Hx Hl IH]; cbn [List.filter].
  - split; [done|]. intros Hin. by apply elem_of_nil in Hin.
  - rewrite elem_of_cons. destruct (decide (messageId = x)) as [->|Hne].
    + rewrite at_key_insert_eq. cbn [Message.isRead Message.set_isRead negb].
      rewrite Hunread. cbn [negb length].
      split; [intros Hnot; exfalso; apply Hnot; by left|].
      intros _. f_equal. by rewrite (proj1 IH Hx).
    + rewrite at_key_insert_ne by done.
      destruct (negb (Message.isRead (messages s).[x])); cbn [length].
      * split.
        -- intros Hnot. f_equal. apply IH. intros Hin. apply Hnot. by right.
        -- intros [Heq|Hin]; [done|]. f_equal. by apply IH.
      * split.
        -- intros Hnot. apply IH. intros Hin. apply Hnot. by right.
        -- intros [Heq|Hin]; [done|]. by apply IH.
Qed.

(** X21. [getMessagesPaginated] returns a page of the caller's inbox.  In
    every reachable state, for every offset and limit of [uint256], it
    returns without stopping the ids from position [offset] on, at most
    [limit] of them: no index leaves the array and no addition overflows. *)
Theorem getMessagesPaginated_page env offset limit s :
  reachable s → 0 ≤ offset → 0 ≤ limit →
  getMessagesPaginated env offset limit s
  = Ok (take (Z.to_nat limit)
          (drop (Z.to_nat offset) (userMessages s).[msg_sender env])) s.
Proof.
  intros Hr Hoff Hlim. pose proof (reachable_tidy s Hr) as Ht.
  pose proof (inbox_length s (msg_sender env) Ht) as Hlen.
  pose proof (counter_range s Ht) as Hcr.
  unfold getMessagesPaginated, mbind, M_bind, gets.
  set (allMessages := (userMessages s).[msg_sender env]) in *.
  destruct (offset >=? Z.of_nat (length allMessages)) eqn:Hge.
  - apply Z.geb_le in Hge. rewrite drop_ge by lia. by rewrite take_nil.
  - rewrite Z.geb_leb in Hge. apply Z.leb_gt in Hge. cbv zeta.
    set (resultSize := if Z.of_nat (length allMessages) - offset <? limit
                       then Z.of_nat (length allMessages) - offset else limit).
    assert (Hsize : 0 ≤ resultSize ≤ Z.of_nat (length allMessages) - offset ∧
                    resultSize = Z.min (Z.of_nat (length allMessages) - offset) limit).
    { subst resultSize.
      destruct (Z.of_nat (length allMessages) - offset <? limit) eqn:Hlt;
        bool_to_prop; lia. }
    rewrite <- (Z2Nat.id offset) at 1 by lia.
    rewrite (getMessagesPaginated_loop_spec _ _ (Z.to_nat offset) 0);
      [| rewrite length_replicate; lia | lia | lia].
    f_equal. rewrite take_0, app_nil_l, Nat.add_0_r.
    destruct (Z.le_gt_cases limit (Z.of_nat (length allMessages) - offset)).
    + f_equal. lia.
    + rewrite !take_ge; [reflexivity | rewrite length_drop; lia
                        | rewrite length_drop; lia].
Qed.

(** X22. [getUnreadCount] counts the caller's unread messages.  In every
    reachable state it returns, without stopping or changing anything, the
    number of ids of the caller's inbox whose message is unread; the
    number is at most the [messageCount] of the caller's profile. *)
Theorem getUnreadCount_counts env s :
  reachable s →
  ∃ n, getUnreadCount env s = Ok n s ∧
    n = Z.of_nat (length (unread s (userMessages s).[msg_sender env])) ∧
    0 ≤ n ≤ UserProfile.messageCount (profiles s).[msg_sender env].
Proof.
  intros Hr. pose proof (reachable_tidy s Hr) as Ht.
  eexists. split; [apply (getUnreadCount_spec env s Ht)|]. split; [reflexivity|].
  rewrite (inbox_count s Ht).
  pose proof (unread_length s (userMessages s).[msg_sender env]). lia.
Qed.

(** X23. A message is read once.  After a successful [markAsRead] in a
    reachable state, [getUnreadCount] of the caller is one less than
    before; in every later state the message is still read, and
    [markAsRead] on it stops: at "Message already read" for the caller, at
    a [require] for everybody. *)
Theorem markAsRead_once env messageId s s' :
  reachable s →
  markAsRead env messageId s = Ok tt s' →
  (∃ n, getUnreadCount env s = Ok (n + 1) s ∧ getUnreadCount env s' = Ok n s') ∧
  ∀ txs env2,
    Message.isRead (messages (run txs s')).[messageId] = true ∧
    rejected (markAsRead env2 messageId (run txs s')) (run txs s') ∧
    (msg_sender env2 = msg_sender env →
       markAsRead env2 messageId (run txs s')
         = Fail (Revert "Message already read") (run txs s')).
Proof.
  intros Hr Hok. pose proof (reachable_tidy s Hr) as Ht.
  assert (Ht' : tidy s') by (by apply (tidy_markAsRead env messageId s)).
  assert (Hnew : message_exists s messageId ∧
    Message.recipient (messages s).[messageId] = msg_sender env ∧
    Message.isRead (messages s).[messageId] = false ∧
    messages s' = <[messageId := Message.set_isRead true (messages s).[messageId]]>
                    (messages s) ∧
    userMessages s' = userMessages s ∧ messageCounter s' = messageCounter s).
  { unfold message_exists. clear Ht'. wb_ended_normally Hok. done. }
  clear Hok. destruct Hnew as (Hex & Hrec & Hunread & Hm & Hu & Hc).
  split.
  - exists (Z.of_nat (length (unread s' (userMessages s').[msg_sender env]))).
    rewrite (getUnreadCount_spec env s Ht), (getUnreadCount_spec env s' Ht').
    split; [|reflexivity]. f_equal. rewrite Hu.
    destruct (unread_after_read s s' (userMessages s).[msg_sender env] messageId
                Hm Hunread (sorted_NoDup _ (inbox_sorted s Ht _))) as [_ Hone].
    rewrite Hone; [lia|]. by apply (inbox_exact s Ht).
  - intros txs env2.
    assert (Hex' : message_exists s' messageId)
      by (unfold message_exists in *; lia).
    assert (Hread' : Message.isRead (messages s').[messageId] = true)
      by (rewrite Hm, at_key_insert_eq; reflexivity).
    assert (Hrec' : Message.recipient (messages s').[messageId] = msg_sender env)
      by (rewrite Hm, at_key_insert_eq; exact Hrec).
    destruct (keeps_message _ _ (keeps_run txs s') messageId Hex')
      as (_ & Krec & _ & Kread & _).
    specialize (Kread Hread').
    pose proof (keeps_counter _ _ (keeps_run txs s')) as Kc.
    unfold message_exists in Hex'.
    split; [exact Kread|]. split.
    + unfold rejected. wb_run; bool_to_prop; eauto; exfalso; first [lia | congruence].
    + intros Hsame. wb_run; bool_to_prop; first [reflexivity | exfalso; lia | exfalso; congruence].
Qed.

End Pages.


Section Delivery.
Import WhisperBox.
Context `{FHEVM} `{Keccak256}.

(** ** Who may read a message *)

(** X24. Only the recipient reaches a message.  For an id that is not a
    message's, [getMessage], [getEncryptedMessage], [requestMessageAccess]
    and [markAsRead] stop at "Message does not exist"; for a message
    addressed to somebody else they stop at "Not the recipient". *)
Theorem only_recipient_may_read env s messageId :
  (¬ message_exists s messageId →
     getMessage env messageId s = Fail (Revert "Message does not exist") s ∧
     getEncryptedMessage env messageId s = Fail (Revert "Message does not exist") s ∧
     requestMessageAccess env messageId s = Fail (Revert "Message does not exist") s ∧
     markAsRead env messageId s = Fail (Revert "Message does not exist") s) ∧
  (message_exists s messageId →
   Message.recipient (messages s).[messageId] ≠ msg_sender env →
     getMessage env messageId s = Fail (Revert "Not the recipient") s ∧
     getEncryptedMessage env messageId s = Fail (Revert "Not the recipient") s ∧
     requestMessageAccess env messageId s = Fail (Revert "Not the recipient") s ∧
     markAsRead env messageId s = Fail (Revert "Not the recipient") s).
Proof.
  unfold message_exists. split.
  - intros Hno.
    repeat split; wb_run; bool_to_prop; first [reflexivity | exfalso; lia].
  - intros Hex Hother.
    repeat split; wb_run; bool_to_prop;
      first [reflexivity | exfalso; lia | exfalso; congruence].
Qed.

(** X25. Who may decrypt.  In every reachable state each permission
    granted names the contract itself or the recipient of the message
    whose handle it is; and for every message the contract and the
    recipient hold a permission on its handle. *)
Theorem permissions_are_the_recipients s :
  reachable s →
  (∀ handle grantee, (handle, grantee) ∈ acl s →
     grantee = this ∨
     ∃ messageId, message_exists s messageId ∧
       handle = (encryptedMessages s).[messageId] ∧
       grantee = Message.recipient (messages s).[messageId]) ∧
  (∀ messageId, message_exists s messageId →
     ((encryptedMessages s).[messageId], this) ∈ acl s ∧
     ((encryptedMessages s).[messageId],
      Message.recipient (messages s).[messageId]) ∈ acl s).
Proof.
  intros Hr. pose proof (reachable_tidy s Hr) as Ht.
  split; [apply (permissions_justified s Ht) | apply (permissions_complete s Ht)].
Qed.

(** ** Sending *)

(** X26. When [sendAnonymousMessage] goes through.  In a reachable state
    it ends normally exactly when the id is in the directory, the engine
    accepts the input and [messageCounter] is below the top of [uint256];
    it never stops at "Profile does not exist", and the recipient's
    [messageCount] never overflows. *)
Theorem sendAnonymousMessage_goes_through env recipientUserId encryptedContent
    inputProof s :
  reachable s →
  (succeeds (sendAnonymousMessage env recipientUserId encryptedContent inputProof s) ↔
     at_id (userIdToAddress s) recipientUserId ≠ 0 ∧
     (∃ handle, fromExternal encryptedContent inputProof = Some handle) ∧
     messageCounter s < MAX_UINT256) ∧
  (∀ s', sendAnonymousMessage env recipientUserId encryptedContent inputProof s
         ≠ Fail (Revert "Profile does not exist") s').
Proof.
  intros Hr. pose proof (reachable_tidy s Hr) as Ht.
  pose proof (counter_range s Ht) as Hcr.
  pose proof (directory_active s Ht recipientUserId) as Hdir.
  pose proof (inbox_count s Ht (at_id (userIdToAddress s) recipientUserId)) as Hcount.
  pose proof (inbox_length s (at_id (userIdToAddress s) recipientUserId) Ht) as Hlen.
  unfold succeeds. split; [split|].
  - intros (a & s' & Hok). revert Hok. wb_run; try discriminate. intros _.
    bool_to_prop. split; [done|]. split; [eauto|lia].
  - intros (Hnz & [handle Hh] & Hc).
    wb_run; bool_to_prop; eauto; exfalso;
      first [ lia | congruence | destruct (Hdir Hnz); congruence ].
  - intros s'. wb_run; bool_to_prop; try discriminate.
    destruct (Hdir ltac:(done)). congruence.
Qed.

(** X27. A message sent is delivered.  After a successful
    [sendAnonymousMessage] in a reachable state the id returned is the
    old [messageCounter]; in every later state the address the id stood
    for finds the message in its inbox, [getMessage] gives it the id, the
    recipient and the block time of the sending, and
    [getEncryptedMessage] gives it the engine's handle for the input. *)
Theorem message_is_delivered env recipientUserId encryptedContent inputProof
    s messageId s' :
  reachable s →
  sendAnonymousMessage env recipientUserId encryptedContent inputProof s
    = Ok messageId s' →
  messageId = messageCounter s ∧
  ∃ handle,
    fromExternal encryptedContent inputProof = Some handle ∧
    ∀ txs env2,
      msg_sender env2 = at_id (userIdToAddress s) recipientUserId →
      messageId ∈ (userMessages (run txs s')).[msg_sender env2] ∧
      getEncryptedMessage env2 messageId (run txs s') = Ok handle (run txs s') ∧
      ∃ x, getMessage env2 messageId (run txs s') = Ok x (run txs s') ∧
        Message.id x = messageId ∧
        Message.recipient x = msg_sender env2 ∧
        Message.timestamp x = block_timestamp env.
Proof.
  intros Hr Hok. pose proof (reachable_tidy s Hr) as Ht.
  pose proof (counter_range s Ht) as Hcr.
  set (r := at_id (userIdToAddress s) recipientUserId).
  assert (Hnew : messageId = messageCounter s ∧
    ∃ handle, fromExternal encryptedContent inputProof = Some handle ∧
      message_exists s' messageId ∧
      messageId ∈ (userMessages s').[r] ∧
      (encryptedMessages s').[messageId] = handle ∧
      Message.id (messages s').[messageId] = messageId ∧
      Message.recipient (messages s').[messageId] = r ∧
      Message.timestamp (messages s').[messageId] = block_timestamp env).
  { unfold message_exists. subst r. wb_ended_normally Hok.
    split; [reflexivity|]. eexists. split; [reflexivity|].
    rewrite !at_key_insert_eq. wb_simpl.
    split; [lia|]. split; [|done].
    rewrite elem_of_app, list_elem_of_singleton. by right. }
  clear Hok. destruct Hnew as (Hid & handle & Hh & Hex & Hin & He & M1 & M2 & M3).
  split; [exact Hid|]. exists handle. split; [exact Hh|].
  intros txs env2 Hsender. change (msg_sender env2 = r) in Hsender.
  pose proof (keeps_run txs s') as Hk.
  destruct (keeps_message _ _ Hk messageId Hex) as (K1 & K2 & K3 & _ & K5).
  pose proof (keeps_counter _ _ Hk) as Kc.
  unfold message_exists in Hex.
  split; [|split].
  - rewrite Hsender. destruct (keeps_inbox _ _ Hk r) as [more ->].
    apply elem_of_app. by left.
  - wb_run; bool_to_prop; first [f_equal; congruence | exfalso; lia | exfalso; congruence].
  - exists (messages (run txs s')).[messageId]. split.
    + wb_run; bool_to_prop; first [reflexivity | exfalso; lia | exfalso; congruence].
    + repeat split; congruence.
Qed.

(** ** The directory of ids *)

(** X28. The two lookups by id agree.  In every reachable state, for an
    id that is not in the directory both [getAddressFromUserId] and
    [getProfileByUserId] stop at "User ID does not exist"; for an id that
    is, they return an address and the profile stored for that address,
    which is active and carries that id: "Profile does not exist" is never
    the answer. *)
Theorem directory_is_sound s userId :
  reachable s →
  (at_id (userIdToAddress s) userId = 0 →
     getAddressFromUserId userId s = Fail (Revert "User ID does not exist") s ∧
     getProfileByUserId userId s = Fail (Revert "User ID does not exist") s) ∧
  (at_id (userIdToAddress s) userId ≠ 0 →
     ∃ user x,
       getAddressFromUserId userId s = Ok user s ∧
       getProfileByUserId userId s = Ok x s ∧
       getProfile user s = Ok x s ∧
       UserProfile.userAddress x = user ∧
       UserProfile.userId x = userId ∧
       UserProfile.isActive x = true).
Proof.
  intros Hr. pose proof (reachable_tidy s Hr) as Ht.
  pose proof (directory_active s Ht userId) as Hdir.
  split.
  - intros Hz. split; wb_run; bool_to_prop;
      first [reflexivity | exfalso; congruence].
  - intros Hnz. destruct (Hdir Hnz) as [Ha Hu].
    destruct (profile_shape s Ht _ Ha) as (Hp & _).
    exists (at_id (userIdToAddress s) userId),
           (profiles s).[at_id (userIdToAddress s) userId].
    repeat split; try done;
      wb_run; bool_to_prop;
      first [reflexivity | exfalso; congruence].
Qed.

End Delivery.


(** ** The scenario of the [WhisperBox] contract *)

Section WhisperScenario.
Import WhisperBox.

Lemma toHexString_digits_witness :
  ∃ str, toHexString [0xde; 0xad; 0xbe; 0xef] = Some str ∧
    length str = (2 * length [0xde; 0xad; 0xbe; 0xef])%nat ∧
    Forall is_hex_digit str ∧
    ∀ i d, [0xde; 0xad; 0xbe; 0xef] !! i = Some d →
      ∃ hi lo, str !! (2 * i)%nat = Some hi ∧ str !! (2 * i + 1)%nat = Some lo ∧
               16 * hex_value hi + hex_value lo = d.
Proof.
  refine (toHexString_digits [0xde; 0xad; 0xbe; 0xef] _).
  repeat constructor; unfold is_byte; lia.
Defined.

Lemma profile_is_permanent_witness :
  let s' := run (H:=accepting_engine) (H0:=counting_hash) profile_created initial in
  let later := run (H:=accepting_engine) (H0:=counting_hash)
                 [(asker_env, SendAnonymousMessage alice_id 55 [])] s' in
  ∃ x,
    getProfile (msg_sender host_env) later = Ok x later ∧
    UserProfile.userAddress x = msg_sender host_env ∧
    UserProfile.createdAt x = block_timestamp host_env ∧
    length (UserProfile.userId x) = 8%nat ∧
    Forall is_hex_digit (UserProfile.userId x) ∧
    UserProfile.username x = bytes_of "user_" ++ UserProfile.userId x ∧
    ∀ env2, msg_sender env2 = msg_sender host_env →
      createProfile (H0:=counting_hash) env2 later
        = Fail (Revert "Profile already exists") later.
Proof.
  intros s'.
  assert (Hok : createProfile (H0:=counting_hash) host_env initial = Ok tt s')
    by (vm_compute; reflexivity).
  exact (profile_is_permanent (H:=accepting_engine) (H0:=counting_hash)
           host_env initial s' Hok [(asker_env, SendAnonymousMessage alice_id 55 [])]).
Defined.

Lemma getMyMessages_exact_witness :
  let s := run (H:=accepting_engine) (H0:=counting_hash) message_sent initial in
  ∃ l, getMyMessages host_env s = Ok l s ∧
    StronglySorted Z.lt l ∧
    Z.of_nat (length l) = UserProfile.messageCount (profiles s).[msg_sender host_env] ∧
    ∀ messageId, messageId ∈ l ↔
      message_exists s messageId ∧
      Message.recipient (messages s).[messageId] = msg_sender host_env.
Proof.
  intros s.
  refine (getMyMessages_exact (H:=accepting_engine) (H0:=counting_hash) host_env s _).
  exists message_sent. reflexivity.
Defined.

Lemma getMessagesPaginated_page_witness :
  let s := run (H:=accepting_engine) (H0:=counting_hash) message_sent initial in
  getMessagesPaginated host_env 0 10 s
  = Ok (take (Z.to_nat 10)
          (drop (Z.to_nat 0) (userMessages s).[msg_sender host_env])) s.
Proof.
  intros s.
  refine (getMessagesPaginated_page (H:=accepting_engine) (H0:=counting_hash)
            host_env 0 10 s _ _ _).
  - exists message_sent. reflexivity.
  - lia.
  - lia.
Defined.

Lemma getUnreadCount_counts_witness :
  let s := run (H:=accepting_engine) (H0:=counting_hash) message_sent initial in
  ∃ n, getUnreadCount host_env s = Ok n s ∧
    n = Z.of_nat (length (unread s (userMessages s).[msg_sender host_env])) ∧
    0 ≤ n ≤ UserProfile.messageCount (profiles s).[msg_sender host_env].
Proof.
  intros s.
  refine (getUnreadCount_counts (H:=accepting_engine) (H0:=counting_hash) host_env s _).
  exists message_sent. reflexivity.
Defined.

Lemma markAsRead_once_witness :
  let s := run (H:=accepting_engine) (H0:=counting_hash) message_sent initial in
  let s' := run (H:=accepting_engine) (H0:=counting_hash) message_read initial in
  ∃ n, getUnreadCount host_env s = Ok (n + 1) s ∧ getUnreadCount host_env s' = Ok n s'.
Proof.
  intros s s'.
  refine (proj1 (markAsRead_once (H:=accepting_engine) (H0:=counting_hash)
                   host_env 1 s s' _ _)).
  - exists message_sent. reflexivity.
  - vm_compute. reflexivity.
Defined.

(** Bob is not the recipient of the message he sent. *)
Lemma only_recipient_may_read_witness :
  let s := run (H:=accepting_engine) (H0:=counting_hash) message_sent initial in
  getMessage asker_env 1 s = Fail (Revert "Not the recipient") s ∧
  getEncryptedMessage asker_env 1 s = Fail (Revert "Not the recipient") s ∧
  requestMessageAccess asker_env 1 s = Fail (Revert "Not the recipient") s ∧
  markAsRead asker_env 1 s = Fail (Revert "Not the recipient") s.
Proof.
  intros s.
  refine (proj2 (only_recipient_may_read asker_env s 1) _ _).
  - unfold message_exists. vm_compute. split; reflexivity.
  - vm_compute. discriminate.
Defined.

Lemma permissions_are_the_recipients_witness :
  let s := run (H:=accepting_engine) (H0:=counting_hash) message_sent initial in
  (∀ handle grantee, (handle, grantee) ∈ acl s →
     grantee = this (FHEVM:=accepting_engine) ∨
     ∃ messageId, message_exists s messageId ∧
       handle = (encryptedMessages s).[messageId] ∧
       grantee = Message.recipient (messages s).[messageId]) ∧
  (∀ messageId, message_exists s messageId →
     ((encryptedMessages s).[messageId], this (FHEVM:=accepting_engine)) ∈ acl s ∧
     ((encryptedMessages s).[messageId],
      Message.recipient (messages s).[messageId]) ∈ acl s).
Proof.
  intros s.
  refine (permissions_are_the_recipients (H:=accepting_engine) (H0:=counting_hash) s _).
  exists message_sent. reflexivity.
Defined.

Lemma sendAnonymousMessage_goes_through_witness :
  let s := run (H:=accepting_engine) (H0:=counting_hash) profile_created initial in
  (succeeds (sendAnonymousMessage (H:=accepting_engine) asker_env alice_id 55 [] s) ↔
     at_id (userIdToAddress s) alice_id ≠ 0 ∧
     (∃ handle, fromExternal (FHEVM:=accepting_engine) 55 [] = Some handle) ∧
     messageCounter s < MAX_UINT256) ∧
  (∀ s', sendAnonymousMessage (H:=accepting_engine) asker_env alice_id 55 [] s
         ≠ Fail (Revert "Profile does not exist") s').
Proof.
  intros s.
  refine (sendAnonymousMessage_goes_through (H:=accepting_engine) (H0:=counting_hash)
            asker_env alice_id 55 [] s _).
  exists profile_created. reflexivity.
Defined.

Lemma message_is_delivered_witness :
  let s := run (H:=accepting_engine) (H0:=counting_hash) profile_created initial in
  let s' := run (H:=accepting_engine) (H0:=counting_hash) message_sent initial in
  1 = messageCounter s ∧
  ∃ handle,
    fromExternal (FHEVM:=accepting_engine) 55 [] = Some handle ∧
    ∀ txs env2,
      msg_sender env2 = at_id (userIdToAddress s) alice_id →
      1 ∈ (userMessages (run (H:=accepting_engine) (H0:=counting_hash) txs s')).[msg_sender env2] ∧
      getEncryptedMessage env2 1 (run (H:=accepting_engine) (H0:=counting_hash) txs s')
        = Ok handle (run (H:=accepting_engine) (H0:=counting_hash) txs s') ∧
      ∃ x, getMessage env2 1 (run (H:=accepting_engine) (H0:=counting_hash) txs s')
             = Ok x (run (H:=accepting_engine) (H0:=counting_hash) txs s') ∧
        Message.id x = 1 ∧
        Message.recipient x = msg_sender env2 ∧
        Message.timestamp x = block_timestamp asker_env.
Proof.
  intros s s'.
  refine (message_is_delivered (H:=accepting_engine) (H0:=counting_hash)
            asker_env alice_id 55 [] s 1 s' _ _).
  - exists profile_created. reflexivity.
  - vm_compute. reflexivity.
Defined.

Lemma directory_is_sound_witness :
  let s := run (H:=accepting_engine) (H0:=counting_hash) message_sent initial in
  ∃ user x,
    getAddressFromUserId alice_id s = Ok user s ∧
    getProfileByUserId alice_id s = Ok x s ∧
    getProfile user s = Ok x s ∧
    UserProfile.userAddress x = user ∧
    UserProfile.userId x = alice_id ∧
    UserProfile.isActive x = true.
Proof.
  intros s.
  refine (proj2 (directory_is_sound (H:=accepting_engine) (H0:=counting_hash)
                   s alice_id _) _).
  - exists message_sent. reflexivity.
  - vm_compute. discriminate.
Defined.

End WhisperScenario.


(* ===================================================================== *)
(** * Part 9: the [AnonAsk] contract's properties                         *)
(* ===================================================================== *)

Ltac aa_unfold :=
  cbv beta iota delta
    [AnonAsk.createSession AnonAsk.submitQuestion AnonAsk.requestQuestionAccess
     AnonAsk.getEncryptedQuestion AnonAsk.answerQuestion AnonAsk.approveQuestion
     AnonAsk.upvoteQuestion AnonAsk.closeSession AnonAsk.exec
     AnonAsk.getSessionQuestions AnonAsk.getHostSessions AnonAsk.getSession
     AnonAsk.getQuestion AnonAsk.isSessionExpired
     AnonAsk.onlyHost AnonAsk.sessionExists AnonAsk.sessionActive
     AnonAsk.validQuestionId
     AnonAsk.FHE_fromExternal AnonAsk.FHE_allow AnonAsk.FHE_allowThis
     AnonAsk.require AnonAsk.gets AnonAsk.modify AnonAsk.emit AnonAsk.checked_add
     mbind AnonAsk.M_bind mret AnonAsk.M_ret] in *.

Ltac aa_simpl :=
  cbn [AnonAsk.sessions AnonAsk.questions AnonAsk.encryptedQuestions
       AnonAsk.sessionQuestions AnonAsk.hostSessions AnonAsk.hasUpvoted
       AnonAsk.sessionCount AnonAsk.questionCount AnonAsk.acl AnonAsk.events
       AnonAsk.upd_sessions AnonAsk.upd_questions AnonAsk.upd_encryptedQuestions
       AnonAsk.upd_sessionQuestions AnonAsk.upd_hostSessions AnonAsk.upd_hasUpvoted
       AnonAsk.set_sessionCount AnonAsk.set_questionCount AnonAsk.upd_acl
       AnonAsk.upd_events
       Session.id Session.host Session.topic Session.description
       Session.createdAt Session.expiresAt Session.isActive
       Session.questionCount Session.answeredCount
       Session.set_isActive Session.set_questionCount Session.set_answeredCount
       AnonAsk.Question.id AnonAsk.Question.sessionId AnonAsk.Question.timestamp
       AnonAsk.Question.isAnswered AnonAsk.Question.isApproved
       AnonAsk.Question.answer AnonAsk.Question.upvotes
       AnonAsk.Question.set_answer AnonAsk.Question.set_isAnswered
       AnonAsk.Question.set_isApproved AnonAsk.Question.set_upvotes
       fst snd msg_sender block_timestamp] in *.

Ltac aa_run :=
  aa_unfold; aa_simpl;
  repeat (case_test; cbv beta iota in *; aa_simpl).

Lemma aa_Ok_inv {A} (a b : A) s s' :
  AnonAsk.Ok a s = AnonAsk.Ok b s' → a = b ∧ s = s'.
Proof. intros Heq. by inversion Heq. Qed.

Ltac aa_ended_normally Hok :=
  revert Hok; aa_run; try discriminate; intros Hok;
  apply aa_Ok_inv in Hok as [? ?]; subst; aa_simpl; bool_to_prop.

Section Votes.
Import AnonAsk.
Context `{FHEVM}.

Lemma aa_step_cases s tx :
  step s tx = s ∨ ∃ s', exec (fst tx) (snd tx) s = Ok tt s' ∧ step s tx = s'.
Proof.
  unfold step, call. destruct (exec (fst tx) (snd tx) s) as [[] s'|f s'] eqn:He;
    cbn [snd]; eauto.
Qed.

(** ** Votes, approvals and answers stay *)

Lemma voted_insert_eq m questionId a :
  voted (<[(questionId, a) := true]> m) questionId a = true.
Proof. unfold voted. by rewrite lookup_insert_eq. Qed.

Lemma voted_insert_ne m questionId a questionId' a' :
  (questionId, a) ≠ (questionId', a') →
  voted (<[(questionId, a) := true]> m) questionId' a' = voted m questionId' a'.
Proof. intros Hne. unfold voted. by rewrite lookup_insert_ne. Qed.

Lemma voted_insert m questionId a questionId' a' :
  voted m questionId' a' = true →
  voted (<[(questionId, a) := true]> m) questionId' a' = true.
Proof.
  intros Hv. destruct (decide ((questionId, a) = (questionId', a'))) as [Heq|Hne].
  - inversion Heq; subst. apply voted_insert_eq.
  - by rewrite voted_insert_ne.
Qed.

Lemma stays_refl s : stays s s.
Proof. constructor; try done; try lia. Qed.

Lemma stays_trans s1 s2 s3 : stays s1 s2 → stays s2 s3 → stays s1 s3.
Proof.
  intros H12 H23. constructor.
  - pose proof (stays_count _ _ H12). pose proof (stays_count _ _ H23). lia.
  - intros q a Hv. by apply (stays_voted _ _ H23), (stays_voted _ _ H12).
  - intros q Hq.
    destruct (stays_question _ _ H12 q Hq) as (A1 & A2 & A3 & A4 & A5 & A6).
    assert (Hq2 : question_exists s2 q).
    { pose proof (stays_count _ _ H12). unfold question_exists in *. lia. }
    destruct (stays_question _ _ H23 q Hq2) as (B1 & B2 & B3 & B4 & B5 & B6).
    split; [congruence|]. split; [congruence|]. split; [congruence|].
    split; [lia|]. split; [auto|].
    intros Ha. destruct (A6 Ha) as [Ha2 Hans]. destruct (B6 Ha2) as [Ha3 Hans'].
    split; [exact Ha3 | congruence].
Qed.

Lemma stays_step s tx : stays s (step s tx).
Proof.
  destruct (aa_step_cases s tx) as [->|(s' & Hok & ->)]; [apply stays_refl|].
  destruct tx as [env c]. cbn [fst snd] in Hok.
  destruct c; aa_ended_normally Hok.
  all: constructor; unfold question_exists; aa_simpl;
    try done; try lia; try (intros; by apply voted_insert).
  all: intros k Hk; split_at k; aa_simpl;
    repeat split; try done; try lia; try congruence.
Qed.

Lemma stays_run txs s : stays s (run txs s).
Proof.
  revert s. induction txs as [|tx txs IH]; intros s; [apply stays_refl|].
  cbn [run fold_left]. eapply stays_trans; [apply stays_step | apply IH].
Qed.

End Votes.


Section Counting.
Import AnonAsk.
Context `{FHEVM}.

(** ** Counting the votes *)

Lemma voted_lookup (m : gmap (Z * Z) bool) questionId a b :
  m !! (questionId, a) = Some b → voted m questionId a = b.
Proof. intros Hb. unfold voted. by rewrite Hb. Qed.

Lemma no_upvoters (m : gmap (Z * Z) bool) questionId :
  (∀ a, voted m questionId a = false) →
  size (filter (λ kv : Z * Z * bool, kv.1.1 = questionId ∧ kv.2 = true) m) = 0%nat.
Proof.
  intros Hnone. apply map_size_empty_iff, map_empty. intros [q a].
  apply map_lookup_filter_None. right. intros b Hb [Hq Ht]. simpl in Hq, Ht. subst.
  specialize (Hnone a). apply voted_lookup in Hb. congruence.
Qed.

Lemma upvoters_insert_same (m : gmap (Z * Z) bool) questionId (a : Z) :
  voted m questionId a = false →
  size (filter (λ kv : Z * Z * bool, kv.1.1 = questionId ∧ kv.2 = true)
          (<[(questionId, a) := true]> m))
  = S (size (filter (λ kv : Z * Z * bool, kv.1.1 = questionId ∧ kv.2 = true) m)).
Proof.
  intros Hv. rewrite map_filter_insert_True by done.
  apply map_size_insert_None. apply map_lookup_filter_None. right.
  intros b Hb [_ Ht]. simpl in Ht. subst b.
  apply voted_lookup in Hb. congruence.
Qed.

Lemma upvoters_insert_other (m : gmap (Z * Z) bool) questionId (a : Z) questionId' :
  questionId ≠ questionId' →
  filter (λ kv : Z * Z * bool, kv.1.1 = questionId' ∧ kv.2 = true)
    (<[(questionId, a) := true]> m)
  = filter (λ kv : Z * Z * bool, kv.1.1 = questionId' ∧ kv.2 = true) m.
Proof.
  intros Hne. apply map_filter_insert_not. intros b [Hq _]. simpl in Hq. done.
Qed.

Lemma sound_initial : sound initial.
Proof.
  constructor; cbn.
  - lia.
  - intros q. unfold at_key. rewrite lookup_empty. cbn.
    unfold upvoters. cbn. by rewrite map_filter_empty, map_size_empty.
  - intros q a. unfold voted. rewrite lookup_empty. discriminate.
Qed.

Lemma sound_step s tx : sound s → sound (step s tx).
Proof.
  intros Hs. pose proof (count_nonneg s Hs) as Hc.
  destruct (aa_step_cases s tx) as [->|(s' & Hok & ->)]; [done|].
  destruct tx as [env c]. cbn [fst snd] in Hok.
  destruct c; aa_ended_normally Hok.
  all: constructor; unfold question_exists, upvoters in *; aa_simpl; try lia.
  all: try (intros q; rewrite ?(at_key_insert_field Question.upvotes) by reflexivity;
            apply (upvotes_counted s Hs)).
  all: try (intros q a Hv; apply (votes_exist s Hs) in Hv;
            unfold question_exists in Hv; lia).
  - (* submitQuestion: a new question has no votes *)
    intros q. split_at q; aa_simpl; [|apply (upvotes_counted s Hs)].
    rewrite no_upvoters; [reflexivity|].
    intros a. destruct (voted (hasUpvoted s) (questionCount s + 1) a) eqn:Hv;
      [|reflexivity].
    apply (votes_exist s Hs) in Hv. unfold question_exists in Hv. lia.
  - (* upvoteQuestion: one more voter *)
    intros q. destruct (decide (questionId = q)) as [->|Hne].
    + rewrite at_key_insert_eq. aa_simpl.
      rewrite upvoters_insert_same by done.
      pose proof (upvotes_counted s Hs q) as Hold. unfold upvoters in Hold. lia.
    + rewrite at_key_insert_ne by done.
      rewrite upvoters_insert_other by done. apply (upvotes_counted s Hs).
  - intros q a.
    destruct (decide ((questionId, msg_sender env) = (q, a))) as [Heq|Hne].
    + inversion Heq; subst. intros _. lia.
    + rewrite voted_insert_ne by done. intros Hv.
      apply (votes_exist s Hs) in Hv. exact Hv.
Qed.

Lemma sound_run txs s : sound s → sound (run txs s).
Proof.
  revert s. induction txs as [|tx txs IH]; intros s Hs; [done|].
  cbn [run fold_left]. apply IH. by apply sound_step.
Qed.

Lemma reachable_sound s : reachable s → sound s.
Proof. intros [txs ->]. apply sound_run, sound_initial. Qed.

(** X29. One vote per address.  A successful [upvoteQuestion] in a
    reachable state raises the question's [upvotes] by one.  In every
    later state [upvotes] has not gone down and is the number of addresses
    recorded as having upvoted the question, and every further
    [upvoteQuestion] on it by the same caller stops at "Already upvoted". *)
Theorem upvote_counts_once env questionId s s' :
  reachable s →
  upvoteQuestion env questionId s = Ok tt s' →
  Question.upvotes (questions s').[questionId]
    = Question.upvotes (questions s).[questionId] + 1 ∧
  ∀ txs,
    Question.upvotes (questions (run txs s')).[questionId]
      = Z.of_nat (size (upvoters (run txs s') questionId)) ∧
    Question.upvotes (questions s').[questionId]
      ≤ Question.upvotes (questions (run txs s')).[questionId] ∧
    ∀ env2, msg_sender env2 = msg_sender env →
      upvoteQuestion env2 questionId (run txs s')
        = Fail (Revert "Already upvoted") (run txs s').
Proof.
  intros Hr Hok. pose proof (reachable_sound s Hr) as Hs.
  assert (Hs' : sound s').
  { replace s' with (step s (env, UpvoteQuestion questionId)); [by apply sound_step|].
    unfold step, call. cbn [fst snd exec]. by rewrite Hok. }
  assert (Hnew : question_exists s' questionId ∧
    voted (hasUpvoted s') questionId (msg_sender env) = true ∧
    Question.upvotes (questions s').[questionId]
      = Question.upvotes (questions s).[questionId] + 1).
  { unfold question_exists. clear Hs'. aa_ended_normally Hok.
    rewrite at_key_insert_eq, voted_insert_eq. aa_simpl. split; [lia|done]. }
  clear Hok. destruct Hnew as (Hex & Hv & Hup).
  split; [exact Hup|]. intros txs.
  pose proof (stays_run txs s') as Hk.
  pose proof (stays_count _ _ Hk) as Kc.
  pose proof (stays_voted _ _ Hk _ _ Hv) as Kv.
  destruct (stays_question _ _ Hk questionId Hex) as (_ & _ & _ & Kup & _).
  unfold question_exists in Hex.
  split; [apply (upvotes_counted _ (sound_run txs s' Hs'))|].
  split; [exact Kup|].
  intros env2 Hsame. rewrite <- Hsame in Kv.
  aa_run; bool_to_prop; first [reflexivity | exfalso; lia | exfalso; congruence].
Qed.

(** X30. A public answer is final.  After a successful [answerQuestion]
    the answer is not empty; in every later state [getQuestion] reports
    the question as answered and approved with that answer, and every
    further [answerQuestion] or [approveQuestion] on it stops at a
    [require], whoever calls. *)
Theorem public_answer_is_final env questionId answer s s' :
  answerQuestion env questionId answer s = Ok tt s' →
  answer ≠ "" ∧
  ∀ txs, ∃ x,
    getQuestion questionId (run txs s') = Ok x (run txs s') ∧
    Question.isAnswered x = true ∧
    Question.isApproved x = true ∧
    Question.answer x = answer ∧
    ∀ env2 answer2,
      rejected (answerQuestion env2 questionId answer2 (run txs s')) (run txs s') ∧
      rejected (approveQuestion env2 questionId (run txs s')) (run txs s').
Proof.
  intros Hok.
  assert (Hnew : answer ≠ "" ∧ question_exists s' questionId ∧
    Question.isAnswered (questions s').[questionId] = true ∧
    Question.isApproved (questions s').[questionId] = true ∧
    Question.answer (questions s').[questionId] = answer).
  { unfold question_exists. aa_ended_normally Hok.
    rewrite !at_key_insert_eq. aa_simpl.
    split; [|split; [lia|done]].
    intros ->. cbn in *. lia. }
  clear Hok. destruct Hnew as (Hne & Hex & Ha & Hp & Hans).
  split; [exact Hne|]. intros txs.
  pose proof (stays_run txs s') as Hk.
  pose proof (stays_count _ _ Hk) as Kc.
  destruct (stays_question _ _ Hk questionId Hex) as (_ & _ & _ & _ & Kp & Ka).
  specialize (Kp Hp). destruct (Ka Ha) as [Ka' Kans].
  unfold question_exists in Hex.
  exists (questions (run txs s')).[questionId].
  split; [aa_run; bool_to_prop; first [reflexivity | exfalso; lia]|].
  split; [exact Ka'|]. split; [exact Kp|]. split; [congruence|].
  intros env2 answer2. unfold rejected.
  split; aa_run; bool_to_prop; eauto; exfalso; first [lia | congruence].
Qed.

End Counting.


(** ** The scenario of the [AnonAsk] contract *)

Section PublicScenario.
Import AnonAsk.

(** After Bob and Carol, Alice upvotes the question. *)
Lemma upvote_counts_once_witness :
  let s := run (H:=accepting_engine) question_upvoted initial in
  let s' := run (H:=accepting_engine) [(mkEnv alice 1003, UpvoteQuestion 1)] s in
  Question.upvotes (questions s').[1] = Question.upvotes (questions s).[1] + 1 ∧
  ∀ txs,
    Question.upvotes (questions (run (H:=accepting_engine) txs s')).[1]
      = Z.of_nat (size (upvoters (run (H:=accepting_engine) txs s') 1)) ∧
    Question.upvotes (questions s').[1]
      ≤ Question.upvotes (questions (run (H:=accepting_engine) txs s')).[1] ∧
    ∀ env2, msg_sender env2 = msg_sender (mkEnv alice 1003) →
      upvoteQuestion env2 1 (run (H:=accepting_engine) txs s')
        = Fail (Revert "Already upvoted") (run (H:=accepting_engine) txs s').
Proof.
  intros s s'.
  refine (upvote_counts_once (H:=accepting_engine) (mkEnv alice 1003) 1 s s' _ _).
  - exists question_upvoted. reflexivity.
  - vm_compute. reflexivity.
Defined.

Lemma public_answer_is_final_witness :
  let s := run (H:=accepting_engine) question_upvoted initial in
  let s' := run (H:=accepting_engine) question_answered_publicly initial in
  "Yes." ≠ "" ∧
  ∀ txs, ∃ x,
    getQuestion 1 (run (H:=accepting_engine) txs s')
      = Ok x (run (H:=accepting_engine) txs s') ∧
    Question.isAnswered x = true ∧
    Question.isApproved x = true ∧
    Question.answer x = "Yes." ∧
    ∀ env2 answer2,
      rejected (answerQuestion env2 1 answer2 (run (H:=accepting_engine) txs s'))
               (run (H:=accepting_engine) txs s') ∧
      rejected (approveQuestion env2 1 (run (H:=accepting_engine) txs s'))
               (run (H:=accepting_engine) txs s').
Proof.
  intros s s'.
  refine (public_answer_is_final (H:=accepting_engine) host_env 1 "Yes." s s' _).
  vm_compute. reflexivity.
Defined.

End PublicScenario.
